(** * treemap-v: the weighted tree, its treemap layout and its visualiser

    A shallow embedding of [tree_data.py] (classes [AbstractTree] and
    [FileSystemTree]), of [population.py] (class [PopulationTree] and the
    readers of the World Bank data) and of the event loop of
    [treemap_visualiser.py], with the properties of the layout, of the
    mutations, of the constructors and of the loop.

    How the program is modelled:
    - Python integers are [Z].
    - In the layout, and in [change_prop] where the properties are about
      the shape of the tree (the invariants, the floor of the sizes, the
      leaves drawn), Python floats are idealised as exact rationals [Q]: the
      quotient [a / b] and the products [q * w] and [data_size * proportion]
      are computed without rounding error; [int(_)] truncates towards zero
      and [math.ceil(_)] rounds towards plus infinity.  On the examples
      below binary floating point gives the same integers.
    - Where a property is about the number that [change_prop] adds, the
      method is taken on IEEE 754 doubles (module [Double], over
      [spec_float] of the standard library): the conversion of the size to
      a float, the rounded product, [math.ceil] and the exceptions of the
      two conversions.
    - An [AbstractTree] object lives in a heap, a finite map from addresses
      to objects; [_subtrees] and [_parent_tree] hold addresses, so that the
      parent back-references and the in-place mutations of [__init__],
      [delete], [update_size] and [change_prop] are modelled with their
      aliasing.  A method is a function on heaps that returns or raises.
    - The recursion of [update_size] up the parent chain takes fuel; the
      theorems give the fuel that suffices.
    - [generate_treemap] and [leaf_at] only read the tree; they are defined
      by structural recursion over the immutable view [tree] of the objects
      below a node (function [view]).  Their loops are [gt_body]/[gt_loop]
      and [la_body]/[la_loop], over the subtrees seen as a size and a bound
      method.
    - The random colour drawn by [__init__] is an explicit argument, and the
      diagnostic file written at the end of [generate_treemap] is left out.
    - What the program gets from outside is an argument of the model: the
      answers of the [os] module for [FileSystemTree], the decoded answers
      of the World Bank and the builtin [int] for [population.py], and the
      events that pygame polls for the event loop, which is run on a finite
      list of them.  What the loop draws is the list of the frames it
      renders.

    The file has the definitions first (the program, the vocabulary of the
    properties, the loop invariants, example trees; then the representation
    invariants, the subclasses, the visualiser, the constructors and
    [change_prop] on doubles) and then the lemmas and theorems, in the same
    order. *)

From Stdlib Require Import ZArith QArith Qround Qabs Qpower Lia.
From Stdlib Require Import Floats.SpecFloat.
From stdpp Require Import base option list gmap strings pretty.

Local Open Scope Z_scope.

(** * The program *)

(** ** Exceptions and results *)

Inductive exn : Type :=
| AttributeError.

Inductive result (A : Type) : Type :=
| Return (a : A)
| Raise (e : exn).

Arguments Return {A} a.
Arguments Raise {A} e.

#[global] Instance result_ret : MRet result := fun _ a => Return a.
#[global] Instance result_bind : MBind result := fun _ _ f m =>
  match m with
  | Return a => f a
  | Raise e => Raise e
  end.

(** ** Geometry *)

Definition rect : Type := Z * Z * Z * Z.
Definition colour_t : Type := Z * Z * Z.
Definition treemap : Type := list (rect * colour_t).
Definition addr : Type := nat.

(** [int(q)] on a float: truncation towards zero. *)
Definition int_of_float (q : Q) : Z := Z.quot (Qnum q) (Zpos (Qden q)).

(** [int(c / s * e)], the extent given to a subtree of size [c] in a tree of
    size [s] along an axis of extent [e]. *)
Definition proportional (c s e : Z) : Z :=
  int_of_float (inject_Z c / inject_Z s * inject_Z e)%Q.

(** [l[:-k]]; in Python [l[:-0]] is [l[:0]], the empty list. *)
Definition drop_last {A} (k : nat) (l : list A) : list A :=
  if decide (k = 0%nat) then [] else take (length l - k) l.

(** ** The immutable view of a tree *)

#[local] Unset Elimination Schemes.
Inductive tree : Type :=
| Node (self : addr) (root : option string) (size : Z) (col : colour_t)
       (subtrees : list tree).

#[local] Set Elimination Schemes.

Definition tree_self (t : tree) : addr := let 'Node a _ _ _ _ := t in a.
Definition tree_root (t : tree) : option string := let 'Node _ r _ _ _ := t in r.
Definition tree_size (t : tree) : Z := let 'Node _ _ s _ _ := t in s.
Definition tree_colour (t : tree) : colour_t := let 'Node _ _ _ c _ := t in c.
Definition tree_subtrees (t : tree) : list tree := let 'Node _ _ _ _ l := t in l.

(** ** generate_treemap *)

(** A subtree as the loop of [generate_treemap] uses it: its [data_size]
    attribute and its bound [generate_treemap] method. *)
Definition gt_child : Type := Z * (rect -> result treemap).

(** The variables the loop updates: [x], [y], [result] and
    [last_tree = (tree, number of rectangles, x or y)]. *)
Record gt_state : Type := GtState {
  gt_x : Z;
  gt_y : Z;
  gt_result : treemap;
  gt_last : option gt_child * nat * Z
}.

Definition call_generate (o : option gt_child) (r : rect) : result treemap :=
  match o with
  | Some c => c.2 r
  | None => Raise AttributeError
  end.

(** One iteration of [for i in range(len(self._subtrees))]. *)
Definition gt_body (self_size w h ini_x ini_y : Z) (n i : nat)
    (subtree : gt_child) (st : gt_state) : result gt_state :=
  let '(GtState x y res last) := st in
  if w >? h then
    let local_w :=
      if (i <? n - 1)%nat then proportional subtree.1 self_size w
      else w - x + ini_x in
    sub_treemap ← subtree.2 (x, y, local_w, h);
    let res := res ++ sub_treemap in
    let last :=
      if decide (sub_treemap = []) then last
      else (Some subtree, length sub_treemap, x) in
    if (i =? n - 1)%nat then
      let x := last.2 in
      let res := drop_last last.1.2 res in
      let local_w := w - x + ini_x in
      sub_treemap ← call_generate last.1.1 (x, y, local_w, h);
      let res := res ++ sub_treemap in
      Return (GtState (x + local_w) y res last)
    else
      Return (GtState (x + local_w) y res last)
  else
    let local_h :=
      if (i <? n - 1)%nat then proportional subtree.1 self_size h
      else h - y + ini_y in
    sub_treemap ← subtree.2 (x, y, w, local_h);
    let res := res ++ sub_treemap in
    let last :=
      if decide (sub_treemap = []) then last
      else (Some subtree, length sub_treemap, y) in
    if (i =? n - 1)%nat then
      let y := last.2 in
      let res := drop_last last.1.2 res in
      let local_h := h - y + ini_y in
      sub_treemap ← call_generate last.1.1 (x, y, w, local_h);
      let res := res ++ sub_treemap in
      Return (GtState x (y + local_h) res last)
    else
      Return (GtState x (y + local_h) res last).

Fixpoint gt_loop (self_size w h ini_x ini_y : Z) (n : nat)
    (subtrees : list gt_child) (i : nat) (st : gt_state) : result gt_state :=
  match subtrees with
  | [] => Return st
  | subtree :: rest =>
      st' ← gt_body self_size w h ini_x ini_y n i subtree st;
      gt_loop self_size w h ini_x ini_y n rest (S i) st'
  end.

Fixpoint generate_treemap (t : tree) (r : rect) : result treemap :=
  match t with
  | Node _ _ data_size colour subtrees =>
      if data_size =? 0 then Return []
      else if (length subtrees =? 0)%nat then Return [(r, colour)]
      else
        let '(x, y, w, h) := r in
        st ← gt_loop data_size w h x y (length subtrees)
               (map (fun s => (tree_size s, generate_treemap s)) subtrees)
               0%nat (GtState x y [] (None, 0%nat, 0));
        Return (gt_result st)
  end.

(** ** leaf_at *)

Definition pos : Type := Z * Z.

(** A subtree as the loop of [leaf_at] uses it: [data_size] and the bound
    [leaf_at] method. *)
Definition la_child : Type := Z * (pos -> rect -> result (option addr)).

(** [x], [y], [last_tree = (tree, x, y)] and [result]. *)
Record la_state : Type := LaState {
  la_x : Z;
  la_y : Z;
  la_last : option la_child * Z * Z;
  la_result : option addr
}.

Definition call_leaf_at (o : option la_child) (p : pos) (r : rect)
    : result (option addr) :=
  match o with
  | Some c => c.2 p r
  | None => Raise AttributeError
  end.

(** One iteration of the loop of [leaf_at], after the test [if result]. *)
Definition la_body (self_size w h ini_x ini_y : Z) (n i : nat) (p : pos)
    (subtree : la_child) (st : la_state) : result la_state :=
  let '(LaState x y last res) := st in
  if w >? h then
    let local_w := proportional subtree.1 self_size w in
    '(last, res) ←
      (if subtree.1 >? 0 then
         res ← subtree.2 p (x, y, local_w, h);
         Return ((Some subtree, x, y), res)
       else Return (last, res));
    if (i =? n - 1)%nat then
      let local_w := w - last.1.2 + ini_x in
      res ← call_leaf_at last.1.1 p (last.1.2, last.2, local_w, h);
      Return (LaState (x + local_w) y last res)
    else
      Return (LaState (x + local_w) y last res)
  else
    let local_h := proportional subtree.1 self_size h in
    '(last, res) ←
      (if subtree.1 >? 0 then
         res ← subtree.2 p (x, y, w, local_h);
         Return ((Some subtree, x, y), res)
       else Return (last, res));
    if (i =? n - 1)%nat then
      let local_h := h - last.2 + ini_y in
      res ← call_leaf_at last.1.1 p (last.1.2, last.2, w, local_h);
      Return (LaState x (y + local_h) last res)
    else
      Return (LaState x (y + local_h) last res).

Fixpoint la_loop (self_size w h ini_x ini_y : Z) (n : nat) (p : pos)
    (subtrees : list la_child) (i : nat) (st : la_state)
    : result (option addr) :=
  match subtrees with
  | [] => Return (la_result st)
  | subtree :: rest =>
      match la_result st with
      | Some leaf => Return (Some leaf)
      | None =>
          st' ← la_body self_size w h ini_x ini_y n i p subtree st;
          la_loop self_size w h ini_x ini_y n p rest (S i) st'
      end
  end.

Fixpoint leaf_at (t : tree) (p : pos) (r : rect) : result (option addr) :=
  match t with
  | Node self _ data_size _ subtrees =>
      let '(x, y, w, h) := r in
      if data_size =? 0 then Return None
      else if (length subtrees =? 0)%nat then
        if (x <=? p.1) && (p.1 <=? x + w) && (y <=? p.2) && (p.2 <=? y + h)
        then Return (Some self)
        else Return None
      else
        la_loop data_size w h x y (length subtrees) p
          (map (fun s => (tree_size s, leaf_at s)) subtrees)
          0%nat (LaState x y (None, 0, 0) None)
  end.

(** ** Objects and the heap *)

Record obj : Type := Obj {
  _root : option string;
  _subtrees : list addr;
  _parent_tree : option addr;
  data_size : Z;
  colour : colour_t
}.

#[global] Instance obj_eq_dec : EqDecision obj.
Proof. solve_decision. Defined.

Abbreviation heap := (gmap addr obj).

Definition set_root (v : option string) (o : obj) : obj :=
  Obj v (_subtrees o) (_parent_tree o) (data_size o) (colour o).
Definition set_parent_tree (v : option addr) (o : obj) : obj :=
  Obj (_root o) (_subtrees o) v (data_size o) (colour o).
Definition set_data_size (v : Z) (o : obj) : obj :=
  Obj (_root o) (_subtrees o) (_parent_tree o) v (colour o).
Definition add_data_size (d : Z) (o : obj) : obj :=
  set_data_size (data_size o + d) o.

(** A method call runs on a heap.  It returns normally or raises, and in both
    cases leaves a heap behind; [None] stands for a run that has no Python
    counterpart in the model: an address that is not allocated, or a
    recursion deeper than the fuel. *)
Definition M (A : Type) : Type := heap -> option (result A * heap).

#[global] Instance M_ret : MRet M := fun _ a h => Some (Return a, h).
#[global] Instance M_bind : MBind M := fun _ _ f m h =>
  match m h with
  | Some (Return a, h') => f a h'
  | Some (Raise e, h') => Some (Raise e, h')
  | None => None
  end.

Definition raise {A} (e : exn) : M A := fun h => Some (Raise e, h).
Definition stuck {A} : M A := fun _ => None.

(** Reading an object, and assigning to its attributes. *)
Definition load (a : addr) : M obj := fun h =>
  match h !! a with
  | Some o => Some (Return o, h)
  | None => None
  end.
Definition store (a : addr) (f : obj -> obj) : M unit := fun h =>
  match h !! a with
  | Some o => Some (Return tt, <[a := f o]> h)
  | None => None
  end.

(** ** __init__ *)

Fixpoint init_loop (self : addr) (subtrees : list addr) : M unit :=
  match subtrees with
  | [] => mret tt
  | subtree :: rest =>
      s ← load subtree;
      _ ← store self (add_data_size (data_size s));
      _ ← store subtree (set_parent_tree (Some self));
      init_loop self rest
  end.

(** [AbstractTree.__init__(self, root, subtrees, data_size)], with the colour
    that [randint] draws passed as [col]; [self] is the address of the object
    being initialised. *)
Definition __init__ (self : addr) (root : option string)
    (subtrees : list addr) (data_size : Z) (col : colour_t) : M unit :=
  fun h =>
    let h := <[self := Obj root subtrees None data_size col]> h in
    if decide (subtrees = []) then Some (Return tt, h)
    else init_loop self subtrees h.

(** ** is_empty *)

Definition is_empty (self : addr) : M bool :=
  o ← load self;
  mret (match _root o with Some _ => false | None => true end).

(** ** update_size *)

Fixpoint update_size (fuel : nat) (self : addr) (size_change : Z) : M unit :=
  match fuel with
  | O => stuck
  | S fuel =>
      _ ← store self (add_data_size size_change);
      o ← load self;
      match _parent_tree o with
      | Some parent => update_size fuel parent size_change
      | None => mret tt
      end
  end.

(** ** delete *)

Definition delete (fuel : nat) (self : addr) : M unit :=
  _ ← store self (set_root None);
  o ← load self;
  _ ← match _parent_tree o with
      | Some parent => update_size fuel parent (data_size o * -1)
      | None => raise AttributeError
      end;
  _ ← store self (set_parent_tree None);
  store self (set_data_size 0).

(** ** change_prop *)

Definition change_prop (fuel : nat) (self : addr) (proportion : Q) : M unit :=
  o ← load self;
  let size_change :=
    if Qle_bool 0 proportion then
      Qceiling (inject_Z (data_size o) * proportion)%Q
    else
      Qceiling (inject_Z (data_size o) * Qabs proportion)%Q * -1 in
  let size_change :=
    if data_size o + size_change <? 1 then data_size o - 1
    else size_change in
  update_size fuel self size_change.

(** ** The view of the tree below an object *)

Fixpoint view (fuel : nat) (h : heap) (a : addr) : option tree :=
  match fuel with
  | O => None
  | S fuel =>
      o ← h !! a;
      subtrees ← mapM (view fuel h) (_subtrees o);
      Some (Node a (_root o) (data_size o) (colour o) subtrees)
  end.

(** * The vocabulary of the properties *)

(** ** Parent chains and the change of size *)

(** The proper ancestors of an object, nearest first: its parent, the
    parent's parent, and so on up to the root. *)
Fixpoint ancestors (fuel : nat) (h : heap) (a : addr) : option (list addr) :=
  match fuel with
  | O => None
  | S fuel =>
      o ← h !! a;
      match _parent_tree o with
      | Some parent => l ← ancestors fuel h parent; Some (parent :: l)
      | None => Some []
      end
  end.

(** The change of size that [change_prop] hands to [update_size]. *)
Definition size_change_of (size : Z) (proportion : Q) : Z :=
  let size_change :=
    if Qle_bool 0 proportion then
      Qceiling (inject_Z size * proportion)%Q
    else
      Qceiling (inject_Z size * Qabs proportion)%Q * -1 in
  if size + size_change <? 1 then size - 1 else size_change.

(** ** Weight conservation, as a check that runs *)

(** The size of the object at an address. *)
Definition size_at (h : heap) (a : addr) : option Z := data_size <$> h !! a.

Definition children_sum (h : heap) (l : list addr) : option Z :=
  sizes ← mapM (fun c => data_size <$> h !! c) l;
  Some (foldr Z.add 0 sizes).

(** An object with subtrees has the sum of their sizes as its size. *)
Definition conserved_at (h : heap) (o : obj) : bool :=
  match _subtrees o with
  | [] => true
  | l => bool_decide (children_sum h l = Some (data_size o))
  end.

Definition weight_conserved (h : heap) : bool :=
  forallb (fun ao => conserved_at h ao.2) (map_to_list h).

(** ** Parent and child references that agree *)

(** What [delete] leaves of a leaf: no label, no subtree, no parent. *)
Definition emptied (o : obj) : bool :=
  bool_decide (_root o = None) && bool_decide (_subtrees o = [])
  && bool_decide (_parent_tree o = None).

(** The object [ob] at address [b] lists no subtree twice; each of its
    subtrees is allocated and either names [b] as its parent or is an emptied
    leaf; and its own parent, if any, lists it. *)
Definition coherent_at (h : heap) (b : addr) (ob : obj) : bool :=
  bool_decide (NoDup (_subtrees ob))
  && forallb (fun c =>
       match h !! c with
       | Some oc => bool_decide (_parent_tree oc = Some b) || emptied oc
       | None => false
       end) (_subtrees ob)
  && match _parent_tree ob with
     | None => true
     | Some p =>
         match h !! p with
         | Some op => bool_decide (b ∈ _subtrees op)
         | None => false
         end
     end.

Definition coherent (h : heap) : bool :=
  forallb (fun bo => coherent_at h bo.1 bo.2) (map_to_list h).

(** ** Sequences of mutations *)

Inductive mutation : Type :=
| Delete (a : addr)
| ChangeProp (a : addr) (proportion : Q).

Definition target (m : mutation) : addr :=
  match m with
  | Delete a => a
  | ChangeProp a _ => a
  end.

Definition mutate (fuel : nat) (m : mutation) : M unit :=
  match m with
  | Delete a => delete fuel a
  | ChangeProp a proportion => change_prop fuel a proportion
  end.

(** A leaf that still has its label. *)
Definition labelled_leaf (h : heap) (a : addr) : bool :=
  match h !! a with
  | Some o => bool_decide (is_Some (_root o)) && bool_decide (_subtrees o = [])
  | None => false
  end.

(** The mutations one after the other, each on a leaf that has its label at
    that time; a caller that catches the exception of a [delete] goes on with
    the heap that the call left.  [None] when a target is not such a leaf, or
    when a call does not return within its fuel. *)
Fixpoint mutate_all (fuel : nat) (ms : list mutation) (h : heap)
    : option heap :=
  match ms with
  | [] => Some h
  | m :: ms' =>
      if labelled_leaf h (target m) then
        match mutate fuel m h with
        | Some (_, h') => mutate_all fuel ms' h'
        | None => None
        end
      else None
  end.

(** From every object the parent chain reaches a root within [fuel] steps. *)
Definition rooted (fuel : nat) (h : heap) : bool :=
  forallb (fun bo => bool_decide (is_Some (ancestors fuel h bo.1)))
    (map_to_list h).

(** ** What [delete] is asked to reject *)

(** [delete] is called against its precondition: the label is already
    absent, or the node has children, or it has no parent. *)
Definition violates_delete_precondition (o : obj) : bool :=
  bool_decide (_root o = None) || negb (bool_decide (_subtrees o = []))
  || bool_decide (_parent_tree o = None).

(** The call raised and left the heap as it found it. *)
Definition rejected_unchanged {A} (h : heap) (r : option (result A * heap))
    : bool :=
  match r with
  | Some (Raise _, h') => bool_decide (h' = h)
  | _ => false
  end.

(** ** Well-formed trees *)

Definition sum_sizes (l : list tree) : Z := foldr (fun t acc => tree_size t + acc) 0 l.

(** Sizes are not negative, and a node with subtrees has the sum of their
    sizes as its size. *)
Fixpoint well_formed (t : tree) : bool :=
  match t with
  | Node _ _ data_size _ subtrees =>
      (0 <=? data_size)
      && match subtrees with
         | [] => true
         | _ => data_size =? sum_sizes subtrees
         end
      && forallb well_formed subtrees
  end.

(** The leaves of strictly positive size, in depth-first order, each with its
    colour. *)
Fixpoint positive_leaves (t : tree) : list (addr * colour_t) :=
  match t with
  | Node self _ data_size colour subtrees =>
      match subtrees with
      | [] => if 0 <? data_size then [(self, colour)] else []
      | _ => flat_map positive_leaves subtrees
      end
  end.

(** ** Reading a treemap *)

(** The pixel [p] belongs to the rectangle [(x, y, w, h)]: the pixels of
    columns [x .. x + w - 1] and rows [y .. y + h - 1], as a drawing surface
    fills them. *)
Definition inside (p : pos) (r : rect) : bool :=
  let '(x, y, w, h) := r in
  (x <=? p.1) && (p.1 <? x + w) && (y <=? p.2) && (p.2 <? y + h).

Definition ind (p : pos) (r : rect) : nat := if inside p r then 1%nat else 0%nat.

(** The number of rectangles of a treemap that hold the pixel [p]. *)
Fixpoint cover (p : pos) (tm : treemap) : nat :=
  match tm with
  | [] => 0%nat
  | rc :: tm' => (ind p rc.1 + cover p tm')%nat
  end.

(** The rectangles [l] tile [r]: a pixel is in [r] exactly when it is in one
    of them, and no pixel is in two of them. *)
Definition tiles (r : rect) (l : list rect) : Prop :=
  (forall p, inside p r = true <-> exists r', r' ∈ l /\ inside p r' = true) /\
  (forall i j ri rj p, i ≠ j -> l !! i = Some ri -> l !! j = Some rj ->
     inside p ri = true -> inside p rj = false).

(** The rectangle test of [leaf_at]: both edges included. *)
Definition within (p : pos) (r : rect) : bool :=
  let '(x, y, w, h) := r in
  (x <=? p.1) && (p.1 <=? x + w) && (y <=? p.2) && (p.2 <=? y + h).

(** The colours of the rectangles of a treemap that [leaf_at]'s own test
    finds around [p]. *)
Definition drawn_at (p : pos) (tm : treemap) : list colour_t :=
  map snd (List.filter (fun rc => within p rc.1) tm).

(** ** Comparing [leaf_at] with the treemap *)

(** The first leaf, in drawing order, whose rectangle holds [p] by
    [leaf_at]'s test; [leaves] and [tm] are read side by side. *)
Fixpoint first_hit (p : pos) (leaves : list (addr * colour_t)) (tm : treemap)
    : option addr :=
  match leaves, tm with
  | (a, _) :: leaves', (r, _) :: tm' =>
      if within p r then Some a else first_hit p leaves' tm'
  | _, _ => None
  end.

(** No node of positive size ends with a subtree of size 0, so that
    [last_tree] is never needed to stretch an earlier subtree. *)
Fixpoint stretch_free (t : tree) : bool :=
  match t with
  | Node _ _ data_size _ subtrees =>
      (data_size =? 0)
      || (match last subtrees with
          | None => true
          | Some l => 0 <? tree_size l
          end
          && forallb stretch_free subtrees)
  end.

(** * The invariants of the loops *)

(** ** What the loop of [generate_treemap] maintains *)

Definition sum_kids (l : list gt_child) : Z := foldr (fun c acc => c.1 + acc) 0 l.

(** A subtree behaves: its size is not negative; in any rectangle its
    [generate_treemap] returns rectangles with the colours [cols], none
    exactly when its size is 0; and when its size is positive they hold every
    pixel of the rectangle once and no other pixel. *)
Definition kid_ok (c : gt_child) (cols : list colour_t) : Prop :=
  0 <= c.1 /\ (c.1 = 0 <-> cols = []) /\
  forall r, exists tm, c.2 r = Return tm /\ map snd tm = cols /\
    forall p, 0 < c.1 -> cover p tm = ind p r.

(** The loop invariant when the strips vary in width ([w > h]), after
    subtrees of total size [dsz] and colours [dcols]: [result] is [pre ++ out]
    where [out] is what the last non-empty subtree returned for the strip
    from [last_tree[2]] to [x], and [pre] fills the strips before it. *)
Definition inv_v (s w h ini_x y0 : Z) (dsz : Z) (dcols : list colour_t)
    (st : gt_state) : Prop :=
  gt_y st = y0 /\ map snd (gt_result st) = dcols /\ 0 <= dsz /\
  match (gt_last st).1.1 with
  | None => gt_result st = [] /\ gt_x st = ini_x /\ dsz = 0
  | Some cl =>
      exists pre out cols_l,
        gt_result st = pre ++ out /\ (gt_last st).1.2 = length out /\
        kid_ok cl cols_l /\ 0 < cl.1 /\ map snd out = cols_l /\
        (forall p, cover p pre = ind p (ini_x, y0, (gt_last st).2 - ini_x, h)) /\
        (forall p, cover p out
                   = ind p ((gt_last st).2, y0, gt_x st - (gt_last st).2, h)) /\
        (0 <= h -> ini_x <= (gt_last st).2 <= gt_x st /\
                   (gt_x st - ini_x) * s <= w * dsz)
  end.

(** The same when the strips vary in height ([w <= h]). *)
Definition inv_h (s w h x0 ini_y : Z) (dsz : Z) (dcols : list colour_t)
    (st : gt_state) : Prop :=
  gt_x st = x0 /\ map snd (gt_result st) = dcols /\ 0 <= dsz /\
  match (gt_last st).1.1 with
  | None => gt_result st = [] /\ gt_y st = ini_y /\ dsz = 0
  | Some cl =>
      exists pre out cols_l,
        gt_result st = pre ++ out /\ (gt_last st).1.2 = length out /\
        kid_ok cl cols_l /\ 0 < cl.1 /\ map snd out = cols_l /\
        (forall p, cover p pre = ind p (x0, ini_y, w, (gt_last st).2 - ini_y)) /\
        (forall p, cover p out
                   = ind p (x0, (gt_last st).2, w, gt_y st - (gt_last st).2)) /\
        (0 <= w -> ini_y <= (gt_last st).2 <= gt_y st /\
                   (gt_y st - ini_y) * s <= h * dsz)
  end.

(** ** What the loop of [leaf_at] maintains *)

Definition sum_la_kids (l : list la_child) : Z := foldr (fun c acc => c.1 + acc) 0 l.

(** A subtree behaves for [leaf_at]: its size is not negative; its [leaf_at]
    returns without raising; the answer is absent for a point that the
    rectangle test leaves out, and otherwise absent or one of [leaves]. *)
Definition la_kid_ok (c : la_child) (leaves : list addr) : Prop :=
  0 <= c.1 /\
  forall p r, exists res, c.2 p r = Return res /\
    (within p r = false -> res = None) /\
    (forall a, res = Some a -> a ∈ leaves).

(** The loop invariant of [leaf_at] when the strips vary in width, before an
    iteration that runs: no leaf found yet; [x] has advanced by the extents
    of the subtrees seen, of total size [dsz]; [last_tree] is absent when
    they were all empty, and otherwise a subtree whose leaves are among
    [all] and that was placed between the left edge and [x]. *)
Definition la_inv_v (s w h ini_x y0 : Z) (all : list addr) (dsz : Z)
    (st : la_state) : Prop :=
  la_y st = y0 /\ la_result st = None /\ 0 <= dsz /\
  (0 <= h -> ini_x <= la_x st /\ (la_x st - ini_x) * s <= w * dsz) /\
  match (la_last st).1.1 with
  | None => dsz = 0
  | Some cl =>
      exists leaves, la_kid_ok cl leaves /\ leaves ⊆ all /\
        (la_last st).2 = y0 /\
        (0 <= h -> ini_x <= (la_last st).1.2 <= la_x st)
  end.

(** The same when the strips vary in height. *)
Definition la_inv_h (s w h x0 ini_y : Z) (all : list addr) (dsz : Z)
    (st : la_state) : Prop :=
  la_x st = x0 /\ la_result st = None /\ 0 <= dsz /\
  (0 <= w -> ini_y <= la_y st /\ (la_y st - ini_y) * s <= h * dsz) /\
  match (la_last st).1.1 with
  | None => dsz = 0
  | Some cl =>
      exists leaves, la_kid_ok cl leaves /\ leaves ⊆ all /\
        (la_last st).1.2 = x0 /\
        (0 <= w -> ini_y <= (la_last st).2 <= la_y st)
  end.

(** What an iteration of [leaf_at]'s loop leaves: either the invariant again,
    or a leaf among [all], found at a point inside the rectangle. *)
Definition la_step_post_v (s w h ini_x y0 : Z) (all : list addr) (dsz : Z)
    (p : pos) (st' : la_state) : Prop :=
  la_inv_v s w h ini_x y0 all dsz st' \/
  exists a, la_result st' = Some a /\ a ∈ all /\
    within p (ini_x, y0, w, h) = true.

Definition la_step_post_h (s w h x0 ini_y : Z) (all : list addr) (dsz : Z)
    (p : pos) (st' : la_state) : Prop :=
  la_inv_h s w h x0 ini_y all dsz st' \/
  exists a, la_result st' = Some a /\ a ∈ all /\
    within p (x0, ini_y, w, h) = true.

(** ** Both loops together *)

(** The subtrees as the two loops see them. *)
Definition gt_kids (ts : list tree) : list gt_child :=
  map (fun s => (tree_size s, generate_treemap s)) ts.
Definition la_kids (ts : list tree) : list la_child :=
  map (fun s => (tree_size s, leaf_at s)) ts.

(** On a subtree, [leaf_at] answers what the rectangles of
    [generate_treemap] say. *)
Definition joint_ok (t : tree) : Prop :=
  0 <= tree_size t /\
  (tree_size t = 0 <-> positive_leaves t = []) /\
  forall r, exists tm, generate_treemap t r = Return tm /\
    length tm = length (positive_leaves t) /\
    forall p, leaf_at t p r = Return (first_hit p (positive_leaves t) tm).

(** * Example trees *)

(** ** Heaps *)

Definition grey : colour_t := (128, 128, 128).

(** A root "r" at address 3 with the leaves "a" (size 10) at 1 and "b"
    (size 20) at 2. *)
Definition family : heap :=
  list_to_map
    [(1%nat, Obj (Some "a"%string) [] (Some 3%nat) 10 grey);
     (2%nat, Obj (Some "b"%string) [] (Some 3%nat) 20 grey);
     (3%nat, Obj (Some "r"%string) [1%nat; 2%nat] None 30 grey)].

(** A leaf of size 100 at address 1 below a root at address 2. *)
Definition hundred : heap :=
  list_to_map
    [(1%nat, Obj (Some "leaf"%string) [] (Some 2%nat) 100 grey);
     (2%nat, Obj (Some "r"%string) [1%nat] None 100 grey)].

(** A leaf of size 3 at address 1 below a root at address 2. *)
Definition three : heap :=
  list_to_map
    [(1%nat, Obj (Some "leaf"%string) [] (Some 2%nat) 3 grey);
     (2%nat, Obj (Some "r"%string) [1%nat] None 3 grey)].

(** A root at 3 with the leaves "a" (size 10) at 1 and "z" (size 0, such as
    an empty file) at 2. *)
Definition with_zero : heap :=
  list_to_map
    [(1%nat, Obj (Some "a"%string) [] (Some 3%nat) 10 grey);
     (2%nat, Obj (Some "z"%string) [] (Some 3%nat) 0 grey);
     (3%nat, Obj (Some "r"%string) [1%nat; 2%nat] None 10 grey)].

(** A root at 3 with the leaf "a" (size 10) at 1 and an empty tree, which
    has no label, at 2: what [AbstractTree('r', [AbstractTree('a', [], 10),
    AbstractTree(None, [])])] builds. *)
Definition with_absent : heap :=
  list_to_map
    [(1%nat, Obj (Some "a"%string) [] (Some 3%nat) 10 grey);
     (2%nat, Obj None [] (Some 3%nat) 0 grey);
     (3%nat, Obj (Some "r"%string) [1%nat; 2%nat] None 10 grey)].

(** A root at 3 over a folder at 2 over a leaf of size 5 at 1. *)
Definition nested : heap :=
  list_to_map
    [(1%nat, Obj (Some "leaf"%string) [] (Some 2%nat) 5 grey);
     (2%nat, Obj (Some "dir"%string) [1%nat] (Some 3%nat) 5 grey);
     (3%nat, Obj (Some "r"%string) [2%nat] None 5 grey)].

(** [family] after [delete] on the leaf at 2 and [change_prop 0.5] on the
    leaf at 1. *)
Definition family_later : heap :=
  list_to_map
    [(1%nat, Obj (Some "a"%string) [] (Some 3%nat) 15 grey);
     (2%nat, Obj None [] None 0 grey);
     (3%nat, Obj (Some "r"%string) [1%nat; 2%nat] None 15 grey)].

(** ** Trees for the layout *)

(** Built by [__init__] and one [delete]: a root at address 6 over the leaf
    "c" (size 10), the folder "j" with the leaves "a" and "b" (size 5 each),
    and the emptied leaf at address 5, the last subtree of the root. *)
Definition stretched : heap :=
  list_to_map
    [(1%nat, Obj (Some "c"%string) [] (Some 6%nat) 10 (1, 1, 1));
     (2%nat, Obj (Some "a"%string) [] (Some 4%nat) 5 (2, 2, 2));
     (3%nat, Obj (Some "b"%string) [] (Some 4%nat) 5 (3, 3, 3));
     (4%nat, Obj (Some "j"%string) [2%nat; 3%nat] (Some 6%nat) 10 (4, 4, 4));
     (5%nat, Obj None [] None 0 (5, 5, 5));
     (6%nat, Obj (Some "r"%string) [1%nat; 4%nat; 5%nat] None 20 (6, 6, 6))].

Definition stretched_tree : tree :=
  Node 6%nat (Some "r"%string) 20 (6, 6, 6)
    [Node 1%nat (Some "c"%string) 10 (1, 1, 1) [];
     Node 4%nat (Some "j"%string) 10 (4, 4, 4)
       [Node 2%nat (Some "a"%string) 5 (2, 2, 2) [];
        Node 3%nat (Some "b"%string) 5 (3, 3, 3) []];
     Node 5%nat None 0 (5, 5, 5) []].

(** The view of [family] from its root. *)
Definition family_tree : tree :=
  Node 3%nat (Some "r"%string) 30 grey
    [Node 1%nat (Some "a"%string) 10 grey [];
     Node 2%nat (Some "b"%string) 20 grey []].

(** A single leaf of size 0, such as an empty file. *)
Definition empty_file : tree := Node 1%nat (Some "f"%string) 0 grey [].

(** * The representation invariants of the class *)

(** The invariants that the docstring of [AbstractTree] lists, as a check on
    a heap.  The one on colours is left out: no method changes a colour. *)

(** [data_size >= 0]. *)
Definition sizes_nonneg (h : heap) : bool :=
  forallb (fun ao => 0 <=? data_size ao.2) (map_to_list h).

(** If [_root] is [None], then [_subtrees] is empty, [_parent_tree] is [None]
    and [data_size] is 0. *)
Definition empty_at (o : obj) : bool :=
  match _root o with
  | Some _ => true
  | None => emptied o && (data_size o =? 0)
  end.

Definition empty_is_zero (h : heap) : bool :=
  forallb (fun ao => empty_at ao.2) (map_to_list h).

(** All of them: sizes are not negative; a node with subtrees has the sum of
    their sizes ([weight_conserved]); an empty tree has no subtrees, no parent
    and size 0; a parent lists its child ([coherent], which also asks that a
    listed child names its parent unless it was emptied). *)
Definition representation_invariants (h : heap) : bool :=
  sizes_nonneg h && weight_conserved h && empty_is_zero h && coherent h.

(** * The methods of the layout on a heap *)

(** [self.generate_treemap(rect)] and [self.leaf_at(pos, rect)] for the object
    at address [self]: the two methods read the objects below [self] and
    leave the heap as it is. *)
Definition generate_treemap_at (fuel : nat) (self : addr) (r : rect)
    : M treemap := fun h =>
  t ← view fuel h self;
  Some (generate_treemap t r, h).

Definition leaf_at_at (fuel : nat) (self : addr) (p : pos) (r : rect)
    : M (option addr) := fun h =>
  t ← view fuel h self;
  Some (leaf_at t p r, h).

(** * The subclasses and the visualiser *)

(** ** Exceptions and outcomes *)

(** The exceptions of the code below: the ones of the methods above, the
    two that [get_separator] and the captions can raise, the one of a
    [dict] without the key asked for, and the two of the conversions between
    [int] and [float]. *)
Inductive exception : Type :=
| Exn (e : exn)
| TypeError
| NotImplementedError
| KeyError
| OverflowError
| ValueError.

Inductive outcome (A : Type) : Type :=
| Done (a : A)
| Fails (e : exception).

Arguments Done {A} a.
Arguments Fails {A} e.

#[global] Instance outcome_ret : MRet outcome := fun _ a => Done a.
#[global] Instance outcome_bind : MBind outcome := fun _ _ f m =>
  match m with
  | Done a => f a
  | Fails e => Fails e
  end.

(** A run on a heap that ends with an outcome; [None] as for [M]. *)
Definition IO (A : Type) : Type := heap -> option (outcome A * heap).

#[global] Instance IO_ret : MRet IO := fun _ a h => Some (Done a, h).
#[global] Instance IO_bind : MBind IO := fun _ _ f m h =>
  match m h with
  | Some (Done a, h') => f a h'
  | Some (Fails e, h') => Some (Fails e, h')
  | None => None
  end.

Definition throw {A} (e : exception) : IO A := fun h => Some (Fails e, h).

(** A step that touches no object. *)
Definition ended {A} (o : outcome A) : IO A := fun h => Some (o, h).

(** A call of one of the methods above. *)
Definition call {A} (m : M A) : IO A := fun h =>
  match m h with
  | Some (Return a, h') => Some (Done a, h')
  | Some (Raise e, h') => Some (Fails (Exn e), h')
  | None => None
  end.

(** ** get_separator *)

(** The class of the objects of a tree; the constructors of a subclass build
    their subtrees in the same subclass. *)
Inductive tree_class : Type :=
| AbstractTree
| FileSystemTree
| PopulationTree.

(** [parent.get_separator() <joined with> self._root]: both overriding
    methods have this shape, and both joins raise [TypeError] on an operand
    that is [None]. *)
Fixpoint get_separator_with (join : string -> string -> string) (fuel : nat)
    (self : addr) : IO (option string) :=
  match fuel with
  | O => fun _ => None
  | S fuel =>
      o ← call (load self);
      match _parent_tree o with
      | None => mret (_root o)
      | Some parent =>
          up ← get_separator_with join fuel parent;
          match up, _root o with
          | Some a, Some b => mret (Some (join a b))
          | _, _ => throw TypeError
          end
      end
  end.

(** The labels on the way from the root of the tree down to [a]. *)
Definition path_labels (fuel : nat) (h : heap) (a : addr)
    : option (list string) :=
  anc ← ancestors fuel h a;
  mapM (fun b => o ← h !! b; _root o) (reverse (a :: anc)).

(** [a + ' -- ' + b]. *)
Definition dashes (a b : string) : string := (a +:+ " -- ") +:+ b.

Section Separator.
(** [os.path.join] on two strings. *)
Variable os_path_join : string -> string -> string.

Definition get_separator (cls : tree_class) (fuel : nat) (self : addr)
    : IO (option string) :=
  match cls with
  | AbstractTree => throw NotImplementedError
  | FileSystemTree => get_separator_with os_path_join fuel self
  | PopulationTree => get_separator_with dashes fuel self
  end.

(** ** The visualiser *)

Definition ORIGIN : pos := (0, 0).
Definition WIDTH : Z := 1024.
Definition HEIGHT : Z := 768.
Definition FONT_HEIGHT : Z := 30.
Definition TREEMAP_HEIGHT : Z := HEIGHT - FONT_HEIGHT.

(** What [render_display] puts on the screen: the rectangles it fills, in
    order, and the text below them. *)
Definition frame : Type := treemap * string.

Definition render_display (fuel : nat) (tree : addr) (text : string)
    : IO frame :=
  treemap ← call (generate_treemap_at fuel tree (0, 0, WIDTH, TREEMAP_HEIGHT));
  mret (treemap, text).

(** [leaf.get_separator() + " | Size: " + str(leaf.data_size)]. *)
Definition caption (cls : tree_class) (fuel : nat) (leaf : addr) : IO string :=
  sep ← get_separator cls fuel leaf;
  match sep with
  | Some s =>
      o ← call (load leaf);
      mret ((s +:+ " | Size: ") +:+ pretty (data_size o))
  | None => throw TypeError
  end.

(** What one turn of the loop reads from pygame: the event polled, whether
    the delete key is held down, and where the mouse is. *)
Inductive key : Type := K_ESCAPE | K_UP | K_DOWN | K_other.

#[global] Instance key_eq_dec : EqDecision key.
Proof. solve_decision. Defined.

Inductive event : Type :=
| QUIT
| KEYUP (k : key)
| MOUSEBUTTONUP (button : Z) (p : pos)
| other_event.

Record polled : Type := Polled {
  polled_event : event;
  pressed_K_DELETE : bool;
  mouse_get_pos : pos
}.

(** The turn ends the loop ([return]) or not. *)
Inductive control : Type := Goes_on | Returns.

(** The local variable [selected_leaf] after a turn, and the frame rendered
    in the turn, if any. *)
Definition turn : Type := control * option addr * option frame.

(** Left click: select the leaf under the mouse, or deselect. *)
Definition select_leaf (cls : tree_class) (fuel : nat) (tree : addr)
    (p : pos) (selected_leaf : option addr) : IO turn :=
  new_leaf ← call (leaf_at_at fuel tree p (0, 0, WIDTH, TREEMAP_HEIGHT));
  if decide (selected_leaf = new_leaf) then
    f ← render_display fuel tree "";
    mret (Goes_on, None, Some f)
  else
    match new_leaf with
    | Some leaf =>
        text ← caption cls fuel leaf;
        f ← render_display fuel tree text;
        mret (Goes_on, Some leaf, Some f)
    | None => mret (Goes_on, selected_leaf, None)
    end.

(** Right click, or the delete key: delete the leaf under the mouse. *)
Definition delete_leaf_under (cls : tree_class) (fuel : nat) (tree : addr)
    (p : pos) (selected_leaf : option addr) : IO turn :=
  new_leaf ← call (leaf_at_at fuel tree p (0, 0, WIDTH, TREEMAP_HEIGHT));
  let selected_leaf :=
    if bool_decide (selected_leaf = new_leaf) && bool_decide (is_Some new_leaf)
    then None else selected_leaf in
  _ ← match new_leaf with
      | Some leaf => call (delete fuel leaf)
      | None => mret tt
      end;
  text ← match selected_leaf with
         | Some leaf => caption cls fuel leaf
         | None => mret ""%string
         end;
  f ← render_display fuel tree text;
  mret (Goes_on, selected_leaf, Some f).

(** Up and down keys, scroll up and down: resize the selected leaf by
    [change * sign], with [change = 0.01]. *)
Definition resize_selected (cls : tree_class) (fuel : nat) (tree : addr)
    (sign : Z) (selected_leaf : option addr) : IO turn :=
  match selected_leaf with
  | Some leaf =>
      _ ← call (change_prop fuel leaf ((1 # 100) * inject_Z sign)%Q);
      text ← caption cls fuel leaf;
      f ← render_display fuel tree text;
      mret (Goes_on, selected_leaf, Some f)
  | None => mret (Goes_on, selected_leaf, None)
  end.

Definition int_of_bool (b : bool) : Z := if b then 1 else 0.

(** The body of [while True] in [event_loop]: the chain of [if] and [elif]
    on the event polled, in its order. *)
Definition event_loop_body (cls : tree_class) (fuel : nat) (tree : addr)
    (inp : polled) (selected_leaf : option addr) : IO turn :=
  match polled_event inp with
  | QUIT => mret (Returns, selected_leaf, None)
  | KEYUP K_ESCAPE => mret (Returns, selected_leaf, None)
  | MOUSEBUTTONUP button p =>
      if button =? 1 then select_leaf cls fuel tree p selected_leaf
      else if button =? 3 then delete_leaf_under cls fuel tree p selected_leaf
      else if pressed_K_DELETE inp then
        delete_leaf_under cls fuel tree (mouse_get_pos inp) selected_leaf
      else
        let sign :=
          1 * int_of_bool (button =? 4) - 1 * int_of_bool (button =? 5) in
        resize_selected cls fuel tree sign selected_leaf
  | KEYUP k =>
      if pressed_K_DELETE inp then
        delete_leaf_under cls fuel tree (mouse_get_pos inp) selected_leaf
      else
        let sign :=
          1 * int_of_bool (bool_decide (k = K_UP))
          - 1 * int_of_bool (bool_decide (k = K_DOWN)) in
        resize_selected cls fuel tree sign selected_leaf
  | other_event =>
      if pressed_K_DELETE inp then
        delete_leaf_under cls fuel tree (mouse_get_pos inp) selected_leaf
      else mret (Goes_on, selected_leaf, None)
  end.

(** The loop, on the events that [pygame.event.poll()] hands out one after
    the other; it ends at a [return], or waits when they are used up.  The
    result is [selected_leaf] at that time and the frames rendered. *)
Fixpoint event_loop_from (cls : tree_class) (fuel : nat) (tree : addr)
    (inputs : list polled) (selected_leaf : option addr)
    : IO (option addr * list frame) :=
  match inputs with
  | [] => mret (selected_leaf, [])
  | inp :: rest =>
      '(c, selected_leaf, f) ← event_loop_body cls fuel tree inp selected_leaf;
      match c with
      | Returns => mret (selected_leaf, option_list f)
      | Goes_on =>
          '(s, fs) ← event_loop_from cls fuel tree rest selected_leaf;
          mret (s, option_list f ++ fs)
      end
  end.

Definition event_loop (cls : tree_class) (fuel : nat) (tree : addr)
    (inputs : list polled) : IO (option addr * list frame) :=
  event_loop_from cls fuel tree inputs None.

(** [run_visualisation]: the initial display, then the loop. *)
Definition run_visualisation (cls : tree_class) (fuel : nat) (tree : addr)
    (inputs : list polled) : IO (list frame) :=
  f ← render_display fuel tree "";
  '(_, fs) ← event_loop cls fuel tree inputs;
  mret (f :: fs).
End Separator.

(** What the turns of the loop keep: the representation invariants; parent
    chains that reach a root; a tree to display that is not a single leaf of
    positive size; and a selected leaf, if any, that is a leaf of size at
    least 1. *)
Definition ui_ok (fuel : nat) (h : heap) (tree : addr)
    (selected_leaf : option addr) : Prop :=
  representation_invariants h = true /\ rooted fuel h = true /\
  (exists o, h !! tree = Some o /\ (_subtrees o = [] -> data_size o = 0)) /\
  (forall a, selected_leaf = Some a ->
     exists oa, h !! a = Some oa /\ _subtrees oa = [] /\ 1 <= data_size oa).

(** A frame shows nothing, or rectangles that tile the area of the
    treemap. *)
Definition tiled (f : frame) : Prop :=
  f.1 = [] \/ tiles (0, 0, WIDTH, TREEMAP_HEIGHT) (map fst f.1).

(** * Building trees *)

(** A constructor call: the address of the new object, chosen when
    [AbstractTree.__init__] stores its attributes, is one that holds no
    object. *)
Definition alloc : M addr := fun h => Some (Return (fresh (dom h)), h).

(** The subtrees handed to [__init__] are fit: distinct objects, each with a
    label and without a parent. *)
Definition fit_subtree (h : heap) (c : addr) : bool :=
  match h !! c with
  | Some oc =>
      bool_decide (_parent_tree oc = None) && bool_decide (is_Some (_root oc))
  | None => false
  end.

Definition fit_subtrees (h : heap) (subtrees : list addr) : bool :=
  bool_decide (NoDup subtrees) && forallb (fit_subtree h) subtrees.

(** What constructor calls that started in [h] leave in [h']: the objects of
    [h] as they were; the invariants; and new objects whose parent chains
    reach a root within [fuel]. *)
Definition grown (fuel : nat) (h h' : heap) : Prop :=
  (forall b ob, h !! b = Some ob -> h' !! b = Some ob) /\
  representation_invariants h' = true /\
  (forall b, h !! b = None -> is_Some (h' !! b) ->
     is_Some (ancestors fuel h' b)).

(** ** FileSystemTree *)

Section FileSystem.
(** What [os.path.isdir], [os.listdir], [os.path.getsize],
    [os.path.basename] and [os.path.join] answer, for a file system that
    stays as it is while the tree is built. *)
Variable isdir : string -> bool.
Variable listdir : string -> list string.
Variable getsize : string -> Z.
Variable basename : string -> string.
Variable os_path_join : string -> string -> string.
(** The colour that the calls of [randint] give to the object at an
    address. *)
Variable randcolour : addr -> colour_t.

(** [FileSystemTree(path)]: the constructor call, which returns the new
    object.  The fuel bounds the depth of the folders. *)
Fixpoint FileSystemTree_init (fuel : nat) (path : string) : M addr :=
  match fuel with
  | O => stuck
  | S fuel =>
      if isdir path then
        let entries := listdir path in
        tree_list ←
          mapM (fun entry =>
                  FileSystemTree_init fuel (os_path_join path entry)) entries;
        self ← alloc;
        _ ← __init__ self (Some (basename path)) tree_list 0 (randcolour self);
        mret self
      else
        self ← alloc;
        _ ← __init__ self (Some (basename path)) [] (getsize path)
              (randcolour self);
        mret self
  end.

(** The file system below [path] is at most [fuel] levels deep, and no file
    has a negative size. *)
Fixpoint fs_ok (fuel : nat) (path : string) : bool :=
  match fuel with
  | O => false
  | S fuel =>
      if isdir path then
        forallb (fun entry => fs_ok fuel (os_path_join path entry))
          (listdir path)
      else 0 <=? getsize path
  end.

(** The sizes of the files below [path], added up. *)
Fixpoint disk_usage (fuel : nat) (path : string) : Z :=
  match fuel with
  | O => 0
  | S fuel =>
      if isdir path then
        foldr Z.add 0
          (map (fun entry => disk_usage fuel (os_path_join path entry))
             (listdir path))
      else getsize path
  end.

(** What the constructor call for [path] that started in [h] leaves in
    [h']: a heap grown from [h], with the new object [a], which has the name
    of [path] as its label, no parent, a subtree for each entry of a folder,
    and the sizes of the files below [path] as its size. *)
Definition built_by (fuel : nat) (path : string) (h h' : heap) (a : addr)
    : Prop :=
  grown fuel h h' /\ h !! a = None /\
  exists kids,
    h' !! a = Some (Obj (Some (basename path)) kids None
                      (disk_usage fuel path) (randcolour a)) /\
    length kids = if isdir path then length (listdir path) else 0%nat.
End FileSystem.

(** ** A small file system *)

(** The folder "d" with the files "a" (10 bytes) and "b" (20 bytes). *)
Definition slash_join (a b : string) : string := (a +:+ "/") +:+ b.
Definition d_isdir (p : string) : bool := String.eqb p "d".
Definition d_listdir (p : string) : list string :=
  if String.eqb p "d" then ["a"; "b"]%string else [].
Definition d_getsize (p : string) : Z :=
  if String.eqb p "d/a" then 10 else if String.eqb p "d/b" then 20 else 0.
Definition d_basename (p : string) : string :=
  if String.eqb p "d/a" then "a" else if String.eqb p "d/b" then "b" else p.

(** * population.py *)

(** ** Dictionaries *)

(** A [dict] with [str] keys: the keys in the order of their insertion, each
    once. *)
Definition dict (V : Type) : Type := list (string * V).

(** [d.get(k)]: the value at [k], if [k in d]. *)
Fixpoint dict_get {V} (d : dict V) (k : string) : option V :=
  match d with
  | [] => None
  | (k', v) :: d' => if String.eqb k' k then Some v else dict_get d' k
  end.

(** [d[k] = v]: a key that is there keeps its place. *)
Fixpoint dict_set {V} (d : dict V) (k : string) (v : V) : dict V :=
  match d with
  | [] => [(k, v)]
  | (k', v') :: d' =>
      if String.eqb k' k then (k', v) :: d' else (k', v') :: dict_set d' k v
  end.

(** [d.pop(k)]: [None] stands for the [KeyError] of a key that is not
    there. *)
Fixpoint dict_pop {V} (d : dict V) (k : string) : option (dict V) :=
  match d with
  | [] => None
  | (k', v') :: d' =>
      if String.eqb k' k then Some d'
      else d'' ← dict_pop d' k; Some ((k', v') :: d'')
  end.

(** ** The data of the World Bank *)

(** An item of the list of countries, as [_get_region_data] reads it:
    [item['region']['value']] and [item['name']]. *)
Record region_item : Type := RegionItem {
  item_region : string;
  item_name : string
}.

(** The loop of [_get_region_data]. *)
Fixpoint region_loop (country_data : list region_item)
    (regions : dict (list string)) : dict (list string) :=
  match country_data with
  | [] => regions
  | item :: rest =>
      let region := item_region item in
      let regions :=
        match dict_get regions region with
        | Some names => dict_set regions region (names ++ [item_name item])
        | None => dict_set regions region [item_name item]
        end in
      region_loop rest regions
  end.

(** [_get_region_data()], on the list of countries that the World Bank
    answers. *)
Definition _get_region_data (country_data : list region_item)
    : outcome (dict (list string)) :=
  let regions := region_loop country_data [] in
  match dict_pop regions "Aggregates" with
  | Some regions => Done regions
  | None => Fails KeyError
  end.

Section Population.
(** The values of the population records, and what [int(_)] makes of one: an
    integer or an exception. *)
Variable value : Type.
Variable int : value -> outcome Z.

(** A record of the population data, as [_get_population_data] reads it:
    [country['country']['value']] and [country['value']], which may be
    [None]. *)
Record population_item : Type := PopulationItem {
  item_country : string;
  item_value : option value
}.

(** The loop of [_get_population_data]. *)
Fixpoint population_loop (population_data : list population_item)
    (countries : dict Z) : outcome (dict Z) :=
  match population_data with
  | [] => Done countries
  | country :: rest =>
      match item_value country with
      | None => population_loop rest countries
      | Some v =>
          match int v with
          | Fails e => Fails e
          | Done n =>
              if negb (n =? 0) then
                match int v with
                | Fails e => Fails e
                | Done n' =>
                    population_loop rest
                      (dict_set countries (item_country country) n')
                end
              else population_loop rest countries
          end
      end
  end.

(** [_get_population_data()], on the population records that the World Bank
    answers. *)
Definition _get_population_data (population_data : list population_item)
    : outcome (dict Z) :=
  population_loop (drop 47 population_data) [].

(** ** PopulationTree *)

Variable randcolour : addr -> colour_t.

(** [PopulationTree(False, root, subtrees, data_size)]. *)
Definition PopulationTree_new (root : option string)
    (subtrees : option (list addr)) (data_size : Z) : M addr :=
  let subtrees := match subtrees with None => [] | Some l => l end in
  self ← alloc;
  _ ← __init__ self root subtrees data_size (randcolour self);
  mret self.

(** The inner loop of [_load_data]: a leaf for each country of the region
    that has population data. *)
Fixpoint country_loop (country_populations : dict Z)
    (countries : list string) : M (list addr) :=
  match countries with
  | [] => mret []
  | country :: rest =>
      match dict_get country_populations country with
      | Some population =>
          leaf ← PopulationTree_new (Some country) None population;
          subtree ← country_loop country_populations rest;
          mret (leaf :: subtree)
      | None => country_loop country_populations rest
      end
  end.

(** The outer loop of [_load_data]: a tree for each region. *)
Definition region_trees (country_populations : dict Z)
    (regions : dict (list string)) : M (list addr) :=
  mapM (fun '(region, countries) =>
          subtree ← country_loop country_populations countries;
          PopulationTree_new (Some region) (Some subtree) 0)
       regions.

(** [_load_data()], on the two answers of the World Bank. *)
Definition _load_data (population_data : list population_item)
    (country_data : list region_item) : IO (list addr) :=
  country_populations ← ended (_get_population_data population_data);
  regions ← ended (_get_region_data country_data);
  call (region_trees country_populations regions).

(** [PopulationTree(world, root, subtrees, data_size)]. *)
Definition PopulationTree_init (population_data : list population_item)
    (country_data : list region_item) (world : bool) (root : option string)
    (subtrees : option (list addr)) (data_size : Z) : IO addr :=
  if world then
    region_trees ← _load_data population_data country_data;
    self ← call alloc;
    _ ← call (__init__ self (Some "World"%string) region_trees 0
                (randcolour self));
    mret self
  else call (PopulationTree_new root subtrees data_size).
End Population.

Arguments item_country {value} _.
Arguments item_value {value} _.
Arguments PopulationItem {value} _ _.

(** The populations of the countries of a region that have data, added
    up. *)
Definition region_population (country_populations : dict Z)
    (countries : list string) : Z :=
  foldr Z.add 0 (omap (dict_get country_populations) countries).

Definition world_population (country_populations : dict Z)
    (regions : dict (list string)) : Z :=
  foldr Z.add 0 (map (fun rc => region_population country_populations rc.2)
                   regions).

(** The names of the items of a region, in their order. *)
Definition names_of (region : string) (country_data : list region_item)
    : list string :=
  map item_name
    (List.filter (fun item => String.eqb (item_region item) region)
       country_data).

Section PopulationRecords.
Context {value : Type}.
Variable int : value -> outcome Z.

(** What a population record counts for: nothing when its value is [None]
    or an integer that is 0, and the integer otherwise; or the exception of
    [int]. *)
Definition counted (country : population_item value) : outcome (option Z) :=
  match item_value country with
  | None => Done None
  | Some v =>
      match int v with
      | Fails e => Fails e
      | Done n => if n =? 0 then Done None else Done (Some n)
      end
  end.

(** What the last record of a country that counts for something counts
    for. *)
Fixpoint population_of (name : string)
    (population_data : list (population_item value)) : option Z :=
  match population_data with
  | [] => None
  | country :: rest =>
      match population_of name rest with
      | Some n => Some n
      | None =>
          if String.eqb (item_country country) name then
            match counted country with
            | Done x => x
            | Fails _ => None
            end
          else None
      end
  end.
End PopulationRecords.

(** ** Answers of the World Bank, in small *)

Definition bank_populations : list (population_item Z) :=
  replicate 47 (PopulationItem "Arab World"%string (Some 1)) ++
  [PopulationItem "France"%string (Some 66);
   PopulationItem "Japan"%string (Some 120);
   PopulationItem "Italy"%string None].

Definition bank_countries : list region_item :=
  [RegionItem "Aggregates" "Arab World"; RegionItem "Europe" "France";
   RegionItem "Asia" "Japan"; RegionItem "Europe" "Italy"]%string.

(** * The two programs *)

(** [run_treemap_file_system(path)], in a heap without objects. *)
Definition run_treemap_file_system (isdir : string -> bool)
    (listdir : string -> list string) (getsize : string -> Z)
    (basename : string -> string) (os_path_join : string -> string -> string)
    (randcolour : addr -> colour_t) (fuel : nat) (path : string)
    (inputs : list polled) : IO (list frame) :=
  file_tree ← call (FileSystemTree_init isdir listdir getsize basename
                      os_path_join randcolour fuel path);
  run_visualisation os_path_join FileSystemTree fuel file_tree inputs.

(** [run_treemap_population()]. *)
Definition run_treemap_population (value : Type) (int : value -> outcome Z)
    (os_path_join : string -> string -> string)
    (randcolour : addr -> colour_t)
    (population_data : list (population_item value))
    (country_data : list region_item) (fuel : nat) (inputs : list polled)
    : IO (list frame) :=
  pop_tree ← PopulationTree_init value int randcolour population_data
               country_data true None None 0;
  run_visualisation os_path_join PopulationTree fuel pop_tree inputs.
(** * change_prop on doubles *)

(** [change_prop] above takes the product [data_size * proportion] without
    rounding.  Here is the method as Python computes it, on IEEE 754 doubles
    ([spec_float] of the standard library, at precision 53): the [int] is
    converted to the nearest double, the product is rounded to the nearest
    double, ties to even, and [math.ceil] returns the least integer that is
    not below that double. *)
Module Double.

Definition prec : Z := 53.
Definition emax : Z := 1024.

(** The conversion of an [int] operand of a float operation: the nearest
    double, or [OverflowError] when that is beyond the largest double. *)
Definition float_of_int (n : Z) : outcome spec_float :=
  match binary_normalize prec emax n 0 false with
  | S754_infinity _ => Fails OverflowError
  | x => Done x
  end.

(** [n * y] for an [int] [n] and a [float] [y]. *)
Definition int_mul_float (n : Z) (y : spec_float) : outcome spec_float :=
  x ← float_of_int n;
  Done (SFmul prec emax x y).

(** [math.ceil(x)] for a [float] [x]: an [int]; infinities and NaN have
    none. *)
Definition math_ceil (x : spec_float) : outcome Z :=
  match x with
  | S754_zero _ => Done 0
  | S754_finite s m e =>
      let n := cond_Zopp s (Zpos m) in
      Done (if 0 <=? e then n * 2 ^ e else - ((- n) / 2 ^ (- e)))
  | S754_infinity _ => Fails OverflowError
  | S754_nan => Fails ValueError
  end.

(** [proportion >= 0] compares the [float] with the [int] 0, which is exact;
    it is false of NaN. *)
Definition change_prop (fuel : nat) (self : addr) (proportion : spec_float)
    : IO unit :=
  o ← call (load self);
  size_change ← ended (
    if SFleb (S754_zero false) proportion then
      x ← int_mul_float (data_size o) proportion;
      math_ceil x
    else
      x ← int_mul_float (data_size o) (SFabs proportion);
      n ← math_ceil x;
      Done (n * -1));
  let size_change :=
    if data_size o + size_change <? 1 then data_size o - 1
    else size_change in
  call (update_size fuel self size_change).

End Double.

(** ** The vocabulary of the properties of doubles *)

(** The number that a double stands for; 0 for the infinities and NaN, which
    stand for none. *)
Definition float_value (x : spec_float) : Q :=
  match x with
  | S754_finite s m e => (inject_Z (cond_Zopp s (Zpos m)) * 2 ^ e)%Q
  | _ => 0
  end.

(** A zero or a finite double, not an infinity or NaN. *)
Definition finite (x : spec_float) : bool :=
  match x with
  | S754_zero _ | S754_finite _ _ _ => true
  | _ => false
  end.

(** A positive double that is at least [2 ^ K], or plus infinity. *)
Definition at_least (K : Z) (x : spec_float) : Prop :=
  match x with
  | S754_finite false m e => 2 ^ (K - e) <= Zpos m
  | S754_infinity false => True
  | _ => False
  end.

(** The double nearest to the integer [n]. *)
Definition nearest (n : Z) : spec_float :=
  binary_normalize Double.prec Double.emax n 0 false.

(** The double that the decimal literal for [n / d] denotes, for integers
    [n] and [d] that are doubles themselves: the double nearest to the
    quotient. *)
Definition literal (n d : Z) : spec_float :=
  SFdiv Double.prec Double.emax (nearest n) (nearest d).

(** The largest double, [1.7976931348623157e308]. *)
Definition DBL_MAX : spec_float := SFmax_float Double.prec Double.emax.

(** A leaf of size [2 ** 1024] at address 1 below a root at address 2. *)
Definition huge : heap :=
  list_to_map
    [(1%nat, Obj (Some "leaf"%string) [] (Some 2%nat) (2 ^ 1024) grey);
     (2%nat, Obj (Some "r"%string) [1%nat] None (2 ^ 1024) grey)].
(** * Properties of the mutations *)

Section Monad.
Context {A B : Type}.

Lemma bind_load (a : addr) (o : obj) (k : obj -> M B) (h : heap) :
  h !! a = Some o -> (load a ≫= k) h = k o h.
Proof. intros E. unfold mbind, M_bind, load. now rewrite E. Qed.

Lemma bind_store (a : addr) (o : obj) (f : obj -> obj) (k : unit -> M B)
    (h : heap) :
  h !! a = Some o -> (store a f ≫= k) h = k tt (<[a := f o]> h).
Proof. intros E. unfold mbind, M_bind, store. now rewrite E. Qed.

Lemma store_run (a : addr) (o : obj) (f : obj -> obj) (h : heap) :
  h !! a = Some o -> store a f h = Some (Return tt, <[a := f o]> h).
Proof. intros E. unfold store. now rewrite E. Qed.

Lemma bind_run (m : M A) (k : A -> M B) (h h' : heap) (a : A) :
  m h = Some (Return a, h') -> (m ≫= k) h = k a h'.
Proof. intros E. unfold mbind, M_bind. now rewrite E. Qed.

Lemma bind_raise (m : M A) (k : A -> M B) (h h' : heap) (e : exn) :
  m h = Some (Raise e, h') -> (m ≫= k) h = Some (Raise e, h').
Proof. intros E. unfold mbind, M_bind. now rewrite E. Qed.
End Monad.

Section Ancestors.
Implicit Types (h : heap) (a b : addr) (l : list addr).

Lemma ancestors_length fuel h a l :
  ancestors fuel h a = Some l -> (length l < fuel)%nat.
Proof.
  revert a l. induction fuel as [|fuel IH]; intros a l; simpl; [discriminate|].
  destruct (h !! a) as [o|]; simpl; [|discriminate].
  destruct (_parent_tree o) as [p|].
  - destruct (ancestors fuel h p) as [l'|] eqn:E; simpl; [|discriminate].
    intros [= <-]. apply IH in E. simpl. lia.
  - intros [= <-]. simpl. lia.
Qed.

Lemma ancestors_mono fuel fuel' h a l :
  ancestors fuel h a = Some l -> (fuel <= fuel')%nat ->
  ancestors fuel' h a = Some l.
Proof.
  revert fuel' a l. induction fuel as [|fuel IH]; intros fuel' a l; simpl;
    [discriminate|].
  intros H Hle. destruct fuel' as [|fuel']; [lia|]. simpl.
  destruct (h !! a) as [o|]; simpl in *; [|discriminate].
  destruct (_parent_tree o) as [p|]; [|assumption].
  destruct (ancestors fuel h p) as [l'|] eqn:E; simpl in *; [|discriminate].
  rewrite (IH fuel' p l' E); [assumption|lia].
Qed.

Lemma ancestors_fun fuel fuel' h a l l' :
  ancestors fuel h a = Some l -> ancestors fuel' h a = Some l' -> l = l'.
Proof.
  intros H H'.
  apply (ancestors_mono _ (fuel + fuel')) in H; [|lia].
  apply (ancestors_mono _ (fuel + fuel')) in H'; [|lia].
  congruence.
Qed.

(** The ancestors of an ancestor are a strictly shorter list. *)
Lemma ancestors_suffix fuel h a l b :
  ancestors fuel h a = Some l -> b ∈ l ->
  exists l', ancestors fuel h b = Some l' /\ (length l' < length l)%nat.
Proof.
  revert a l. induction fuel as [|fuel IH]; intros a l H Hin;
    [discriminate|].
  simpl in H. destruct (h !! a) as [o|]; simpl in H; [|discriminate].
  destruct (_parent_tree o) as [p|].
  - destruct (ancestors fuel h p) as [l0|] eqn:E; simpl in H; [|discriminate].
    injection H as <-. apply elem_of_cons in Hin as [->|Hin].
    + exists l0. split; [|simpl; lia].
      apply (ancestors_mono fuel); [assumption|lia].
    + destruct (IH p l0 E Hin) as (l' & H' & Hlen).
      exists l'. split; [|simpl; lia].
      apply (ancestors_mono fuel); [assumption|lia].
  - injection H as <-. inversion Hin.
Qed.

(** The parent chain that reaches a root never comes back to its start. *)
Lemma ancestors_not_in fuel h a l :
  ancestors fuel h a = Some l -> a ∉ l.
Proof.
  intros H Hin.
  destruct (ancestors_suffix _ _ _ _ _ H Hin) as (l' & H' & Hlen).
  rewrite (ancestors_fun _ _ _ _ _ _ H H') in Hlen. lia.
Qed.

(** The chain only depends on the parent references. *)
Lemma ancestors_ext fuel h h' a :
  (forall b, _parent_tree <$> h !! b = _parent_tree <$> h' !! b) ->
  ancestors fuel h a = ancestors fuel h' a.
Proof.
  intros Hext. revert a. induction fuel as [|fuel IH]; intros a; simpl;
    [reflexivity|].
  specialize (Hext a).
  destruct (h !! a) as [o|], (h' !! a) as [o'|]; simpl in *;
    try discriminate; [|reflexivity].
  injection Hext as ->. destruct (_parent_tree o') as [p|]; [|reflexivity].
  now rewrite IH.
Qed.

Lemma ancestors_store fuel h a b o f :
  h !! b = Some o -> _parent_tree (f o) = _parent_tree o ->
  ancestors fuel (<[b := f o]> h) a = ancestors fuel h a.
Proof.
  intros Hb Hf. apply ancestors_ext. intros c.
  destruct (decide (b = c)) as [<-|Hne].
  - rewrite lookup_insert_eq, Hb. simpl. now rewrite Hf.
  - now rewrite lookup_insert_ne.
Qed.
End Ancestors.

(** [update_size] adds [size_change] to the object and to each of its
  ancestors, and touches nothing else. *)
Lemma update_size_spec (fuel : nat) (h : heap) (self : addr) (d : Z)
  (anc : list addr) :
ancestors fuel h self = Some anc ->
exists h', update_size fuel self d h = Some (Return tt, h') /\
  forall b, h' !! b =
    if decide (b ∈ self :: anc) then add_data_size d <$> h !! b else h !! b.
Proof.
revert h self anc. induction fuel as [|fuel IH]; intros h self anc Hanc;
  [discriminate|].
pose proof (ancestors_not_in _ _ _ _ Hanc) as Hnin.
simpl in Hanc. destruct (h !! self) as [o|] eqn:Ho; simpl in Hanc;
  [|discriminate].
cbn [update_size]. rewrite (bind_store _ _ _ _ _ Ho).
rewrite (bind_load self (add_data_size d o)) by apply lookup_insert_eq.
change (_parent_tree (add_data_size d o)) with (_parent_tree o).
destruct (_parent_tree o) as [p|] eqn:Hp.
- destruct (ancestors fuel h p) as [l|] eqn:El; simpl in Hanc; [|discriminate].
  injection Hanc as <-.
  destruct (IH (<[self := add_data_size d o]> h) p l) as (h' & Hrun & Hlk).
  { rewrite ancestors_store; [assumption..|reflexivity]. }
  exists h'. split; [assumption|]. intros b. rewrite Hlk.
  destruct (decide (b = self)) as [->|Hne].
  + rewrite decide_False by assumption.
    rewrite decide_True by (apply elem_of_cons; now left).
    now rewrite lookup_insert_eq, Ho.
  + rewrite lookup_insert_ne by congruence.
    destruct (decide (b ∈ p :: l)) as [Hin|Hin].
    * rewrite decide_True by (apply elem_of_cons; now right). reflexivity.
    * rewrite decide_False; [reflexivity|].
      intros [->|?]%elem_of_cons; contradiction.
- injection Hanc as <-. eexists. split; [reflexivity|]. intros b.
  destruct (decide (b = self)) as [->|Hne].
  + rewrite decide_True by (apply elem_of_cons; now left).
    now rewrite lookup_insert_eq, Ho.
  + rewrite lookup_insert_ne by congruence.
    rewrite decide_False; [reflexivity|].
    intros [->|Hin]%elem_of_cons; [contradiction|inversion Hin].
Qed.

Lemma ancestors_alloc (fuel : nat) (h : heap) (a b : addr) (l : list addr) :
  ancestors fuel h a = Some l -> b ∈ a :: l -> is_Some (h !! b).
Proof.
  revert a l. induction fuel as [|fuel IH]; intros a l H Hin; [discriminate|].
  simpl in H. destruct (h !! a) as [o|] eqn:Ho; simpl in H; [|discriminate].
  apply elem_of_cons in Hin as [->|Hin]; [now rewrite Ho|].
  destruct (_parent_tree o) as [p|].
  - destruct (ancestors fuel h p) as [l0|] eqn:E; simpl in H; [|discriminate].
    injection H as <-. now apply (IH p l0).
  - injection H as <-. inversion Hin.
Qed.

(** The same with the attributes of the objects written out. *)
Lemma update_size_fields (fuel : nat) (h : heap) (self : addr) (d : Z)
    (anc : list addr) :
  ancestors fuel h self = Some anc ->
  exists h', update_size fuel self d h = Some (Return tt, h') /\
    (forall a, a ∈ self :: anc ->
       exists oa, h !! a = Some oa /\
         h' !! a = Some (Obj (_root oa) (_subtrees oa) (_parent_tree oa)
                           (data_size oa + d) (colour oa))) /\
    (forall a, a ∉ self :: anc -> h' !! a = h !! a).
Proof.
  intros Hanc.
  destruct (update_size_spec _ _ _ d _ Hanc) as (h' & Hrun & Hlk).
  exists h'. split; [assumption|]. split.
  - intros a Ha. destruct (ancestors_alloc _ _ _ _ _ Hanc Ha) as [oa Hoa].
    exists oa. split; [assumption|]. now rewrite Hlk, decide_True, Hoa.
  - intros a Ha. now rewrite Hlk, decide_False.
Qed.

Lemma change_prop_spec (fuel : nat) (h : heap) (self : addr) (o : obj)
    (anc : list addr) (p : Q) :
  h !! self = Some o ->
  ancestors fuel h self = Some anc ->
  exists h', change_prop fuel self p h = Some (Return tt, h') /\
    forall b, h' !! b =
      if decide (b ∈ self :: anc)
      then add_data_size (size_change_of (data_size o) p) <$> h !! b
      else h !! b.
Proof.
  intros Ho Hanc. unfold change_prop. rewrite (bind_load _ _ _ _ Ho).
  apply (update_size_spec _ _ _ _ _ Hanc).
Qed.

(** What [delete] does to an object that has a parent, whatever its label
    and children. *)
Lemma delete_spec (fuel : nat) (h : heap) (self parent : addr) (o : obj)
    (anc : list addr) :
  h !! self = Some o ->
  _parent_tree o = Some parent ->
  ancestors fuel h parent = Some anc ->
  (self ∉ parent :: anc) /\
  exists h', delete fuel self h = Some (Return tt, h') /\
    forall b, h' !! b =
      if decide (b = self)
      then Some (Obj None (_subtrees o) None 0 (colour o))
      else if decide (b ∈ parent :: anc)
      then add_data_size (- data_size o) <$> h !! b
      else h !! b.
Proof.
  intros Ho Hp Hanc.
  assert (Hself : ancestors (S fuel) h self = Some (parent :: anc)).
  { simpl. rewrite Ho. simpl. rewrite Hp, Hanc. reflexivity. }
  pose proof (ancestors_not_in _ _ _ _ Hself) as Hnin.
  split; [assumption|].
  unfold delete. rewrite (bind_store _ _ _ _ _ Ho).
  rewrite (bind_load self (set_root None o)) by apply lookup_insert_eq.
  change (_parent_tree (set_root None o)) with (_parent_tree o). rewrite Hp.
  change (data_size (set_root None o)) with (data_size o).
  destruct (update_size_spec fuel (<[self := set_root None o]> h) parent
              (data_size o * -1) anc) as (h2 & Hrun & Hlk).
  { rewrite ancestors_store; [assumption..|reflexivity]. }
  rewrite (bind_run _ _ _ _ _ Hrun).
  assert (H2 : h2 !! self = Some (set_root None o)).
  { rewrite Hlk, decide_False by assumption. apply lookup_insert_eq. }
  rewrite (bind_store _ _ _ _ _ H2).
  rewrite (store_run self (set_parent_tree None (set_root None o)))
    by apply lookup_insert_eq.
  eexists. split; [reflexivity|]. intros b.
  destruct (decide (b = self)) as [->|Hne].
  - now rewrite lookup_insert_eq.
  - rewrite !lookup_insert_ne by congruence. rewrite Hlk.
    rewrite lookup_insert_ne by congruence.
    replace (data_size o * -1) with (- data_size o) by lia. reflexivity.
Qed.

Example family_built :
  (_ ← __init__ 1%nat (Some "a"%string) [] 10 grey;
   _ ← __init__ 2%nat (Some "b"%string) [] 20 grey;
   __init__ 3%nat (Some "r"%string) [1%nat; 2%nat] 0 grey) ∅
  = Some (Return tt, family).
Proof. vm_compute. reflexivity. Qed.

Example family_conserved : weight_conserved family = true.
Proof. vm_compute. reflexivity. Qed.

Example family_view : view 5 family 3%nat = Some family_tree.
Proof. vm_compute. reflexivity. Qed.

Example three_built :
  (_ ← __init__ 1%nat (Some "leaf"%string) [] 3 grey;
   __init__ 2%nat (Some "r"%string) [1%nat] 0 grey) ∅
  = Some (Return tt, three).
Proof. vm_compute. reflexivity. Qed.

Example hundred_built :
  (_ ← __init__ 1%nat (Some "leaf"%string) [] 100 grey;
   __init__ 2%nat (Some "r"%string) [1%nat] 0 grey) ∅
  = Some (Return tt, hundred).
Proof. vm_compute. reflexivity. Qed.

Example with_zero_built :
  (_ ← __init__ 1%nat (Some "a"%string) [] 10 grey;
   _ ← __init__ 2%nat (Some "z"%string) [] 0 grey;
   __init__ 3%nat (Some "r"%string) [1%nat; 2%nat] 0 grey) ∅
  = Some (Return tt, with_zero).
Proof. vm_compute. reflexivity. Qed.

Example nested_built :
  (_ ← __init__ 1%nat (Some "leaf"%string) [] 5 grey;
   _ ← __init__ 2%nat (Some "dir"%string) [1%nat] 0 grey;
   __init__ 3%nat (Some "r"%string) [2%nat] 0 grey) ∅
  = Some (Return tt, nested).
Proof. vm_compute. reflexivity. Qed.

Example stretched_built :
  (_ ← __init__ 1%nat (Some "c"%string) [] 10 (1, 1, 1);
   _ ← __init__ 2%nat (Some "a"%string) [] 5 (2, 2, 2);
   _ ← __init__ 3%nat (Some "b"%string) [] 5 (3, 3, 3);
   _ ← __init__ 4%nat (Some "j"%string) [2%nat; 3%nat] 0 (4, 4, 4);
   _ ← __init__ 5%nat (Some "z"%string) [] 7 (5, 5, 5);
   _ ← __init__ 6%nat (Some "r"%string) [1%nat; 4%nat; 5%nat] 0 (6, 6, 6);
   delete 5 5%nat) ∅
  = Some (Return tt, stretched).
Proof. vm_compute. reflexivity. Qed.

Example stretched_view : view 5 stretched 6%nat = Some stretched_tree.
Proof. vm_compute. reflexivity. Qed.

Example stretched_well_formed : well_formed stretched_tree = true.
Proof. reflexivity. Qed.

(** ** Construction *)

(** C4 (the code differs): built from the one child of size 5 with the
    explicit size 7, the new node gets the size 12 = 7 + 5, not the sum 5 of
    its children's sizes: [__init__] starts the sum from its [data_size]
    argument.  The child's parent reference is set to the new node. *)
Theorem init_adds_explicit_size :
  exists h,
    (_ ← __init__ 1%nat (Some "leaf"%string) [] 5 grey;
     __init__ 2%nat (Some "r"%string) [1%nat] 7 grey) ∅
    = Some (Return tt, h) /\
    children_sum h [1%nat] = Some 5 /\
    size_at h 2%nat = Some 12 /\
    (_parent_tree <$> h !! 1%nat) = Some (Some 2%nat).
Proof. eexists. vm_compute. repeat split; reflexivity. Qed.

Lemma init_loop_spec (self : addr) (subtrees : list addr) :
  forall (h : heap) (o : obj) (sizes : list Z),
    h !! self = Some o ->
    self ∉ subtrees ->
    mapM (fun c => data_size <$> h !! c) subtrees = Some sizes ->
    exists h', init_loop self subtrees h = Some (Return tt, h') /\
      h' !! self = Some (add_data_size (foldr Z.add 0 sizes) o) /\
      (forall c, c ∈ subtrees ->
         exists oc, h !! c = Some oc /\
           h' !! c = Some (set_parent_tree (Some self) oc)) /\
      (forall a, a ≠ self -> a ∉ subtrees -> h' !! a = h !! a).
Proof.
  induction subtrees as [|c l IH]; intros h o sizes Ho Hnin Hsizes.
  - injection Hsizes as <-. exists h. split; [reflexivity|].
    split; [|split].
    + rewrite Ho. f_equal. destruct o. unfold add_data_size, set_data_size.
      simpl. f_equal. lia.
    + intros c Hc. inversion Hc.
    + reflexivity.
  - apply not_elem_of_cons in Hnin as [Hne Hnin].
    assert (Hne' : c ≠ self) by (intros ->; now apply Hne).
    simpl in Hsizes.
    destruct (h !! c) as [oc|] eqn:Hoc; [|discriminate]. simpl in Hsizes.
    destruct (mapM _ l) as [sizes'|] eqn:Hl; [|discriminate].
    injection Hsizes as <-.
    cbn [init_loop]. rewrite (bind_load _ _ _ _ Hoc).
    rewrite (bind_store _ _ _ _ _ Ho).
    assert (H1 : <[self := add_data_size (data_size oc) o]> h !! c = Some oc).
    { rewrite lookup_insert_ne by assumption. assumption. }
    rewrite (bind_store _ _ _ _ _ H1).
    set (h1 := <[c := set_parent_tree (Some self) oc]>
                 (<[self := add_data_size (data_size oc) o]> h)).
    destruct (IH h1 (add_data_size (data_size oc) o) sizes')
      as (h' & Hrun & Hself & Hkids & Hother); [| assumption | |].
    { unfold h1. rewrite lookup_insert_ne by congruence.
      apply lookup_insert_eq. }
    { rewrite <- Hl. apply Forall_mapM_ext, Forall_forall. intros a Ha.
      assert (a ≠ self) as Has by (intros ->; contradiction).
      unfold h1. destruct (decide (a = c)) as [->|Hac].
      - now rewrite lookup_insert_eq, Hoc.
      - now rewrite !lookup_insert_ne by congruence. }
    exists h'. split; [assumption|]. split; [|split].
    + rewrite Hself. f_equal. unfold add_data_size, set_data_size. simpl.
      f_equal. lia.
    + intros a Ha. apply elem_of_cons in Ha as [->|Ha].
      * exists oc. split; [assumption|].
        destruct (decide (c ∈ l)) as [Hin|Hnotin].
        -- destruct (Hkids c Hin) as (oc' & E1 & E2).
           unfold h1 in E1. rewrite lookup_insert_eq in E1.
           injection E1 as <-. rewrite E2. reflexivity.
        -- rewrite Hother by assumption. unfold h1. apply lookup_insert_eq.
      * destruct (Hkids a Ha) as (oa & E1 & E2). unfold h1 in E1.
        destruct (decide (a = c)) as [->|Hac].
        -- rewrite lookup_insert_eq in E1. injection E1 as <-.
           exists oc. split; [assumption|]. rewrite E2. reflexivity.
        -- rewrite lookup_insert_ne in E1 by congruence.
           rewrite lookup_insert_ne in E1 by (intros ->; contradiction).
           exists oa. split; assumption.
    + intros a Has Hal. apply not_elem_of_cons in Hal as [Hac Hal].
      rewrite Hother by assumption. unfold h1.
      rewrite !lookup_insert_ne by congruence. reflexivity.
Qed.



(** ** delete *)

(** C5: [delete] on a leaf (label present, no children) of size [w] whose
    parent chain [parent :: anc] reaches a root returns normally; afterwards
    the leaf has no label, size 0 and no parent, every former ancestor has the
    size it had minus [w] and its other attributes as before, no other object
    is touched, and every children list is as before, so the emptied leaf
    keeps its place in its former parent's [_subtrees]. *)
Theorem delete_leaf (fuel : nat) (h : heap) (self parent : addr) (o : obj)
    (anc : list addr) :
  h !! self = Some o ->
  is_Some (_root o) ->
  _subtrees o = [] ->
  _parent_tree o = Some parent ->
  ancestors fuel h parent = Some anc ->
  exists h', delete fuel self h = Some (Return tt, h') /\
    h' !! self = Some (Obj None [] None 0 (colour o)) /\
    (forall a, a ∈ parent :: anc ->
       exists oa, h !! a = Some oa /\
         h' !! a = Some (Obj (_root oa) (_subtrees oa) (_parent_tree oa)
                           (data_size oa - data_size o) (colour oa))) /\
    (forall a, a ≠ self -> a ∉ parent :: anc -> h' !! a = h !! a) /\
    (forall a oa, h !! a = Some oa ->
       exists oa', h' !! a = Some oa' /\ _subtrees oa' = _subtrees oa).
Proof.
  intros Ho _ Hleaf Hp Hanc.
  destruct (delete_spec _ _ _ _ _ _ Ho Hp Hanc) as (Hnin & h' & Hrun & Hlk).
  exists h'. split; [assumption|].
  split; [|split; [|split]].
  - rewrite Hlk, decide_True by reflexivity. now rewrite Hleaf.
  - intros a Ha. destruct (ancestors_alloc _ _ _ _ _ Hanc Ha) as [oa Hoa].
    exists oa. split; [assumption|]. rewrite Hlk.
    rewrite decide_False by (intros ->; contradiction).
    rewrite decide_True by assumption. rewrite Hoa. simpl.
    unfold add_data_size, set_data_size. do 2 f_equal; lia.
  - intros a Hne Ha. rewrite Hlk. now rewrite !decide_False by assumption.
  - intros a oa Hoa. rewrite Hlk. destruct (decide (a = self)) as [->|Hne].
    + eexists. split; [reflexivity|]. simpl. congruence.
    + destruct (decide (a ∈ parent :: anc)) as [Ha|Ha].
      * rewrite Hoa. eexists. split; reflexivity.
      * eauto.
Qed.

Lemma delete_leaf_witness :
  exists h', delete 5 2%nat family = Some (Return tt, h') /\
    h' !! 2%nat = Some (Obj None [] None 0 grey) /\
    (forall a, a ∈ [3%nat] ->
       exists oa, family !! a = Some oa /\
         h' !! a = Some (Obj (_root oa) (_subtrees oa) (_parent_tree oa)
                           (data_size oa - 20) (colour oa))) /\
    (forall a, a ≠ 2%nat -> a ∉ [3%nat] -> h' !! a = family !! a) /\
    (forall a oa, family !! a = Some oa ->
       exists oa', h' !! a = Some oa' /\ _subtrees oa' = _subtrees oa).
Proof.
  apply (delete_leaf 5 family 2%nat 3%nat
           (Obj (Some "b"%string) [] (Some 3%nat) 20 grey) []);
    [reflexivity | eexists; reflexivity | reflexivity | reflexivity
    | reflexivity].
Defined.

(** C8 (counterexample): [delete] on the folder at address 2 of [nested],
    which has a child, signals no error and empties the folder; [delete] on
    the empty tree at address 2 of [with_absent], whose label is absent
    already, signals no error either and clears its parent reference;
    [delete] on the root of [family], which has no parent, raises, but only
    after it has cleared the root's label, so the heap is not as it was. *)
Lemma delete_violations_not_rejected :
  (violates_delete_precondition <$> nested !! 2%nat) = Some true /\
  rejected_unchanged nested (delete 5 2%nat nested) = false /\
  (exists h', delete 5 2%nat nested = Some (Return tt, h') /\
     h' !! 2%nat = Some (Obj None [1%nat] None 0 grey)) /\
  (violates_delete_precondition <$> with_absent !! 2%nat) = Some true /\
  rejected_unchanged with_absent (delete 5 2%nat with_absent) = false /\
  (exists h', delete 5 2%nat with_absent = Some (Return tt, h') /\
     h' !! 2%nat = Some (Obj None [] None 0 grey)) /\
  (violates_delete_precondition <$> family !! 3%nat) = Some true /\
  rejected_unchanged family (delete 5 3%nat family) = false /\
  (exists h', delete 5 3%nat family = Some (Raise AttributeError, h') /\
     h' !! 3%nat = Some (Obj None [1%nat; 2%nat] None 30 grey)).
Proof.
  repeat split; try reflexivity; eexists; vm_compute; split; reflexivity.
Qed.

(** C8 (amended): [delete] checks none of its preconditions.  On a node
    without a parent it raises [AttributeError] and leaves the heap of before
    with the node's label cleared and nothing else changed; so when the label
    was absent already, the heap is exactly the one of before.  On a node
    with a parent whose chain [parent :: anc] reaches a root it signals no
    error, whatever the node's label and children: it returns normally and
    leaves the node with no label, size 0, no parent and its children list,
    every former ancestor with the size it had minus the node's and its other
    attributes as before, and every other object as it was. *)
Theorem delete_unchecked (fuel : nat) (h : heap) (self : addr) (o : obj) :
  h !! self = Some o ->
  match _parent_tree o with
  | None =>
      delete fuel self h
      = Some (Raise AttributeError,
              <[self := Obj None (_subtrees o) None (data_size o) (colour o)]> h)
      /\ (_root o = None ->
          delete fuel self h = Some (Raise AttributeError, h))
  | Some parent =>
      forall anc, ancestors fuel h parent = Some anc ->
        exists h', delete fuel self h = Some (Return tt, h') /\
          h' !! self = Some (Obj None (_subtrees o) None 0 (colour o)) /\
          (forall a, a ∈ parent :: anc ->
             exists oa, h !! a = Some oa /\
               h' !! a = Some (Obj (_root oa) (_subtrees oa) (_parent_tree oa)
                                 (data_size oa - data_size o) (colour oa))) /\
          (forall a, a ≠ self -> a ∉ parent :: anc -> h' !! a = h !! a)
  end.
Proof.
  intros Ho. destruct (_parent_tree o) as [parent|] eqn:Hp.
  - intros anc Hanc.
    destruct (delete_spec _ _ _ _ _ _ Ho Hp Hanc) as (Hnin & h' & Hrun & Hlk).
    exists h'. split; [assumption|]. split; [|split].
    + now rewrite Hlk, decide_True by reflexivity.
    + intros a Ha. destruct (ancestors_alloc _ _ _ _ _ Hanc Ha) as [oa Hoa].
      exists oa. split; [assumption|]. rewrite Hlk.
      rewrite decide_False by (intros ->; contradiction).
      rewrite decide_True by assumption. rewrite Hoa. simpl.
      unfold add_data_size, set_data_size. do 2 f_equal; lia.
    + intros a Hne Ha. rewrite Hlk. now rewrite !decide_False by assumption.
  - assert (Hrun : delete fuel self h
                   = Some (Raise AttributeError,
                           <[self := Obj None (_subtrees o) None (data_size o)
                                       (colour o)]> h)).
    { unfold delete. rewrite (bind_store _ _ _ _ _ Ho).
      rewrite (bind_load self (set_root None o)) by apply lookup_insert_eq.
      change (_parent_tree (set_root None o)) with (_parent_tree o).
      rewrite Hp. unfold set_root. rewrite Hp. reflexivity. }
    split; [assumption|]. intros Hroot. rewrite Hrun. do 2 f_equal.
    apply insert_id. rewrite Ho. f_equal. destruct o; simpl in *. congruence.
Qed.

Lemma delete_unchecked_witness :
  (delete 5 3%nat family
   = Some (Raise AttributeError,
           <[3%nat := Obj None [1%nat; 2%nat] None 30 grey]> family) /\
   ((Some "r"%string : option string) = None ->
    delete 5 3%nat family = Some (Raise AttributeError, family))) /\
  (delete 5 2%nat family_later
   = Some (Raise AttributeError,
           <[2%nat := Obj None [] None 0 grey]> family_later) /\
   ((None : option string) = None ->
    delete 5 2%nat family_later = Some (Raise AttributeError, family_later))) /\
  (exists h', delete 5 2%nat nested = Some (Return tt, h') /\
     h' !! 2%nat = Some (Obj None [1%nat] None 0 grey) /\
     (forall a, a ∈ [3%nat] ->
        exists oa, nested !! a = Some oa /\
          h' !! a = Some (Obj (_root oa) (_subtrees oa) (_parent_tree oa)
                            (data_size oa - 5) (colour oa))) /\
     (forall a, a ≠ 2%nat -> a ∉ [3%nat] -> h' !! a = nested !! a)).
Proof.
  split; [|split].
  - apply (delete_unchecked 5 family 3%nat
             (Obj (Some "r"%string) [1%nat; 2%nat] None 30 grey)).
    reflexivity.
  - apply (delete_unchecked 5 family_later 2%nat (Obj None [] None 0 grey)).
    reflexivity.
  - apply (delete_unchecked 5 nested 2%nat
             (Obj (Some "dir"%string) [1%nat] (Some 3%nat) 5 grey) eq_refl
             [ ]).
    reflexivity.
Defined.

(** ** Weight conservation *)

(** C3 (the code differs): in [family] every node with children has the sum
    of their sizes as its size, and still has after [delete] on the leaf at
    address 2.  [change_prop 0.5] on that emptied leaf, which has no parent
    reference any more, then sets its size to -1 and leaves the root at 10:
    the root's children now sum to 9. *)
Theorem resize_after_delete_breaks_conservation :
  weight_conserved family = true /\
  exists h1 h2,
    delete 5 2%nat family = Some (Return tt, h1) /\
    weight_conserved h1 = true /\
    change_prop 5 2%nat (1 # 2) h1 = Some (Return tt, h2) /\
    weight_conserved h2 = false /\
    size_at h2 2%nat = Some (-1) /\
    size_at h2 3%nat = Some 10 /\
    children_sum h2 [1%nat; 2%nat] = Some 9.
Proof.
  split; [reflexivity|]. do 2 eexists.
  split; [vm_compute; reflexivity|]. repeat split; vm_compute; reflexivity.
Qed.

(** ** Conservation along a parent chain *)

Lemma forallb_map_to_list (f : addr -> obj -> bool) (h : heap) :
  forallb (fun bo => f bo.1 bo.2) (map_to_list h) = true <->
  forall b ob, h !! b = Some ob -> f b ob = true.
Proof.
  rewrite forallb_forall. split.
  - intros H b ob Hb. apply (H (b, ob)). apply list_elem_of_In.
    now apply elem_of_map_to_list.
  - intros H [b ob] Hin. apply list_elem_of_In, elem_of_map_to_list in Hin.
    now apply H.
Qed.

Lemma weight_conserved_spec (h : heap) :
  weight_conserved h = true <->
  forall b ob, h !! b = Some ob -> _subtrees ob ≠ [] ->
    children_sum h (_subtrees ob) = Some (data_size ob).
Proof.
  unfold weight_conserved.
  rewrite (forallb_map_to_list (fun _ o => conserved_at h o)).
  split; intros H b ob Hb.
  - intros Hne. specialize (H b ob Hb). unfold conserved_at in H.
    destruct (_subtrees ob); [contradiction|].
    now apply bool_decide_eq_true in H.
  - unfold conserved_at. destruct (_subtrees ob) eqn:E; [reflexivity|].
    apply bool_decide_eq_true. rewrite <- E. apply (H b ob Hb). now rewrite E.
Qed.

Lemma emptied_spec (o : obj) :
  emptied o = true <->
  _root o = None /\ _subtrees o = [] /\ _parent_tree o = None.
Proof.
  unfold emptied. rewrite !andb_true_iff, !bool_decide_eq_true. tauto.
Qed.

Lemma coherent_spec (h : heap) :
  coherent h = true <->
  forall b ob, h !! b = Some ob ->
    NoDup (_subtrees ob) /\
    (forall c, c ∈ _subtrees ob ->
       exists oc, h !! c = Some oc /\
         (_parent_tree oc = Some b \/ emptied oc = true)) /\
    (forall p, _parent_tree ob = Some p ->
       exists op, h !! p = Some op /\ b ∈ _subtrees op).
Proof.
  unfold coherent. rewrite (forallb_map_to_list (coherent_at h)).
  split; intros H b ob Hb; specialize (H b ob Hb).
  - unfold coherent_at in H. rewrite !andb_true_iff in H.
    destruct H as [[Hnd Hkids] Hpar]. apply bool_decide_eq_true in Hnd.
    split; [assumption|]. split.
    + intros c Hc. rewrite forallb_forall in Hkids.
      specialize (Hkids c ltac:(now apply list_elem_of_In)).
      destruct (h !! c) as [oc|]; [|discriminate].
      exists oc. split; [reflexivity|].
      apply orb_true_iff in Hkids as [Hk|Hk]; [left|now right].
      now apply bool_decide_eq_true in Hk.
    + intros p Hp. rewrite Hp in Hpar.
      destruct (h !! p) as [op|]; [|discriminate].
      exists op. split; [reflexivity|]. now apply bool_decide_eq_true in Hpar.
  - destruct H as (Hnd & Hkids & Hpar). unfold coherent_at.
    rewrite !andb_true_iff. split; [split|].
    + now apply bool_decide_eq_true.
    + apply forallb_forall. intros c Hc. apply list_elem_of_In in Hc.
      destruct (Hkids c Hc) as (oc & -> & [Hk|Hk]); apply orb_true_iff.
      * left. now apply bool_decide_eq_true.
      * now right.
    + destruct (_parent_tree ob) as [p|]; [|reflexivity].
      destruct (Hpar p eq_refl) as (op & -> & Hin).
      now apply bool_decide_eq_true.
Qed.

Lemma children_sum_nil (h : heap) : children_sum h [] = Some 0.
Proof. reflexivity. Qed.

Lemma children_sum_cons (h : heap) (c : addr) (l : list addr) :
  children_sum h (c :: l)
  = match data_size <$> h !! c, children_sum h l with
    | Some s, Some t => Some (s + t)
    | _, _ => None
    end.
Proof.
  unfold children_sum. simpl.
  destruct (h !! c) as [oc|]; simpl; [|reflexivity].
  destruct (mapM _ l); reflexivity.
Qed.

Lemma children_sum_same (h h' : heap) (l : list addr) :
  (forall c, c ∈ l -> data_size <$> h' !! c = data_size <$> h !! c) ->
  children_sum h' l = children_sum h l.
Proof.
  intros H. unfold children_sum. f_equal.
  apply Forall_mapM_ext, Forall_forall. exact H.
Qed.

Lemma children_sum_one (h h' : heap) (l : list addr) (c0 : addr) (d v : Z) :
  NoDup l -> c0 ∈ l ->
  data_size <$> h' !! c0 = (fun z => z + d) <$> (data_size <$> h !! c0) ->
  (forall c, c ∈ l -> c ≠ c0 -> data_size <$> h' !! c = data_size <$> h !! c) ->
  children_sum h l = Some v ->
  children_sum h' l = Some (v + d).
Proof.
  intros Hnd. revert v. induction Hnd as [|c l Hnin Hnd IH]; intros v Hin H0 Hrest Hv.
  - inversion Hin.
  - rewrite children_sum_cons in *.
    destruct (data_size <$> h !! c) as [s|] eqn:Es; [|discriminate].
    destruct (children_sum h l) as [t|] eqn:Et; [|discriminate].
    injection Hv as <-.
    apply elem_of_cons in Hin as [->|Hin].
    + rewrite H0, Es. simpl.
      rewrite (children_sum_same h h' l), Et.
      * f_equal. lia.
      * intros a Ha. apply Hrest; [now right|]. intros ->. contradiction.
    + rewrite (Hrest c) by (try (now left); intros ->; contradiction).
      rewrite Es. rewrite (IH t Hin H0); [f_equal; lia| |reflexivity].
      intros a Ha. apply Hrest. now right.
Qed.

(** ** Facts about a parent chain *)

Lemma ancestors_unfold (fuel : nat) (h : heap) (a : addr) (l : list addr) :
  ancestors fuel h a = Some l ->
  exists o, h !! a = Some o /\
    match _parent_tree o with
    | None => l = []
    | Some p => exists fuel' l', l = p :: l' /\ ancestors fuel' h p = Some l'
    end.
Proof.
  destruct fuel as [|fuel]; [discriminate|]. simpl.
  destruct (h !! a) as [o|]; simpl; [|discriminate].
  intros H. exists o. split; [reflexivity|].
  destruct (_parent_tree o) as [p|].
  - destruct (ancestors fuel h p) as [l'|] eqn:E; simpl in H; [|discriminate].
    injection H as <-. eauto.
  - now injection H as <-.
Qed.

(** The parent of a member of the chain is a proper ancestor. *)
Lemma chain_parent_in (fuel : nat) (h : heap) (a c b : addr) (l : list addr)
    (oc : obj) :
  ancestors fuel h a = Some l -> c ∈ a :: l ->
  h !! c = Some oc -> _parent_tree oc = Some b -> b ∈ l.
Proof.
  revert fuel a. induction l as [|p l IH]; intros fuel a Hanc Hc Hoc Hb.
  - apply ancestors_unfold in Hanc as (o & Ho & Hp).
    apply list_elem_of_singleton in Hc as ->.
    rewrite Ho in Hoc. injection Hoc as ->. rewrite Hb in Hp.
    destruct Hp as (? & ? & ? & _). discriminate.
  - apply ancestors_unfold in Hanc as (o & Ho & Hp).
    destruct (_parent_tree o) as [p'|] eqn:Epar; [|discriminate].
    destruct Hp as (fuel' & l' & [= <- <-] & Hanc').
    apply elem_of_cons in Hc as [->|Hc].
    + rewrite Ho in Hoc. injection Hoc as ->. rewrite Hb in Epar.
      injection Epar as ->. now left.
    + right. eapply IH; eassumption.
Qed.

(** Every proper ancestor is the parent of a member of the chain. *)
Lemma chain_pred (fuel : nat) (h : heap) (a b : addr) (l : list addr) :
  ancestors fuel h a = Some l -> b ∈ l ->
  exists c oc, c ∈ a :: l /\ h !! c = Some oc /\ _parent_tree oc = Some b.
Proof.
  revert fuel a. induction l as [|p l IH]; intros fuel a Hanc Hb;
    [inversion Hb|].
  apply ancestors_unfold in Hanc as (o & Ho & Hp).
  destruct (_parent_tree o) as [p'|] eqn:Epar; [|discriminate].
  destruct Hp as (fuel' & l' & [= <- <-] & Hanc').
  apply elem_of_cons in Hb as [->|Hb].
  - exists a, o. split; [now left|]. split; assumption.
  - destruct (IH _ _ Hanc' Hb) as (c & oc & Hc & Hoc & Hpar).
    exists c, oc. split; [now right|]. split; assumption.
Qed.

(** Two members of the chain with the same parent are the same. *)
Lemma chain_parent_inj (fuel : nat) (h : heap) (a c c' b : addr)
    (l : list addr) (oc oc' : obj) :
  ancestors fuel h a = Some l -> c ∈ a :: l -> c' ∈ a :: l ->
  h !! c = Some oc -> _parent_tree oc = Some b ->
  h !! c' = Some oc' -> _parent_tree oc' = Some b -> c = c'.
Proof.
  revert fuel a. induction l as [|p l IH]; intros fuel a Hanc Hc Hc' Hoc Hb Hoc' Hb'.
  - apply list_elem_of_singleton in Hc as ->.
    now apply list_elem_of_singleton in Hc' as ->.
  - pose proof (ancestors_not_in _ _ _ _ Hanc) as Hnin.
    apply ancestors_unfold in Hanc as (o & Ho & Hp).
    destruct (_parent_tree o) as [p'|] eqn:Epar; [|discriminate].
    destruct Hp as (fuel' & l' & [= <- <-] & Hanc').
    pose proof (ancestors_not_in _ _ _ _ Hanc') as Hnin'.
    apply elem_of_cons in Hc as [->|Hc]; apply elem_of_cons in Hc' as [->|Hc'].
    + reflexivity.
    + rewrite Ho in Hoc. injection Hoc as ->. rewrite Hb in Epar.
      injection Epar as ->.
      pose proof (chain_parent_in _ _ _ _ _ _ _ Hanc' Hc' Hoc' Hb'). contradiction.
    + rewrite Ho in Hoc'. injection Hoc' as ->. rewrite Hb' in Epar.
      injection Epar as ->.
      pose proof (chain_parent_in _ _ _ _ _ _ _ Hanc' Hc Hoc Hb). contradiction.
    + eapply IH; eassumption.
Qed.

(** Adding [d] to the size of a labelled leaf and of each of its ancestors,
    the children lists unchanged, keeps every node with children at the sum
    of its children's sizes. *)
Lemma conserved_bump (fuel : nat) (h h' : heap) (self : addr) (o : obj)
    (anc : list addr) (d : Z) :
  coherent h = true -> weight_conserved h = true ->
  h !! self = Some o -> is_Some (_root o) -> _subtrees o = [] ->
  ancestors fuel h self = Some anc ->
  (forall b, _subtrees <$> h' !! b = _subtrees <$> h !! b) ->
  (forall b, data_size <$> h' !! b =
     if decide (b ∈ self :: anc)
     then (fun z => z + d) <$> (data_size <$> h !! b)
     else data_size <$> h !! b) ->
  weight_conserved h' = true.
Proof.
  intros Hcoh Hcons Ho Hroot Hleaf Hanc Hsub Hsize.
  rewrite coherent_spec in Hcoh. rewrite weight_conserved_spec in Hcons.
  apply weight_conserved_spec. intros b ob' Hb' Hne'.
  pose proof (Hsub b) as Hsb. rewrite Hb' in Hsb.
  destruct (h !! b) as [ob|] eqn:Hb; [|discriminate].
  injection Hsb as Hsb. rewrite Hsb in *.
  specialize (Hcons b ob Hb Hne').
  destruct (Hcoh b ob Hb) as (Hnd & Hkids & _).
  pose proof (Hsize b) as Hszb. rewrite Hb', Hb in Hszb. simpl in Hszb.
  (* no emptied leaf is on the chain *)
  assert (Hno_emptied : forall c oc, c ∈ self :: anc -> h !! c = Some oc ->
            emptied oc = true -> False).
  { intros c oc Hc Hoc Hem. apply emptied_spec in Hem as (Hr & Hs & _).
    apply elem_of_cons in Hc as [->|Hc].
    - rewrite Ho in Hoc. injection Hoc as ->. rewrite Hr in Hroot.
      now destruct Hroot.
    - destruct (chain_pred _ _ _ _ _ Hanc Hc) as (c' & oc' & _ & Hoc' & Hpar).
      destruct (Hcoh c' oc' Hoc') as (_ & _ & Hp).
      destruct (Hp c Hpar) as (oc'' & Hoc'' & Hin).
      rewrite Hoc in Hoc''. injection Hoc'' as <-. rewrite Hs in Hin.
      inversion Hin. }
  destruct (decide (b ∈ self :: anc)) as [Hbc|Hbc].
  - (* [b] is on the chain: exactly one of its children is *)
    injection Hszb as ->.
    apply elem_of_cons in Hbc as [->|Hbc].
    { rewrite Ho in Hb. injection Hb as <-. congruence. }
    destruct (chain_pred _ _ _ _ _ Hanc Hbc) as (c0 & oc0 & Hc0 & Hoc0 & Hpar0).
    destruct (Hcoh c0 oc0 Hoc0) as (_ & _ & Hp0).
    destruct (Hp0 b Hpar0) as (ob0 & Hob0 & Hin0).
    rewrite Hb in Hob0. injection Hob0 as <-.
    apply (children_sum_one h h' _ c0 d); try assumption.
    + rewrite Hsize. now rewrite decide_True by assumption.
    + intros c Hc Hcc0. rewrite Hsize.
      destruct (decide (c ∈ self :: anc)) as [Hcin|]; [|reflexivity].
      exfalso. destruct (Hkids c Hc) as (oc & Hoc & [Hpar|Hem]).
      * apply Hcc0.
        eapply (chain_parent_inj _ _ _ c c0 b); eassumption.
      * eapply Hno_emptied; eassumption.
  - (* [b] is off the chain: none of its children is on it *)
    injection Hszb as ->.
    rewrite <- Hcons. apply children_sum_same. intros c Hc. rewrite Hsize.
    destruct (decide (c ∈ self :: anc)) as [Hcin|]; [|reflexivity].
    exfalso. destruct (Hkids c Hc) as (oc & Hoc & [Hpar|Hem]).
    + apply Hbc. right. eapply chain_parent_in; eassumption.
    + eapply Hno_emptied; eassumption.
Qed.

Lemma emptied_set_data_size (v : Z) (o : obj) :
  emptied (set_data_size v o) = emptied o.
Proof. reflexivity. Qed.

Lemma same_shape (o o' : obj) :
  set_data_size 0 o' = set_data_size 0 o ->
  _root o' = _root o /\ _subtrees o' = _subtrees o /\
  _parent_tree o' = _parent_tree o /\ emptied o' = emptied o.
Proof.
  intros E. rewrite <- (emptied_set_data_size 0 o'), E.
  destruct o, o'. unfold set_data_size in E. simpl in *.
  injection E as -> -> -> _. auto.
Qed.

(** Coherence only depends on labels, children lists and parent references;
    it survives a change of sizes, and the emptying of a leaf. *)
Lemma coherent_update (h h' : heap) (self : addr) (o o' : obj) :
  coherent h = true ->
  h !! self = Some o -> _subtrees o = [] ->
  h' !! self = Some o' ->
  set_data_size 0 o' = set_data_size 0 o
  \/ (emptied o' = true) ->
  (forall b, b ≠ self ->
     set_data_size 0 <$> h' !! b = set_data_size 0 <$> h !! b) ->
  coherent h' = true.
Proof.
  intros Hcoh Ho Hleaf Ho' Hshape Hrest.
  rewrite coherent_spec in Hcoh. apply coherent_spec.
  assert (Hleaf' : _subtrees o' = []).
  { destruct Hshape as [E|E].
    - apply same_shape in E as (_ & -> & _). assumption.
    - now apply emptied_spec in E as (_ & ? & _). }
  assert (Hother : forall b ob', b ≠ self -> h' !! b = Some ob' ->
            exists ob, h !! b = Some ob /\
              set_data_size 0 ob' = set_data_size 0 ob).
  { intros b ob' Hb Hob'. specialize (Hrest b Hb). rewrite Hob' in Hrest.
    destruct (h !! b) as [ob|]; [|discriminate].
    exists ob. split; [reflexivity|]. simpl in Hrest. congruence. }
  assert (Hother' : forall b ob, b ≠ self -> h !! b = Some ob ->
            exists ob', h' !! b = Some ob' /\
              set_data_size 0 ob' = set_data_size 0 ob).
  { intros b ob Hb Hob. specialize (Hrest b Hb). rewrite Hob in Hrest.
    destruct (h' !! b) as [ob'|]; [|discriminate].
    exists ob'. split; [reflexivity|]. simpl in Hrest. congruence. }
  intros b ob' Hb'.
  destruct (decide (b = self)) as [->|Hbs].
  - rewrite Ho' in Hb'. injection Hb' as <-. rewrite Hleaf'.
    split; [constructor|]. split; [intros c Hc; inversion Hc|].
    intros p Hp. destruct Hshape as [E|E].
    + apply same_shape in E as (_ & _ & Epar & _). rewrite Epar in Hp.
      destruct (Hcoh self o Ho) as (_ & _ & Hpar).
      destruct (Hpar p Hp) as (op & Hop & Hin).
      assert (p ≠ self) as Hps.
      { intros ->. rewrite Ho in Hop. injection Hop as <-.
        rewrite Hleaf in Hin. inversion Hin. }
      destruct (Hother' p op Hps Hop) as (op' & Hop' & E).
      apply same_shape in E as (_ & Esub & _).
      exists op'. split; [assumption|]. now rewrite Esub.
    + apply emptied_spec in E as (_ & _ & E). congruence.
  - destruct (Hother b ob' Hbs Hb') as (ob & Hob & E).
    apply same_shape in E as (_ & Esub & Epar & _).
    destruct (Hcoh b ob Hob) as (Hnd & Hkids & Hpar).
    rewrite Esub, Epar. split; [assumption|]. split.
    + intros c Hc. destruct (Hkids c Hc) as (oc & Hoc & Hlink).
      destruct (decide (c = self)) as [->|Hcs].
      * exists o'. split; [assumption|].
        rewrite Ho in Hoc. injection Hoc as <-.
        destruct Hshape as [E|E]; [|now right].
        apply same_shape in E as (_ & _ & -> & ->). assumption.
      * destruct (Hother' c oc Hcs Hoc) as (oc' & Hoc' & E).
        apply same_shape in E as (_ & _ & Ep & Ee).
        exists oc'. split; [assumption|]. now rewrite Ep, Ee.
    + intros p Hp. destruct (Hpar p Hp) as (op & Hop & Hin).
      assert (p ≠ self) as Hps.
      { intros ->. rewrite Ho in Hop. injection Hop as <-.
        rewrite Hleaf in Hin. inversion Hin. }
      destruct (Hother' p op Hps Hop) as (op' & Hop' & E).
      apply same_shape in E as (_ & Esub' & _).
      exists op'. split; [assumption|]. now rewrite Esub'.
Qed.

(** ** Sequences of mutations on labelled leaves *)

Lemma rooted_spec (fuel : nat) (h : heap) :
  rooted fuel h = true <->
  forall b ob, h !! b = Some ob -> is_Some (ancestors fuel h b).
Proof.
  unfold rooted. rewrite forallb_forall. split.
  - intros H b ob Hb. eapply bool_decide_eq_true.
    apply (H (b, ob)). apply list_elem_of_In.
    now apply elem_of_map_to_list.
  - intros H [b ob] Hin. apply list_elem_of_In, elem_of_map_to_list in Hin.
    apply bool_decide_eq_true. now apply (H b ob).
Qed.

(** The chain only depends on the parent references of its members. *)
Lemma ancestors_ext_on (fuel : nat) (h h' : heap) (a : addr) (l : list addr) :
  ancestors fuel h a = Some l ->
  (forall b, b ∈ a :: l ->
     _parent_tree <$> h' !! b = _parent_tree <$> h !! b) ->
  ancestors fuel h' a = Some l.
Proof.
  revert a l. induction fuel as [|fuel IH]; intros a l Hanc Hext;
    [discriminate|].
  simpl in Hanc. simpl.
  pose proof (Hext a ltac:(now left)) as Ha.
  destruct (h !! a) as [o|]; simpl in Hanc; [|discriminate].
  destruct (h' !! a) as [o'|]; simpl in Ha; [|discriminate].
  injection Ha as Ha. simpl. rewrite Ha.
  destruct (_parent_tree o) as [p|].
  - destruct (ancestors fuel h p) as [l'|] eqn:E; simpl in Hanc; [|discriminate].
    injection Hanc as <-.
    rewrite (IH p l' E); [reflexivity|].
    intros b Hb. apply Hext. now right.
  - assumption.
Qed.

Lemma rooted_update (fuel : nat) (h h' : heap) (self : addr) (o o' : obj) :
  rooted fuel h = true -> coherent h = true ->
  h !! self = Some o -> _subtrees o = [] ->
  h' !! self = Some o' ->
  _parent_tree o' = _parent_tree o \/ _parent_tree o' = None ->
  (forall b, b ≠ self ->
     set_data_size 0 <$> h' !! b = set_data_size 0 <$> h !! b) ->
  rooted fuel h' = true.
Proof.
  intros Hroot Hcoh Ho Hleaf Ho' Hpar Hrest.
  rewrite rooted_spec in Hroot. rewrite coherent_spec in Hcoh.
  apply rooted_spec.
  assert (Hparents : forall b, b ≠ self ->
            _parent_tree <$> h' !! b = _parent_tree <$> h !! b).
  { intros b Hb. specialize (Hrest b Hb).
    destruct (h' !! b) as [ob'|], (h !! b) as [ob|]; simpl in *;
      try discriminate; [|reflexivity].
    assert (E : set_data_size 0 ob' = set_data_size 0 ob) by congruence.
    apply same_shape in E as (_ & _ & -> & _). reflexivity. }
  (* no chain passes through the leaf [self] *)
  assert (Hoff : forall a l, ancestors fuel h a = Some l -> self ∉ l).
  { intros a l Hanc Hin.
    destruct (chain_pred _ _ _ _ _ Hanc Hin) as (c & oc & _ & Hoc & Hp).
    destruct (Hcoh c oc Hoc) as (_ & _ & Hpc).
    destruct (Hpc self Hp) as (os & Hos & Hcin).
    rewrite Ho in Hos. injection Hos as <-. rewrite Hleaf in Hcin.
    inversion Hcin. }
  intros b ob' Hb'.
  destruct (decide (b = self)) as [->|Hbs].
  - destruct (Hroot self o Ho) as [l Hl].
    destruct Hpar as [Hsame|Hnone].
    + exists l. apply (ancestors_ext_on _ h); [assumption|].
      intros c Hc. apply elem_of_cons in Hc as [->|Hc].
      * rewrite Ho', Ho. simpl. now rewrite Hsame.
      * apply Hparents. intros ->. now apply (Hoff self l).
    + exists []. destruct fuel as [|fuel]; [discriminate|].
      simpl. rewrite Ho'. simpl. now rewrite Hnone.
  - pose proof (Hrest b Hbs) as Hb. rewrite Hb' in Hb.
    destruct (h !! b) as [ob|] eqn:Hob; [|discriminate].
    destruct (Hroot b ob Hob) as [l Hl]. exists l.
    apply (ancestors_ext_on _ h); [assumption|].
    intros c Hc. apply Hparents. intros ->.
    apply elem_of_cons in Hc as [->|Hc]; [contradiction|].
    now apply (Hoff b l).
Qed.

Lemma labelled_leaf_spec (h : heap) (a : addr) :
  labelled_leaf h a = true <->
  exists o, h !! a = Some o /\ is_Some (_root o) /\ _subtrees o = [].
Proof.
  unfold labelled_leaf. destruct (h !! a) as [o|]; split.
  - intros H. apply andb_true_iff in H as [H1 H2].
    apply bool_decide_eq_true in H1, H2. eauto.
  - intros (o' & [= <-] & H1 & H2). apply andb_true_iff.
    split; now apply bool_decide_eq_true.
  - discriminate.
  - intros (o' & ? & _). discriminate.
Qed.

(** One mutation on a labelled leaf of a heap that is coherent, conserves the
    weights and is rooted within [fuel]: the call ends, by a return or by an
    exception, and the heap it leaves has the three properties again. *)
Lemma mutate_keeps (fuel : nat) (h : heap) (m : mutation) :
  coherent h = true -> weight_conserved h = true -> rooted fuel h = true ->
  labelled_leaf h (target m) = true ->
  exists r h', mutate fuel m h = Some (r, h') /\
    coherent h' = true /\ weight_conserved h' = true /\
    rooted fuel h' = true.
Proof.
  intros Hcoh Hcons Hroot Hleaf.
  apply labelled_leaf_spec in Hleaf as (o & Ho & Hlabel & Hsub).
  assert (Hanc : is_Some (ancestors fuel h (target m))).
  { rewrite rooted_spec in Hroot. now apply (Hroot _ o). }
  destruct Hanc as [anc Hanc].
  destruct m as [a|a p]; simpl in *.
  - (* delete *)
    destruct (_parent_tree o) as [parent|] eqn:Hp.
    + assert (exists anc', anc = parent :: anc'
                           /\ ancestors fuel h parent = Some anc')
        as (anc' & -> & Hanc').
      { destruct fuel as [|fuel]; [discriminate|]. simpl in Hanc.
        rewrite Ho in Hanc. simpl in Hanc. rewrite Hp in Hanc.
        destruct (ancestors fuel h parent) as [l|] eqn:E; [|discriminate].
        injection Hanc as <-. exists l. split; [reflexivity|].
        apply (ancestors_mono fuel); [assumption|lia]. }
      destruct (delete_spec _ _ _ _ _ _ Ho Hp Hanc') as (Hnin & h' & Hrun & Hlk).
      assert (Hrest : forall b, b ≠ a ->
                set_data_size 0 <$> h' !! b = set_data_size 0 <$> h !! b).
      { intros b Hb. rewrite Hlk, decide_False by assumption.
        case_decide; [|reflexivity]. now destruct (h !! b). }
      assert (Hself : h' !! a = Some (Obj None (_subtrees o) None 0 (colour o))).
      { now rewrite Hlk, decide_True. }
      exists (Return tt), h'. split; [assumption|]. split; [|split].
      * apply (coherent_update h h' a o _ Hcoh Ho Hsub Hself); [|assumption].
        right. now rewrite Hsub.
      * apply (conserved_bump fuel h h' a o (parent :: anc')
                 (- data_size o)); try assumption.
        -- intros b. rewrite Hlk. case_decide; [subst; now rewrite Ho|].
           case_decide; [|reflexivity]. now destruct (h !! b).
        -- intros b. rewrite Hlk. destruct (decide (b = a)) as [->|Hb].
           ++ rewrite decide_True by (apply elem_of_cons; now left).
              rewrite Ho. simpl. f_equal. lia.
           ++ destruct (decide (b ∈ parent :: anc')) as [Hin|Hin].
              ** rewrite decide_True by (apply elem_of_cons; now right).
                 now destruct (h !! b).
              ** rewrite decide_False; [reflexivity|].
                 intros [->|?]%elem_of_cons; contradiction.
      * apply (rooted_update fuel h h' a o _ Hroot Hcoh Ho Hsub Hself);
          [|assumption].
        now right.
    + exists (Raise AttributeError), (<[a := set_root None o]> h).
      assert (Hrest : forall b, b ≠ a ->
                set_data_size 0 <$> <[a := set_root None o]> h !! b
                = set_data_size 0 <$> h !! b).
      { intros b Hb. now rewrite lookup_insert_ne by congruence. }
      split; [|split; [|split]].
      * unfold delete. rewrite (bind_store _ _ _ _ _ Ho).
        rewrite (bind_load a (set_root None o)) by apply lookup_insert_eq.
        change (_parent_tree (set_root None o)) with (_parent_tree o).
        rewrite Hp. reflexivity.
      * apply (coherent_update h _ a o (set_root None o)); try assumption.
        -- apply lookup_insert_eq.
        -- right. apply emptied_spec. simpl. auto.
      * rewrite weight_conserved_spec in *. intros b ob' Hb' Hne.
        destruct (decide (b = a)) as [->|Hb].
        { rewrite lookup_insert_eq in Hb'. injection Hb' as <-.
          simpl in Hne. congruence. }
        rewrite lookup_insert_ne in Hb' by congruence.
        rewrite <- (Hcons b ob' Hb' Hne). apply children_sum_same.
        intros c _. destruct (decide (c = a)) as [->|Hc].
        -- now rewrite lookup_insert_eq, Ho.
        -- now rewrite lookup_insert_ne by congruence.
      * apply (rooted_update fuel h _ a o (set_root None o)); try assumption.
        -- apply lookup_insert_eq.
        -- now left.
  - (* change_prop *)
    destruct (change_prop_spec _ _ _ _ _ p Ho Hanc) as (h' & Hrun & Hlk).
    set (d := size_change_of (data_size o) p) in *.
    assert (Hself : h' !! a = Some (add_data_size d o)).
    { rewrite Hlk, decide_True by (apply elem_of_cons; now left).
      now rewrite Ho. }
    assert (Hrest : forall b, b ≠ a ->
              set_data_size 0 <$> h' !! b = set_data_size 0 <$> h !! b).
    { intros b _. rewrite Hlk. case_decide; [|reflexivity].
      now destruct (h !! b). }
    exists (Return tt), h'. split; [assumption|]. split; [|split].
    + apply (coherent_update h h' a o _ Hcoh Ho Hsub Hself); [|assumption].
      now left.
    + apply (conserved_bump fuel h h' a o anc d); try assumption.
      * intros b. rewrite Hlk. case_decide; [|reflexivity].
        now destruct (h !! b).
      * intros b. rewrite Hlk. case_decide; [|reflexivity].
        now destruct (h !! b).
    + apply (rooted_update fuel h h' a o _ Hroot Hcoh Ho Hsub Hself);
        [|assumption].
      now left.
Qed.



Example family_mutated :
  mutate_all 5 [Delete 2%nat; ChangeProp 1%nat (1 # 2)] family
  = Some family_later.
Proof. vm_compute. reflexivity. Qed.

(** ** change_prop *)

Ltac case_ltb :=
  match goal with
  | |- context [?a <? ?b] => destruct (Z.ltb_spec a b)
  end.

Lemma Qceiling_pos (q : Q) : (0 < q)%Q -> 1 <= Qceiling q.
Proof.
  intros Hq. pose proof (Qle_ceiling q) as Hc.
  assert (H : (0 < inject_Z (Qceiling q))%Q) by (eapply Qlt_le_trans; eassumption).
  unfold Qlt in H. simpl in H. lia.
Qed.

Lemma size_change_of_floor (w : Z) (p : Q) :
  1 <= w -> 1 <= w + size_change_of w p.
Proof. intros Hw. unfold size_change_of. case_ltb; lia. Qed.




(** C6 (the code differs): on the leaf of size 3, [change_prop (-0.9)]
    computes the change -3, finds 3 - 3 < 1 and replaces the change by
    [data_size - 1 = +2]: the leaf and its parent end with size 5, not 1. *)
Theorem change_prop_clamp_grows :
  size_change_of 3 (- (9 # 10)) = 2 /\
  exists h', change_prop 5 1%nat (- (9 # 10)) three = Some (Return tt, h') /\
    size_at h' 1%nat = Some 5 /\ size_at h' 2%nat = Some 5.
Proof. split; [reflexivity|]. eexists. vm_compute. repeat split; reflexivity. Qed.

(** C7 (the code differs): on the leaf of size 0, [change_prop 0.5] computes
    the change 0, finds 0 + 0 < 1 and replaces the change by
    [data_size - 1 = -1]: the leaf ends with size -1 and its parent loses 1. *)
Theorem change_prop_zero_weight :
  size_at with_zero 2%nat = Some 0 /\
  size_at with_zero 3%nat = Some 10 /\
  exists h', change_prop 5 2%nat (1 # 2) with_zero = Some (Return tt, h') /\
    size_at h' 2%nat = Some (-1) /\ size_at h' 3%nat = Some 9.
Proof.
  split; [reflexivity|]. split; [reflexivity|].
  eexists. vm_compute. repeat split; reflexivity.
Qed.

(** * The layout *)

(** C1 (the code differs): on [stretched_tree] in the rectangle
    [(0, 0, 101, 50)], [generate_treemap] draws leaf "a" (address 2, colour
    (2,2,2)) at [(50, 0, 25, 50)] and leaf "b" (address 3) at
    [(75, 0, 26, 50)], so the point (60, 40) is in the rectangle of "a" only;
    [leaf_at] returns "b".  The folder "j" is followed by an emptied leaf:
    [generate_treemap] lays it out in the stretched rectangle
    [(50, 0, 51, 50)] (split by width), while [leaf_at] first searches it in
    the unstretched [(50, 0, 50, 50)] (split by height) and returns what it
    finds there. *)
Theorem leaf_at_differs_from_treemap :
  generate_treemap stretched_tree (0, 0, 101, 50)
  = Return [((0, 0, 50, 50), (1, 1, 1));
            ((50, 0, 25, 50), (2, 2, 2));
            ((75, 0, 26, 50), (3, 3, 3))] /\
  inside (60, 40) (0, 0, 101, 50) = true /\
  drawn_at (60, 40) [((0, 0, 50, 50), (1, 1, 1));
                     ((50, 0, 25, 50), (2, 2, 2));
                     ((75, 0, 26, 50), (3, 3, 3))] = [(2, 2, 2)] /\
  positive_leaves stretched_tree
  = [(1%nat, (1, 1, 1)); (2%nat, (2, 2, 2)); (3%nat, (3, 3, 3))] /\
  leaf_at stretched_tree (60, 40) (0, 0, 101, 50) = Return (Some 3%nat).
Proof. repeat split; vm_compute; reflexivity. Qed.

(** ** Arithmetic of the proportional extent *)

Lemma proportional_zero (s e : Z) : proportional 0 s e = 0.
Proof.
  unfold proportional, int_of_float. simpl Qnum.
  rewrite Z.mul_0_l. apply Z.quot_0_l. discriminate.
Qed.

Lemma proportional_quot (c s e : Z) :
  0 < s -> proportional c s e = Z.quot (c * e) s.
Proof.
  intros Hs. destruct s as [|s|s]; try lia.
  unfold proportional, int_of_float. simpl.
  now rewrite Z.mul_1_r, Pos.mul_1_r.
Qed.

Lemma proportional_bounds (c s e : Z) :
  0 < s -> 0 <= c -> 0 <= e ->
  0 <= proportional c s e /\ proportional c s e * s <= c * e.
Proof.
  intros Hs Hc He. rewrite proportional_quot by assumption.
  rewrite Z.quot_div_nonneg by nia.
  split; [apply Z.div_pos; nia|].
  rewrite Z.mul_comm. apply Z.mul_div_le. assumption.
Qed.

(** ** Counting the rectangles around a pixel *)

Lemma cover_app (p : pos) (l1 l2 : treemap) :
  cover p (l1 ++ l2) = (cover p l1 + cover p l2)%nat.
Proof. induction l1 as [|rc l1 IH]; simpl; [reflexivity|]. rewrite IH. lia. Qed.

Ltac case_inside :=
  unfold ind, inside; simpl;
  repeat match goal with
  | |- context [?a <=? ?b] => destruct (Z.leb_spec a b)
  | |- context [?a <? ?b] => destruct (Z.ltb_spec a b)
  end; simpl; try reflexivity; try lia.

(** Two strips side by side make up the wider strip. *)
Lemma ind_split_v (p : pos) (a y h x1 e1 e2 e : Z) :
  (0 <= h -> 0 <= e1 /\ 0 <= e2) -> x1 = a + e1 -> e = e1 + e2 ->
  (ind p (a, y, e1, h) + ind p (x1, y, e2, h))%nat = ind p (a, y, e, h).
Proof. intros H -> ->. case_inside. Qed.

(** Two strips one above the other make up the taller strip. *)
Lemma ind_split_h (p : pos) (x b w y1 e1 e2 e : Z) :
  (0 <= w -> 0 <= e1 /\ 0 <= e2) -> y1 = b + e1 -> e = e1 + e2 ->
  (ind p (x, b, w, e1) + ind p (x, y1, w, e2))%nat = ind p (x, b, w, e).
Proof. intros H -> ->. case_inside. Qed.

Lemma ind_empty_v (p : pos) (x y h : Z) : ind p (x, y, 0, h) = 0%nat.
Proof. case_inside. Qed.

Lemma ind_empty_h (p : pos) (x y w : Z) : ind p (x, y, w, 0) = 0%nat.
Proof. case_inside. Qed.

Lemma drop_last_app {A} (l1 l2 : list A) :
  l2 ≠ [] -> drop_last (length l2) (l1 ++ l2) = l1.
Proof.
  intros Hne. unfold drop_last.
  destruct (decide (length l2 = 0%nat)) as [E|_].
  - destruct l2; [contradiction|discriminate].
  - rewrite length_app.
    replace (length l1 + length l2 - length l2)%nat with (length l1) by lia.
    apply take_app_length.
Qed.

(** ** Induction on trees *)

Lemma tree_ind (P : tree -> Prop) :
  (forall self root size col subtrees,
     Forall P subtrees -> P (Node self root size col subtrees)) ->
  forall t, P t.
Proof.
  intros H. fix IH 1. intros [self root size col subtrees]. apply H.
  induction subtrees as [|t l IHl]; constructor; [apply IH|exact IHl].
Qed.

Lemma well_formed_inv self root size col subtrees :
  well_formed (Node self root size col subtrees) = true ->
  0 <= size /\ (subtrees ≠ [] -> size = sum_sizes subtrees) /\
  Forall (fun t => well_formed t = true) subtrees.
Proof.
  simpl. intros H. apply andb_prop in H as [H Hall].
  apply andb_prop in H as [Hs Hsum]. apply Z.leb_le in Hs.
  repeat split; [assumption| |].
  - intros Hne. destruct subtrees; [contradiction|]. now apply Z.eqb_eq.
  - apply Forall_forall. intros t Ht. rewrite forallb_forall in Hall.
    apply Hall. now apply list_elem_of_In.
Qed.

Lemma well_formed_size_nonneg (t : tree) :
  well_formed t = true -> 0 <= tree_size t.
Proof. destruct t. intros H. now apply well_formed_inv in H. Qed.

Lemma sum_sizes_nonneg (l : list tree) :
  Forall (fun t => well_formed t = true) l -> 0 <= sum_sizes l.
Proof.
  induction 1 as [|t l Ht _ IH]; simpl; [lia|].
  apply well_formed_size_nonneg in Ht. lia.
Qed.

(** In a well-formed tree, exactly the trees of size 0 have no leaf of
    positive size. *)
Lemma positive_leaves_nil (t : tree) :
  well_formed t = true -> (tree_size t = 0 <-> positive_leaves t = []).
Proof.
  induction t as [self root size col subtrees IH] using tree_ind.
  intros Hwf. destruct (well_formed_inv _ _ _ _ _ Hwf) as (Hs & Hsum & Hall).
  simpl. destruct subtrees as [|t l].
  - destruct (Z.ltb_spec 0 size); split; intros; try discriminate;
      try reflexivity; lia.
  - rewrite (Hsum ltac:(discriminate)). clear Hsum Hwf Hs.
    generalize dependent (t :: l). clear t l. intros l IH Hall.
    induction Hall as [|t l Ht Hall IHl]; simpl; [tauto|].
    apply Forall_cons in IH as [IHt IH]. specialize (IHl IH).
    specialize (IHt Ht). pose proof (well_formed_size_nonneg _ Ht).
    pose proof (sum_sizes_nonneg _ Hall).
    split.
    + intros Hz. assert (tree_size t = 0) as Ht0 by lia.
      assert (sum_sizes l = 0) as Hl0 by lia.
      apply IHt in Ht0. apply IHl in Hl0. now rewrite Ht0, Hl0.
    + intros Happ. apply app_eq_nil in Happ as [H1 H2].
      apply IHt in H1. apply IHl in H2. lia.
Qed.

(** ** The loop of generate_treemap *)

Ltac rect_eq := repeat (f_equal; try lia).

Lemma kid_ok_empty (c : gt_child) (cols : list colour_t) (r : rect)
    (tm : treemap) :
  kid_ok c cols -> c.1 = 0 -> c.2 r = Return tm -> tm = [].
Proof.
  intros (_ & Hz & Hcall) Hc Hr. destruct (Hcall r) as (tm' & E & Hcols & _).
  rewrite Hr in E. injection E as <-.
  apply Hz in Hc. rewrite Hc in Hcols. now apply map_eq_nil in Hcols.
Qed.

Lemma kid_ok_nonempty (c : gt_child) (cols : list colour_t) (r : rect)
    (tm : treemap) :
  kid_ok c cols -> 0 < c.1 -> c.2 r = Return tm -> tm ≠ [].
Proof.
  intros (_ & Hz & Hcall) Hc Hr -> . destruct (Hcall r) as (tm' & E & Hcols & _).
  rewrite Hr in E. injection E as <-. simpl in Hcols.
  symmetry in Hcols. apply Hz in Hcols. lia.
Qed.

Ltac case_nil tm :=
  match goal with
  | |- context [@decide ?P ?d] =>
      let E := fresh "Hne" in destruct (@decide P d) as [->|E]
  end.

(** An iteration that is not the last one, strips varying in width. *)
Lemma gt_body_v_step (s w h ini_x ini_y y0 : Z) (n i : nat) (c : gt_child)
    (cols : list colour_t) (st : gt_state) (dsz : Z) (dcols : list colour_t) :
  0 < s -> h < w -> (i < n - 1)%nat ->
  kid_ok c cols ->
  inv_v s w h ini_x y0 dsz dcols st ->
  exists st', gt_body s w h ini_x ini_y n i c st = Return st' /\
    inv_v s w h ini_x y0 (dsz + c.1) (dcols ++ cols) st'.
Proof.
  intros Hs Hwh Hi Hc Hinv.
  destruct st as [x y res [[ol k] xl]].
  destruct Hinv as (Hy & Hcols & Hdsz & Hlast). simpl in Hy, Hcols, Hlast.
  subst y. unfold gt_body.
  replace (w >? h) with true by (symmetry; apply Z.gtb_lt; lia).
  replace (i <? n - 1)%nat with true by (symmetry; apply Nat.ltb_lt; lia).
  replace (i =? n - 1)%nat with false by (symmetry; apply Nat.eqb_neq; lia).
  pose proof Hc as (Hc0 & Hcz & Hcall).
  destruct (Hcall (x, y0, proportional c.1 s w, h)) as (tm & Hrun & Htm & Hcov).
  rewrite Hrun. unfold mbind, result_bind. cbv beta iota zeta.
  case_nil tm.
  - (* an empty subtree: nothing is drawn and [x] stays *)
    assert (c.1 = 0) as Hz by (apply Hcz; now rewrite <- Htm).
    rewrite Hz, proportional_zero, Z.add_0_r, app_nil_r.
    eexists. split; [reflexivity|].
    assert (cols = []) as -> by (now rewrite <- Htm).
    rewrite app_nil_r, Z.add_0_r.
    repeat split; assumption.
  - assert (0 < c.1) as Hpos.
    { destruct (Z.eq_dec c.1 0) as [E|E]; [|lia].
      apply Hcz in E. rewrite E in Htm. now apply map_eq_nil in Htm. }
    eexists. split; [reflexivity|].
    assert (Hsh : 0 <= h -> 0 <= proportional c.1 s w
                            /\ proportional c.1 s w * s <= c.1 * w).
    { intros Hh. apply proportional_bounds; lia. }
    unfold inv_v. simpl.
    split; [reflexivity|]. split; [rewrite map_app; congruence|].
    split; [lia|]. exists res, tm, cols.
    split; [reflexivity|]. split; [reflexivity|]. split; [assumption|].
    split; [assumption|]. split; [assumption|].
    destruct ol as [cl|].
    + destruct Hlast as (pre & out & cols_l & -> & _ & _ & _ & _ & Hpre
                           & Hout & Hord).
      simpl in Hpre, Hout, Hord.
      split; [|split].
      * intros p. rewrite cover_app, Hpre, Hout. apply ind_split_v; lia.
      * intros p. rewrite (Hcov p Hpos). rect_eq.
      * intros Hh. specialize (Hord Hh). specialize (Hsh Hh). nia.
    + destruct Hlast as (-> & -> & ->).
      split; [|split].
      * intros p. simpl. replace (ini_x - ini_x) with 0 by lia.
        now rewrite ind_empty_v.
      * intros p. rewrite (Hcov p Hpos). rect_eq.
      * intros Hh. specialize (Hsh Hh). nia.
Qed.

Lemma kid_ok_cols_nonempty (c : gt_child) (cols : list colour_t) :
  kid_ok c cols -> 0 < c.1 -> cols ≠ [].
Proof. intros (_ & Hz & _) Hpos E. apply Hz in E. lia. Qed.

(** The last iteration, strips varying in width: the last non-empty subtree
    is laid out again, up to the far edge. *)
Lemma gt_body_v_final (s w h ini_x ini_y y0 : Z) (n i : nat) (c : gt_child)
    (cols : list colour_t) (st : gt_state) (dsz : Z) (dcols : list colour_t) :
  0 < s -> h < w -> (0 < n)%nat -> i = (n - 1)%nat ->
  kid_ok c cols ->
  inv_v s w h ini_x y0 dsz dcols st ->
  dsz + c.1 = s ->
  exists st', gt_body s w h ini_x ini_y n i c st = Return st' /\
    map snd (gt_result st') = dcols ++ cols /\
    forall p, cover p (gt_result st') = ind p (ini_x, y0, w, h).
Proof.
  intros Hs Hwh Hn Hi Hc Hinv Hsum.
  destruct st as [x y res [[ol k] xl]].
  destruct Hinv as (Hy & Hcols & Hdsz & Hlast). simpl in Hy, Hcols, Hlast.
  subst y. unfold gt_body.
  replace (w >? h) with true by (symmetry; apply Z.gtb_lt; lia).
  replace (i <? n - 1)%nat with false by (symmetry; apply Nat.ltb_ge; lia).
  replace (i =? n - 1)%nat with true by (symmetry; apply Nat.eqb_eq; lia).
  pose proof Hc as (Hc0 & Hcz & Hcall).
  destruct (Hcall (x, y0, w - x + ini_x, h)) as (tm & Hrun & Htm & Hcov).
  rewrite Hrun. unfold mbind, result_bind. cbv beta iota zeta.
  case_nil tm.
  - (* the last subtree is empty: stretch the one recorded in [last_tree] *)
    assert (c.1 = 0) as Hz by (apply Hcz; now rewrite <- Htm).
    assert (cols = []) as -> by (now rewrite <- Htm).
    rewrite !app_nil_r. simpl.
    destruct ol as [cl|]; [|lia].
    destruct Hlast as (pre & out & cols_l & -> & -> & Hcl & Hclpos & Hout_cols
                         & Hpre & Hout & Hord).
    rewrite drop_last_app.
    2:{ intros ->. simpl in Hout_cols.
        now apply (kid_ok_cols_nonempty _ _ Hcl Hclpos). }
    destruct Hcl as (_ & _ & Hcall_l).
    destruct (Hcall_l (xl, y0, w - xl + ini_x, h)) as (tm' & Hrun' & Htm' & Hcov').
    unfold call_generate. simpl. rewrite Hrun'. eexists. split; [reflexivity|]. simpl. split.
    + rewrite <- Hcols, !map_app. congruence.
    + intros p. rewrite cover_app, Hpre, (Hcov' p Hclpos).
      apply ind_split_v; [|lia|lia].
      intros Hh. specialize (Hord Hh). nia.
  - assert (0 < c.1) as Hpos.
    { destruct (Z.eq_dec c.1 0) as [E|E]; [|lia].
      apply Hcz in E. rewrite E in Htm. now apply map_eq_nil in Htm. }
    simpl. rewrite drop_last_app by assumption.
    unfold call_generate. simpl. rewrite Hrun.
    eexists. split; [reflexivity|]. simpl. split.
    + rewrite map_app. congruence.
    + intros p. rewrite cover_app, (Hcov p Hpos).
      destruct ol as [cl|].
      * destruct Hlast as (pre & out & cols_l & -> & _ & _ & _ & _
                             & Hpre & Hout & Hord).
        rewrite cover_app, Hpre, Hout.
        rewrite (ind_split_v p ini_x y0 h xl (xl - ini_x) (x - xl) (x - ini_x))
          by lia.
        apply ind_split_v; [|lia|lia].
        intros Hh. specialize (Hord Hh). nia.
      * destruct Hlast as (-> & -> & ->). simpl. rect_eq.
Qed.

Lemma gt_loop_v (s w h ini_x ini_y y0 : Z) (n : nat) :
  0 < s -> h < w ->
  forall (rest : list gt_child) (colss : list (list colour_t)),
    Forall2 kid_ok rest colss -> rest ≠ [] ->
    forall (st : gt_state) (dsz : Z) (dcols : list colour_t) (i : nat),
      inv_v s w h ini_x y0 dsz dcols st ->
      dsz + sum_kids rest = s ->
      (i + length rest = n)%nat ->
      exists st', gt_loop s w h ini_x ini_y n rest i st = Return st' /\
        map snd (gt_result st') = dcols ++ concat colss /\
        forall p, cover p (gt_result st') = ind p (ini_x, y0, w, h).
Proof.
  intros Hs Hwh rest colss Hall.
  induction Hall as [|c cols rest colss Hc Hall IH]; [contradiction|].
  intros _ st dsz dcols i Hinv Hsum Hlen. simpl gt_loop.
  change (sum_kids (c :: rest)) with (c.1 + sum_kids rest) in Hsum.
  change (length (c :: rest)) with (S (length rest)) in Hlen.
  destruct rest as [|c' rest].
  - apply Forall2_nil_inv_l in Hall as ->. simpl in Hsum, Hlen.
    destruct (gt_body_v_final s w h ini_x ini_y y0 n i c cols st dsz dcols)
      as (st' & Hrun & Hcols & Hcov); try assumption; try lia.
    rewrite Hrun. exists st'. simpl. rewrite app_nil_r. auto.
  - destruct (gt_body_v_step s w h ini_x ini_y y0 n i c cols st dsz dcols)
      as (st1 & Hrun & Hinv1); try assumption; [simpl in Hlen; lia|].
    rewrite Hrun. unfold mbind, result_bind.
    destruct (IH ltac:(discriminate) st1 (dsz + c.1) (dcols ++ cols) (S i))
      as (st' & Hrun' & Hcols & Hcov); try assumption; try lia.
    exists st'. split; [assumption|]. split; [|assumption].
    rewrite Hcols. simpl. now rewrite app_assoc.
Qed.
(** An iteration that is not the last one, strips varying in height. *)
Lemma gt_body_h_step (s w h ini_x ini_y x0 : Z) (n i : nat) (c : gt_child)
    (cols : list colour_t) (st : gt_state) (dsz : Z) (dcols : list colour_t) :
  0 < s -> w <= h -> (i < n - 1)%nat ->
  kid_ok c cols ->
  inv_h s w h x0 ini_y dsz dcols st ->
  exists st', gt_body s w h ini_x ini_y n i c st = Return st' /\
    inv_h s w h x0 ini_y (dsz + c.1) (dcols ++ cols) st'.
Proof.
  intros Hs Hwh Hi Hc Hinv.
  destruct st as [x y res [[ol k] yl]].
  destruct Hinv as (Hx & Hcols & Hdsz & Hlast). simpl in Hx, Hcols, Hlast.
  subst x. unfold gt_body.
  replace (w >? h) with false by (symmetry; rewrite Z.gtb_ltb; apply Z.ltb_ge; lia).
  replace (i <? n - 1)%nat with true by (symmetry; apply Nat.ltb_lt; lia).
  replace (i =? n - 1)%nat with false by (symmetry; apply Nat.eqb_neq; lia).
  pose proof Hc as (Hc0 & Hcz & Hcall).
  destruct (Hcall (x0, y, w, proportional c.1 s h)) as (tm & Hrun & Htm & Hcov).
  rewrite Hrun. unfold mbind, result_bind. cbv beta iota zeta.
  case_nil tm.
  - (* an empty subtree: nothing is drawn and [y] stays *)
    assert (c.1 = 0) as Hz by (apply Hcz; now rewrite <- Htm).
    rewrite Hz, proportional_zero, Z.add_0_r, app_nil_r.
    eexists. split; [reflexivity|].
    assert (cols = []) as -> by (now rewrite <- Htm).
    rewrite app_nil_r, Z.add_0_r.
    repeat split; assumption.
  - assert (0 < c.1) as Hpos.
    { destruct (Z.eq_dec c.1 0) as [E|E]; [|lia].
      apply Hcz in E. rewrite E in Htm. now apply map_eq_nil in Htm. }
    eexists. split; [reflexivity|].
    assert (Hsh : 0 <= w -> 0 <= proportional c.1 s h
                            /\ proportional c.1 s h * s <= c.1 * h).
    { intros Hw. apply proportional_bounds; lia. }
    unfold inv_h. simpl.
    split; [reflexivity|]. split; [rewrite map_app; congruence|].
    split; [lia|]. exists res, tm, cols.
    split; [reflexivity|]. split; [reflexivity|]. split; [assumption|].
    split; [assumption|]. split; [assumption|].
    destruct ol as [cl|].
    + destruct Hlast as (pre & out & cols_l & -> & _ & _ & _ & _ & Hpre
                           & Hout & Hord).
      simpl in Hpre, Hout, Hord.
      split; [|split].
      * intros p. rewrite cover_app, Hpre, Hout. apply ind_split_h; lia.
      * intros p. rewrite (Hcov p Hpos). rect_eq.
      * intros Hw. specialize (Hord Hw). specialize (Hsh Hw). nia.
    + destruct Hlast as (-> & -> & ->).
      split; [|split].
      * intros p. simpl. replace (ini_y - ini_y) with 0 by lia.
        now rewrite ind_empty_h.
      * intros p. rewrite (Hcov p Hpos). rect_eq.
      * intros Hw. specialize (Hsh Hw). nia.
Qed.

(** The last iteration, strips varying in height. *)
Lemma gt_body_h_final (s w h ini_x ini_y x0 : Z) (n i : nat) (c : gt_child)
    (cols : list colour_t) (st : gt_state) (dsz : Z) (dcols : list colour_t) :
  0 < s -> w <= h -> (0 < n)%nat -> i = (n - 1)%nat ->
  kid_ok c cols ->
  inv_h s w h x0 ini_y dsz dcols st ->
  dsz + c.1 = s ->
  exists st', gt_body s w h ini_x ini_y n i c st = Return st' /\
    map snd (gt_result st') = dcols ++ cols /\
    forall p, cover p (gt_result st') = ind p (x0, ini_y, w, h).
Proof.
  intros Hs Hwh Hn Hi Hc Hinv Hsum.
  destruct st as [x y res [[ol k] yl]].
  destruct Hinv as (Hx & Hcols & Hdsz & Hlast). simpl in Hx, Hcols, Hlast.
  subst x. unfold gt_body.
  replace (w >? h) with false by (symmetry; rewrite Z.gtb_ltb; apply Z.ltb_ge; lia).
  replace (i <? n - 1)%nat with false by (symmetry; apply Nat.ltb_ge; lia).
  replace (i =? n - 1)%nat with true by (symmetry; apply Nat.eqb_eq; lia).
  pose proof Hc as (Hc0 & Hcz & Hcall).
  destruct (Hcall (x0, y, w, h - y + ini_y)) as (tm & Hrun & Htm & Hcov).
  rewrite Hrun. unfold mbind, result_bind. cbv beta iota zeta.
  case_nil tm.
  - (* the last subtree is empty: stretch the one recorded in [last_tree] *)
    assert (c.1 = 0) as Hz by (apply Hcz; now rewrite <- Htm).
    assert (cols = []) as -> by (now rewrite <- Htm).
    rewrite !app_nil_r. simpl.
    destruct ol as [cl|]; [|lia].
    destruct Hlast as (pre & out & cols_l & -> & -> & Hcl & Hclpos & Hout_cols
                         & Hpre & Hout & Hord).
    rewrite drop_last_app.
    2:{ intros ->. simpl in Hout_cols.
        now apply (kid_ok_cols_nonempty _ _ Hcl Hclpos). }
    destruct Hcl as (_ & _ & Hcall_l).
    destruct (Hcall_l (x0, yl, w, h - yl + ini_y)) as (tm' & Hrun' & Htm' & Hcov').
    unfold call_generate. simpl. rewrite Hrun'. eexists.
    split; [reflexivity|]. simpl. split.
    + rewrite <- Hcols, !map_app. congruence.
    + intros p. rewrite cover_app, Hpre, (Hcov' p Hclpos).
      apply ind_split_h; [|lia|lia].
      intros Hw. specialize (Hord Hw). nia.
  - assert (0 < c.1) as Hpos.
    { destruct (Z.eq_dec c.1 0) as [E|E]; [|lia].
      apply Hcz in E. rewrite E in Htm. now apply map_eq_nil in Htm. }
    simpl. rewrite drop_last_app by assumption.
    unfold call_generate. simpl. rewrite Hrun.
    eexists. split; [reflexivity|]. simpl. split.
    + rewrite map_app. congruence.
    + intros p. rewrite cover_app, (Hcov p Hpos).
      destruct ol as [cl|].
      * destruct Hlast as (pre & out & cols_l & -> & _ & _ & _ & _
                             & Hpre & Hout & Hord).
        rewrite cover_app, Hpre, Hout.
        rewrite (ind_split_h p x0 ini_y w yl (yl - ini_y) (y - yl) (y - ini_y))
          by lia.
        apply ind_split_h; [|lia|lia].
        intros Hw. specialize (Hord Hw). nia.
      * destruct Hlast as (-> & -> & ->). simpl. rect_eq.
Qed.

Lemma gt_loop_h (s w h ini_x ini_y x0 : Z) (n : nat) :
  0 < s -> w <= h ->
  forall (rest : list gt_child) (colss : list (list colour_t)),
    Forall2 kid_ok rest colss -> rest ≠ [] ->
    forall (st : gt_state) (dsz : Z) (dcols : list colour_t) (i : nat),
      inv_h s w h x0 ini_y dsz dcols st ->
      dsz + sum_kids rest = s ->
      (i + length rest = n)%nat ->
      exists st', gt_loop s w h ini_x ini_y n rest i st = Return st' /\
        map snd (gt_result st') = dcols ++ concat colss /\
        forall p, cover p (gt_result st') = ind p (x0, ini_y, w, h).
Proof.
  intros Hs Hwh rest colss Hall.
  induction Hall as [|c cols rest colss Hc Hall IH]; [contradiction|].
  intros _ st dsz dcols i Hinv Hsum Hlen. simpl gt_loop.
  change (sum_kids (c :: rest)) with (c.1 + sum_kids rest) in Hsum.
  change (length (c :: rest)) with (S (length rest)) in Hlen.
  destruct rest as [|c' rest].
  - apply Forall2_nil_inv_l in Hall as ->. simpl in Hsum, Hlen.
    destruct (gt_body_h_final s w h ini_x ini_y x0 n i c cols st dsz dcols)
      as (st' & Hrun & Hcols & Hcov); try assumption; try lia.
    rewrite Hrun. exists st'. simpl. rewrite app_nil_r. auto.
  - destruct (gt_body_h_step s w h ini_x ini_y x0 n i c cols st dsz dcols)
      as (st1 & Hrun & Hinv1); try assumption; [simpl in Hlen; lia|].
    rewrite Hrun. unfold mbind, result_bind.
    destruct (IH ltac:(discriminate) st1 (dsz + c.1) (dcols ++ cols) (S i))
      as (st' & Hrun' & Hcols & Hcov); try assumption; try lia.
    exists st'. split; [assumption|]. split; [|assumption].
    rewrite Hcols. simpl. now rewrite app_assoc.
Qed.
(** ** generate_treemap on a well-formed tree *)

Lemma sum_kids_map (f : tree -> rect -> result treemap) (l : list tree) :
  sum_kids (map (fun t => (tree_size t, f t)) l) = sum_sizes l.
Proof. induction l as [|t l IH]; simpl; [reflexivity|]. now rewrite IH. Qed.

Lemma concat_leaf_colours (l : list tree) :
  concat (map (fun t => map snd (positive_leaves t)) l)
  = map snd (flat_map positive_leaves l).
Proof.
  induction l as [|t l IH]; simpl; [reflexivity|].
  now rewrite map_app, IH.
Qed.

(** In every rectangle [generate_treemap] returns, for a well-formed tree,
    one rectangle per leaf of positive size, in order; and when the tree's
    size is positive, every pixel of the rectangle is in exactly one of
    them and no other pixel is in any. *)
Lemma generate_treemap_ok (t : tree) :
  well_formed t = true ->
  kid_ok (tree_size t, generate_treemap t) (map snd (positive_leaves t)).
Proof.
  induction t as [self root size col subtrees IH] using tree_ind.
  intros Hwf. pose proof (positive_leaves_nil _ Hwf) as Hnil.
  destruct (well_formed_inv _ _ _ _ _ Hwf) as (Hs & Hsum & Hall).
  unfold kid_ok. cbn [fst snd tree_size]. simpl tree_size in Hnil.
  split; [assumption|]. split.
  { rewrite Hnil. split; [now intros ->|apply map_eq_nil]. }
  intros r. cbn [generate_treemap].
  destruct (Z.eqb_spec size 0) as [Hz|Hnz].
  { exists []. split; [reflexivity|]. split; [|intros p Hp; lia].
    apply Hnil in Hz. now rewrite Hz. }
  destruct subtrees as [|t0 l0].
  { exists [(r, col)]. split; [reflexivity|]. simpl.
    destruct (Z.ltb_spec 0 size); [|lia].
    split; [reflexivity|]. intros p _. lia. }
  remember (t0 :: l0) as subtrees eqn:Esub.
  assert (Hne : subtrees ≠ []) by (subst; discriminate).
  replace (length subtrees =? 0)%nat with false
    by (subst; reflexivity).
  assert (Hcols : map snd (positive_leaves (Node self root size col subtrees))
                  = concat (map (fun t => map snd (positive_leaves t)) subtrees)).
  { rewrite concat_leaf_colours. subst. reflexivity. }
  rewrite Hcols. clear Hcols Hnil.
  assert (Hkids : Forall2 kid_ok
            (map (fun s => (tree_size s, generate_treemap s)) subtrees)
            (map (fun t => map snd (positive_leaves t)) subtrees)).
  { clear -IH Hall. induction subtrees as [|t l IHl]; simpl; constructor.
    - apply Forall_cons in IH as [IHt _]. apply Forall_cons in Hall as [Ht _].
      now apply IHt.
    - apply Forall_cons in IH as [_ IH]. apply Forall_cons in Hall as [_ Hall].
      now apply IHl. }
  assert (Hkne : map (fun s => (tree_size s, generate_treemap s)) subtrees ≠ []).
  { subst. discriminate. }
  specialize (Hsum Hne).
  destruct r as [[[x y] w] h].
  destruct (Z.lt_ge_cases h w) as [Hwh|Hwh].
  - destruct (gt_loop_v size w h x y y (length subtrees) ltac:(lia) Hwh _ _
                Hkids Hkne (GtState x y [] (None, 0%nat, 0)) 0 [] 0%nat)
      as (st' & Hrun & Hc & Hcov).
    + repeat split; simpl; lia.
    + rewrite sum_kids_map. lia.
    + now rewrite length_map.
    + rewrite Hrun. exists (gt_result st'). split; [reflexivity|].
      split; [assumption|]. intros p _. apply Hcov.
  - destruct (gt_loop_h size w h x y x (length subtrees) ltac:(lia) Hwh _ _
                Hkids Hkne (GtState x y [] (None, 0%nat, 0)) 0 [] 0%nat)
      as (st' & Hrun & Hc & Hcov).
    + repeat split; simpl; lia.
    + rewrite sum_kids_map. lia.
    + now rewrite length_map.
    + rewrite Hrun. exists (gt_result st'). split; [reflexivity|].
      split; [assumption|]. intros p _. apply Hcov.
Qed.

Lemma ind_le_1 (p : pos) (r : rect) : (ind p r <= 1)%nat.
Proof. unfold ind. destruct (inside p r); lia. Qed.

Lemma cover_pos (p : pos) (tm : treemap) :
  (0 < cover p tm)%nat <-> exists r, r ∈ map fst tm /\ inside p r = true.
Proof.
  induction tm as [|rc tm IH]; simpl.
  - split; [lia|]. intros (r & Hr & _). inversion Hr.
  - unfold ind at 1. destruct (inside p rc.1) eqn:E.
    + split; [|lia]. intros _. exists rc.1. split; [left|assumption].
    + rewrite Nat.add_0_l, IH. split.
      * intros (r & Hr & Hin). exists r. split; [now right|assumption].
      * intros (r & Hr & Hin). apply elem_of_cons in Hr as [->|Hr].
        -- congruence.
        -- eauto.
Qed.

Lemma cover_two (p : pos) (tm : treemap) (i j : nat) (ri rj : rect) :
  (i < j)%nat -> map fst tm !! i = Some ri -> map fst tm !! j = Some rj ->
  inside p ri = true -> inside p rj = true -> (2 <= cover p tm)%nat.
Proof.
  revert i j. induction tm as [|rc tm IH]; intros i j Hij Hi Hj Hri Hrj;
    [discriminate|].
  destruct j as [|j]; [lia|]. simpl in Hj. simpl cover.
  destruct i as [|i].
  - simpl in Hi. injection Hi as ->. unfold ind at 1. rewrite Hri.
    assert (0 < cover p tm)%nat; [|lia].
    apply cover_pos. exists rj. split; [|assumption].
    eapply list_elem_of_lookup_2. eassumption.
  - simpl in Hi. specialize (IH i j ltac:(lia) Hi Hj Hri Hrj). lia.
Qed.

(** Holding each pixel of [r] once, and no other pixel, is tiling [r]. *)
Lemma cover_tiles (r : rect) (tm : treemap) :
  (forall p, cover p tm = ind p r) -> tiles r (map fst tm).
Proof.
  intros Hcov. split.
  - intros p. rewrite <- cover_pos, Hcov. unfold ind.
    destruct (inside p r); split; intros; try lia; try discriminate;
      reflexivity.
  - intros i j ri rj p Hij Hi Hj Hri.
    destruct (inside p rj) eqn:Hrj; [|reflexivity].
    pose proof (ind_le_1 p r) as Hle. rewrite <- Hcov in Hle.
    destruct (Nat.lt_total i j) as [Hlt|[Heq|Hlt]]; [|contradiction|].
    + pose proof (cover_two p tm i j ri rj Hlt Hi Hj Hri Hrj). lia.
    + pose proof (cover_two p tm j i rj ri Hlt Hj Hi Hrj Hri). lia.
Qed.



(** ** The loop of leaf_at *)

Ltac case_within :=
  unfold within; simpl;
  repeat match goal with
  | |- context [?a <=? ?b] => destruct (Z.leb_spec a b)
  end; simpl; try reflexivity; try discriminate; try lia.

(** A strip inside the rectangle holds no point that the rectangle leaves
    out. *)
Lemma within_strip_v (p : pos) (ini_x y w h x e : Z) :
  (0 <= h -> ini_x <= x /\ x + e <= ini_x + w) ->
  within p (ini_x, y, w, h) = false -> within p (x, y, e, h) = false.
Proof. intros H. case_within. Qed.

Lemma within_strip_h (p : pos) (x ini_y w h y e : Z) :
  (0 <= w -> ini_y <= y /\ y + e <= ini_y + h) ->
  within p (x, ini_y, w, h) = false -> within p (x, y, w, e) = false.
Proof. intros H. case_within. Qed.

Lemma sum_la_kids_nonneg (l : list la_child) (leavess : list (list addr)) :
  Forall2 la_kid_ok l leavess -> 0 <= sum_la_kids l.
Proof.
  induction 1 as [|c lv l lvs Hc _ IH]; simpl; [lia|].
  destruct Hc as [Hc _]. lia.
Qed.

Lemma within_true_of_not_false (p : pos) (r : rect) :
  (within p r = false -> False) -> within p r = true.
Proof. destruct (within p r); [reflexivity|]. intros H. now destruct H. Qed.

(** An iteration that is not the last one, strips varying in width. *)
Lemma la_body_v_step (s w h ini_x ini_y y0 : Z) (n i : nat) (p : pos)
    (c : la_child) (leaves all : list addr) (st : la_state) (dsz rest : Z) :
  0 < s -> h < w -> (i < n - 1)%nat ->
  la_kid_ok c leaves -> leaves ⊆ all ->
  0 <= rest -> dsz + c.1 + rest = s ->
  la_inv_v s w h ini_x y0 all dsz st ->
  exists st', la_body s w h ini_x ini_y n i p c st = Return st' /\
    la_step_post_v s w h ini_x y0 all (dsz + c.1) p st'.
Proof.
  intros Hs Hwh Hi Hc Hsub Hrest Hsum Hinv.
  destruct st as [x y [[ol xl] yl] res].
  destruct Hinv as (Hy & Hres & Hdsz & Hx & Hlast).
  simpl in Hy, Hres, Hx, Hlast. subst y res. unfold la_body.
  replace (w >? h) with true by (symmetry; apply Z.gtb_lt; lia).
  replace (i =? n - 1)%nat with false by (symmetry; apply Nat.eqb_neq; lia).
  pose proof Hc as (Hc0 & Hcall).
  destruct (Z.gtb_spec c.1 0) as [Hpos|Hzero].
  - destruct (Hcall p (x, y0, proportional c.1 s w, h))
      as (res & Hrun & Hout & Hin).
    rewrite Hrun. unfold mbind, result_bind. cbv beta iota zeta.
    eexists. split; [reflexivity|].
    assert (Hsh : 0 <= h -> 0 <= proportional c.1 s w
                            /\ proportional c.1 s w * s <= c.1 * w).
    { intros Hh. apply proportional_bounds; lia. }
    destruct res as [a|].
    + right. exists a. split; [reflexivity|]. split; [auto|].
      apply within_true_of_not_false. intros Hfalse.
      assert (Some a = None) as E; [|discriminate].
      apply Hout. revert Hfalse. apply within_strip_v.
      intros Hh. specialize (Hx Hh). specialize (Hsh Hh). nia.
    + left. unfold la_inv_v. simpl.
      split; [reflexivity|]. split; [reflexivity|]. split; [lia|].
      split.
      * intros Hh. specialize (Hx Hh). specialize (Hsh Hh). nia.
      * exists leaves. split; [assumption|]. split; [assumption|].
        split; [reflexivity|].
        intros Hh. specialize (Hx Hh). specialize (Hsh Hh). nia.
  - assert (c.1 = 0) as Hz by lia.
    unfold mbind, result_bind, mret, result_ret. cbv beta iota zeta.
    eexists. split; [reflexivity|]. left.
    rewrite Hz, proportional_zero, !Z.add_0_r.
    unfold la_inv_v. simpl.
    split; [reflexivity|]. split; [reflexivity|]. split; [assumption|].
    split; [assumption|].
    destruct ol as [cl|]; [|assumption].
    destruct Hlast as (lv & Hcl & Hlv & Hyl & Hxl).
    exists lv. auto.
Qed.

(** The last iteration, strips varying in width: the answer is that of the
    last non-empty subtree in its strip stretched to the far edge. *)
Lemma la_body_v_final (s w h ini_x ini_y y0 : Z) (n i : nat) (p : pos)
    (c : la_child) (leaves all : list addr) (st : la_state) (dsz : Z) :
  0 < s -> h < w -> (0 < n)%nat -> i = (n - 1)%nat ->
  la_kid_ok c leaves -> leaves ⊆ all ->
  dsz + c.1 = s ->
  la_inv_v s w h ini_x y0 all dsz st ->
  exists st', la_body s w h ini_x ini_y n i p c st = Return st' /\
    (within p (ini_x, y0, w, h) = false -> la_result st' = None) /\
    (forall a, la_result st' = Some a -> a ∈ all).
Proof.
  intros Hs Hwh Hn Hi Hc Hsub Hsum Hinv.
  destruct st as [x y [[ol xl] yl] res].
  destruct Hinv as (Hy & Hres & Hdsz & Hx & Hlast).
  simpl in Hy, Hres, Hx, Hlast. subst y res. unfold la_body.
  replace (w >? h) with true by (symmetry; apply Z.gtb_lt; lia).
  replace (i =? n - 1)%nat with true by (symmetry; apply Nat.eqb_eq; lia).
  pose proof Hc as (Hc0 & Hcall).
  destruct (Z.gtb_spec c.1 0) as [Hpos|Hzero].
  - destruct (Hcall p (x, y0, proportional c.1 s w, h)) as (res1 & Hrun1 & _).
    rewrite Hrun1. unfold mbind, result_bind. cbv beta iota zeta.
    unfold call_leaf_at. simpl.
    destruct (Hcall p (x, y0, w - x + ini_x, h)) as (res & Hrun & Hout & Hin).
    rewrite Hrun. eexists. split; [reflexivity|]. simpl. split.
    + intros Hfalse. apply Hout. revert Hfalse. apply within_strip_v.
      intros Hh. specialize (Hx Hh). lia.
    + intros a Ha. apply Hsub. now apply Hin.
  - assert (c.1 = 0) as Hz by lia.
    unfold mbind, result_bind, mret, result_ret. cbv beta iota zeta.
    unfold call_leaf_at. simpl.
    destruct ol as [cl|]; [|lia].
    destruct Hlast as (lv & (Hcl0 & Hcall_l) & Hlv & -> & Hxl).
    destruct (Hcall_l p (xl, y0, w - xl + ini_x, h)) as (res & Hrun & Hout & Hin).
    rewrite Hrun. eexists. split; [reflexivity|]. simpl. split.
    + intros Hfalse. apply Hout. revert Hfalse. apply within_strip_v.
      intros Hh. specialize (Hxl Hh). lia.
    + intros a Ha. apply Hlv. now apply Hin.
Qed.

Lemma la_loop_v (s w h ini_x ini_y y0 : Z) (n : nat) (p : pos)
    (all : list addr) :
  0 < s -> h < w ->
  forall (rest : list la_child) (leavess : list (list addr)),
    Forall2 la_kid_ok rest leavess -> rest ≠ [] ->
    Forall (fun lv => lv ⊆ all) leavess ->
    forall (st : la_state) (dsz : Z) (i : nat),
      la_inv_v s w h ini_x y0 all dsz st ->
      dsz + sum_la_kids rest = s ->
      (i + length rest = n)%nat ->
      exists res, la_loop s w h ini_x ini_y n p rest i st = Return res /\
        (within p (ini_x, y0, w, h) = false -> res = None) /\
        (forall a, res = Some a -> a ∈ all).
Proof.
  intros Hs Hwh rest leavess Hall.
  induction Hall as [|c lv rest leavess Hc Hall IH]; [contradiction|].
  intros _ Hsub st dsz i Hinv Hsum Hlen.
  apply Forall_cons in Hsub as [Hlv Hsub].
  change (sum_la_kids (c :: rest)) with (c.1 + sum_la_kids rest) in Hsum.
  change (length (c :: rest)) with (S (length rest)) in Hlen.
  pose proof (sum_la_kids_nonneg _ _ Hall) as Hnonneg.
  pose proof Hinv as (_ & Hnone & _). simpl la_loop. rewrite Hnone.
  destruct rest as [|c' rest].
  - apply Forall2_nil_inv_l in Hall as ->. simpl in Hsum, Hlen.
    destruct (la_body_v_final s w h ini_x ini_y y0 n i p c lv all st dsz)
      as (st' & Hrun & Hout & Hin); try assumption; try lia.
    rewrite Hrun. exists (la_result st'). simpl. auto.
  - destruct (la_body_v_step s w h ini_x ini_y y0 n i p c lv all st dsz
                (sum_la_kids (c' :: rest)))
      as (st1 & Hrun & Hpost); try assumption; try lia.
    { simpl in Hlen. lia. }
    rewrite Hrun. unfold mbind, result_bind.
    destruct Hpost as [Hinv1|(a & Ha & Hain & Hwithin)].
    + apply (IH ltac:(discriminate) Hsub st1 (dsz + c.1) (S i));
        try assumption; lia.
    + exists (Some a). cbn [la_loop]. rewrite Ha. split; [reflexivity|]. split.
      * intros Hfalse. congruence.
      * intros a' [= <-]. assumption.
Qed.

(** An iteration that is not the last one, strips varying in height. *)
Lemma la_body_h_step (s w h ini_x ini_y x0 : Z) (n i : nat) (p : pos)
    (c : la_child) (leaves all : list addr) (st : la_state) (dsz rest : Z) :
  0 < s -> w <= h -> (i < n - 1)%nat ->
  la_kid_ok c leaves -> leaves ⊆ all ->
  0 <= rest -> dsz + c.1 + rest = s ->
  la_inv_h s w h x0 ini_y all dsz st ->
  exists st', la_body s w h ini_x ini_y n i p c st = Return st' /\
    la_step_post_h s w h x0 ini_y all (dsz + c.1) p st'.
Proof.
  intros Hs Hwh Hi Hc Hsub Hrest Hsum Hinv.
  destruct st as [x y [[ol xl] yl] res].
  destruct Hinv as (Hx & Hres & Hdsz & Hy & Hlast).
  simpl in Hx, Hres, Hy, Hlast. subst x res. unfold la_body.
  replace (w >? h) with false
    by (symmetry; rewrite Z.gtb_ltb; apply Z.ltb_ge; lia).
  replace (i =? n - 1)%nat with false by (symmetry; apply Nat.eqb_neq; lia).
  pose proof Hc as (Hc0 & Hcall).
  destruct (Z.gtb_spec c.1 0) as [Hpos|Hzero].
  - destruct (Hcall p (x0, y, w, proportional c.1 s h))
      as (res & Hrun & Hout & Hin).
    rewrite Hrun. unfold mbind, result_bind. cbv beta iota zeta.
    eexists. split; [reflexivity|].
    assert (Hsh : 0 <= w -> 0 <= proportional c.1 s h
                            /\ proportional c.1 s h * s <= c.1 * h).
    { intros Hw. apply proportional_bounds; lia. }
    destruct res as [a|].
    + right. exists a. split; [reflexivity|]. split; [auto|].
      apply within_true_of_not_false. intros Hfalse.
      assert (Some a = None) as E; [|discriminate].
      apply Hout. revert Hfalse. apply within_strip_h.
      intros Hw. specialize (Hy Hw). specialize (Hsh Hw). nia.
    + left. unfold la_inv_h. simpl.
      split; [reflexivity|]. split; [reflexivity|]. split; [lia|].
      split.
      * intros Hw. specialize (Hy Hw). specialize (Hsh Hw). nia.
      * exists leaves. split; [assumption|]. split; [assumption|].
        split; [reflexivity|].
        intros Hw. specialize (Hy Hw). specialize (Hsh Hw). nia.
  - assert (c.1 = 0) as Hz by lia.
    unfold mbind, result_bind, mret, result_ret. cbv beta iota zeta.
    eexists. split; [reflexivity|]. left.
    rewrite Hz, proportional_zero, !Z.add_0_r.
    unfold la_inv_h. simpl.
    split; [reflexivity|]. split; [reflexivity|]. split; [assumption|].
    split; [assumption|].
    destruct ol as [cl|]; [|assumption].
    destruct Hlast as (lv & Hcl & Hlv & Hxl & Hyl).
    exists lv. auto.
Qed.

(** The last iteration, strips varying in height. *)
Lemma la_body_h_final (s w h ini_x ini_y x0 : Z) (n i : nat) (p : pos)
    (c : la_child) (leaves all : list addr) (st : la_state) (dsz : Z) :
  0 < s -> w <= h -> (0 < n)%nat -> i = (n - 1)%nat ->
  la_kid_ok c leaves -> leaves ⊆ all ->
  dsz + c.1 = s ->
  la_inv_h s w h x0 ini_y all dsz st ->
  exists st', la_body s w h ini_x ini_y n i p c st = Return st' /\
    (within p (x0, ini_y, w, h) = false -> la_result st' = None) /\
    (forall a, la_result st' = Some a -> a ∈ all).
Proof.
  intros Hs Hwh Hn Hi Hc Hsub Hsum Hinv.
  destruct st as [x y [[ol xl] yl] res].
  destruct Hinv as (Hx & Hres & Hdsz & Hy & Hlast).
  simpl in Hx, Hres, Hy, Hlast. subst x res. unfold la_body.
  replace (w >? h) with false
    by (symmetry; rewrite Z.gtb_ltb; apply Z.ltb_ge; lia).
  replace (i =? n - 1)%nat with true by (symmetry; apply Nat.eqb_eq; lia).
  pose proof Hc as (Hc0 & Hcall).
  destruct (Z.gtb_spec c.1 0) as [Hpos|Hzero].
  - destruct (Hcall p (x0, y, w, proportional c.1 s h)) as (res1 & Hrun1 & _).
    rewrite Hrun1. unfold mbind, result_bind. cbv beta iota zeta.
    unfold call_leaf_at. simpl.
    destruct (Hcall p (x0, y, w, h - y + ini_y)) as (res & Hrun & Hout & Hin).
    rewrite Hrun. eexists. split; [reflexivity|]. simpl. split.
    + intros Hfalse. apply Hout. revert Hfalse. apply within_strip_h.
      intros Hw. specialize (Hy Hw). lia.
    + intros a Ha. apply Hsub. now apply Hin.
  - assert (c.1 = 0) as Hz by lia.
    unfold mbind, result_bind, mret, result_ret. cbv beta iota zeta.
    unfold call_leaf_at. simpl.
    destruct ol as [cl|]; [|lia].
    destruct Hlast as (lv & (Hcl0 & Hcall_l) & Hlv & -> & Hyl).
    destruct (Hcall_l p (x0, yl, w, h - yl + ini_y)) as (res & Hrun & Hout & Hin).
    rewrite Hrun. eexists. split; [reflexivity|]. simpl. split.
    + intros Hfalse. apply Hout. revert Hfalse. apply within_strip_h.
      intros Hw. specialize (Hyl Hw). lia.
    + intros a Ha. apply Hlv. now apply Hin.
Qed.

Lemma la_loop_h (s w h ini_x ini_y x0 : Z) (n : nat) (p : pos)
    (all : list addr) :
  0 < s -> w <= h ->
  forall (rest : list la_child) (leavess : list (list addr)),
    Forall2 la_kid_ok rest leavess -> rest ≠ [] ->
    Forall (fun lv => lv ⊆ all) leavess ->
    forall (st : la_state) (dsz : Z) (i : nat),
      la_inv_h s w h x0 ini_y all dsz st ->
      dsz + sum_la_kids rest = s ->
      (i + length rest = n)%nat ->
      exists res, la_loop s w h ini_x ini_y n p rest i st = Return res /\
        (within p (x0, ini_y, w, h) = false -> res = None) /\
        (forall a, res = Some a -> a ∈ all).
Proof.
  intros Hs Hwh rest leavess Hall.
  induction Hall as [|c lv rest leavess Hc Hall IH]; [contradiction|].
  intros _ Hsub st dsz i Hinv Hsum Hlen.
  apply Forall_cons in Hsub as [Hlv Hsub].
  change (sum_la_kids (c :: rest)) with (c.1 + sum_la_kids rest) in Hsum.
  change (length (c :: rest)) with (S (length rest)) in Hlen.
  pose proof (sum_la_kids_nonneg _ _ Hall) as Hnonneg.
  pose proof Hinv as (_ & Hnone & _). simpl la_loop. rewrite Hnone.
  destruct rest as [|c' rest].
  - apply Forall2_nil_inv_l in Hall as ->. simpl in Hsum, Hlen.
    destruct (la_body_h_final s w h ini_x ini_y x0 n i p c lv all st dsz)
      as (st' & Hrun & Hout & Hin); try assumption; try lia.
    rewrite Hrun. exists (la_result st'). simpl. auto.
  - destruct (la_body_h_step s w h ini_x ini_y x0 n i p c lv all st dsz
                (sum_la_kids (c' :: rest)))
      as (st1 & Hrun & Hpost); try assumption; try lia.
    { simpl in Hlen. lia. }
    rewrite Hrun. unfold mbind, result_bind.
    destruct Hpost as [Hinv1|(a & Ha & Hain & Hwithin)].
    + apply (IH ltac:(discriminate) Hsub st1 (dsz + c.1) (S i));
        try assumption; lia.
    + exists (Some a). cbn [la_loop]. rewrite Ha. split; [reflexivity|]. split.
      * intros Hfalse. congruence.
      * intros a' [= <-]. assumption.
Qed.

(** ** leaf_at on a well-formed tree *)

Lemma sum_la_kids_map (f : tree -> pos -> rect -> result (option addr))
    (l : list tree) :
  sum_la_kids (map (fun t => (tree_size t, f t)) l) = sum_sizes l.
Proof. induction l as [|t l IH]; simpl; [reflexivity|]. now rewrite IH. Qed.

Lemma leaf_at_ok (t : tree) :
  well_formed t = true ->
  la_kid_ok (tree_size t, leaf_at t) (map fst (positive_leaves t)).
Proof.
  induction t as [self root size col subtrees IH] using tree_ind.
  intros Hwf.
  destruct (well_formed_inv _ _ _ _ _ Hwf) as (Hs & Hsum & Hall).
  unfold la_kid_ok. cbn [fst snd tree_size].
  split; [assumption|]. intros p r. cbn [leaf_at].
  destruct r as [[[x y] w] h].
  destruct (Z.eqb_spec size 0) as [Hz|Hnz].
  { exists None. split; [reflexivity|]. split; [reflexivity|]. discriminate. }
  destruct subtrees as [|t0 l0].
  { simpl. fold (within p (x, y, w, h)).
    destruct (within p (x, y, w, h)) eqn:E.
    - exists (Some self). split; [reflexivity|]. split; [discriminate|].
      intros a [= <-]. destruct (Z.ltb_spec 0 size); [|lia]. now left.
    - exists None. split; [reflexivity|]. split; [reflexivity|]. discriminate. }
  remember (t0 :: l0) as subtrees eqn:Esub.
  assert (Hne : subtrees ≠ []) by (subst; discriminate).
  replace (length subtrees =? 0)%nat with false by (subst; reflexivity).
  assert (Hleaves : map fst (positive_leaves (Node self root size col subtrees))
                    = map fst (flat_map positive_leaves subtrees)).
  { subst. reflexivity. }
  rewrite Hleaves. clear Hleaves.
  set (all := map fst (flat_map positive_leaves subtrees)).
  assert (Hkids : Forall2 la_kid_ok
            (map (fun s => (tree_size s, leaf_at s)) subtrees)
            (map (fun t => map fst (positive_leaves t)) subtrees)).
  { clear -IH Hall. induction subtrees as [|t l IHl]; simpl; constructor.
    - apply Forall_cons in IH as [IHt _]. apply Forall_cons in Hall as [Ht _].
      now apply IHt.
    - apply Forall_cons in IH as [_ IH]. apply Forall_cons in Hall as [_ Hall].
      now apply IHl. }
  assert (Hsubs : Forall (fun lv => lv ⊆ all)
                    (map (fun t => map fst (positive_leaves t)) subtrees)).
  { apply Forall_forall. intros lv Hlv. apply list_elem_of_fmap in Hlv
      as (t & -> & Ht).
    intros a Ha. unfold all. apply list_elem_of_fmap in Ha as ([a' c] & -> & Ha).
    apply list_elem_of_fmap. exists (a', c). split; [reflexivity|].
    apply list_elem_of_In, in_flat_map. exists t.
    split; now apply list_elem_of_In. }
  assert (Hkne : map (fun s => (tree_size s, leaf_at s)) subtrees ≠ []).
  { subst. discriminate. }
  specialize (Hsum Hne).
  destruct (Z.lt_ge_cases h w) as [Hwh|Hwh].
  - apply (la_loop_v size w h x y y (length subtrees) p all ltac:(lia) Hwh _ _
             Hkids Hkne Hsubs (LaState x y (None, 0, 0) None) 0 0%nat).
    + unfold la_inv_v. simpl. repeat split; lia.
    + rewrite sum_la_kids_map. lia.
    + now rewrite length_map.
  - apply (la_loop_h size w h x y x (length subtrees) p all ltac:(lia) Hwh _ _
             Hkids Hkne Hsubs (LaState x y (None, 0, 0) None) 0 0%nat).
    + unfold la_inv_h. simpl. repeat split; lia.
    + rewrite sum_la_kids_map. lia.
    + now rewrite length_map.
Qed.





(** ** leaf_at against generate_treemap *)

Lemma first_hit_app (p : pos) (l1 l2 : list (addr * colour_t))
    (t1 t2 : treemap) :
  length t1 = length l1 ->
  first_hit p (l1 ++ l2) (t1 ++ t2)
  = match first_hit p l1 t1 with
    | Some a => Some a
    | None => first_hit p l2 t2
    end.
Proof.
  revert t1. induction l1 as [|[a c] l1 IH]; intros [|[r c'] t1] Hlen;
    try discriminate; [reflexivity|].
  simpl. destruct (within p r); [reflexivity|]. apply IH. simpl in Hlen. lia.
Qed.

Lemma joint_ok_nonempty (t : tree) (r : rect) (tm : treemap) :
  joint_ok t -> 0 < tree_size t -> generate_treemap t r = Return tm ->
  length tm = length (positive_leaves t) -> tm ≠ [].
Proof.
  intros (_ & Hz & _) Hpos _ Hlen ->. simpl in Hlen.
  symmetry in Hlen. apply length_zero_iff_nil in Hlen. apply Hz in Hlen. lia.
Qed.

Lemma joint_ok_empty (t : tree) (tm : treemap) :
  joint_ok t -> tree_size t = 0 ->
  length tm = length (positive_leaves t) -> tm = [].
Proof.
  intros (_ & Hz & _) Hzero Hlen. apply Hz in Hzero. rewrite Hzero in Hlen.
  now apply length_zero_iff_nil in Hlen.
Qed.

Lemma gt_loop_cons (s w h ini_x ini_y : Z) (n i : nat) (c : gt_child)
    (rest : list gt_child) (st : gt_state) :
  gt_loop s w h ini_x ini_y n (c :: rest) i st
  = gt_body s w h ini_x ini_y n i c st
    ≫= fun st' => gt_loop s w h ini_x ini_y n rest (S i) st'.
Proof. reflexivity. Qed.

Lemma la_loop_cons (s w h ini_x ini_y : Z) (n i : nat) (p : pos)
    (c : la_child) (rest : list la_child) (x y : Z)
    (last : option la_child * Z * Z) :
  la_loop s w h ini_x ini_y n p (c :: rest) i (LaState x y last None)
  = la_body s w h ini_x ini_y n i p c (LaState x y last None)
    ≫= fun st' => la_loop s w h ini_x ini_y n p rest (S i) st'.
Proof. reflexivity. Qed.

Lemma la_loop_found (s w h ini_x ini_y : Z) (n i : nat) (p : pos)
    (c : la_child) (rest : list la_child) (x y : Z)
    (last : option la_child * Z * Z) (a : addr) :
  la_loop s w h ini_x ini_y n p (c :: rest) i (LaState x y last (Some a))
  = Return (Some a).
Proof. reflexivity. Qed.

(** Both loops, strips varying in width, when the last subtree is not empty:
    [generate_treemap] appends rectangles [tm], and [leaf_at] answers the
    first leaf that [tm] puts around [p]. *)
Lemma joint_loop_v (s w h ini_x ini_y : Z) (n : nat) (p : pos) :
  h < w ->
  forall ts : list tree,
    Forall joint_ok ts ->
    (exists tl, last ts = Some tl /\ 0 < tree_size tl) ->
    forall (x y : Z) (res : treemap) (lastg : option gt_child * nat * Z)
           (i : nat),
      (i + length ts = n)%nat ->
      exists tm,
        (exists st', gt_loop s w h ini_x ini_y n (gt_kids ts) i
                       (GtState x y res lastg) = Return st'
                     /\ gt_result st' = res ++ tm) /\
        length tm = length (flat_map positive_leaves ts) /\
        forall lastl : option la_child * Z * Z,
          la_loop s w h ini_x ini_y n p (la_kids ts) i
            (LaState x y lastl None)
          = Return (first_hit p (flat_map positive_leaves ts) tm).
Proof.
  intros Hwh ts Hall.
  induction Hall as [|t ts Ht Hall IH]; intros (tl & Hlast & Htl);
    [discriminate|].
  intros x y res lastg i Hlen.
  change (length (t :: ts)) with (S (length ts)) in Hlen.
  pose proof Ht as (Ht0 & Htz & Hcall).
  destruct ts as [|t' ts].
  - (* the last subtree: it is not empty, and takes the remaining width *)
    simpl in Hlast. injection Hlast as <-.
    destruct (Hcall (x, y, w - x + ini_x, h)) as (tm & Hgen & Hlentm & Hleaf).
    pose proof (joint_ok_nonempty _ _ _ Ht Htl Hgen Hlentm) as Htm.
    exists tm. split; [|split].
    + change (gt_kids (t :: ?l)) with ((tree_size t, generate_treemap t) :: gt_kids l).
      rewrite gt_loop_cons. unfold gt_body. cbn [fst snd].
      replace (w >? h) with true by (symmetry; apply Z.gtb_lt; lia).
      replace (i <? n - 1)%nat with false
        by (symmetry; apply Nat.ltb_ge; simpl in Hlen; lia).
      replace (i =? n - 1)%nat with true
        by (symmetry; apply Nat.eqb_eq; simpl in Hlen; lia).
      rewrite Hgen. unfold mbind, result_bind. cbv beta iota zeta.
      case_nil tm; [contradiction|].
      cbn [fst snd]. rewrite drop_last_app by assumption.
      unfold call_generate. cbn [fst snd]. rewrite Hgen.
      eexists. split; reflexivity.
    + simpl. now rewrite app_nil_r.
    + intros lastl.
      change (la_kids [t]) with [(tree_size t, leaf_at t)].
      rewrite la_loop_cons. unfold la_body. cbn [fst snd].
      replace (w >? h) with true by (symmetry; apply Z.gtb_lt; lia).
      replace (i =? n - 1)%nat with true
        by (symmetry; apply Nat.eqb_eq; simpl in Hlen; lia).
      replace (tree_size t >? 0) with true by (symmetry; apply Z.gtb_lt; lia).
      destruct (Hcall (x, y, proportional (tree_size t) s w, h))
        as (tm1 & _ & _ & Hleaf1).
      rewrite Hleaf1. unfold mbind, result_bind. cbv beta iota zeta.
      unfold call_leaf_at. cbn [fst snd]. rewrite Hleaf.
      simpl. now rewrite app_nil_r.
  - (* a subtree that is not the last one *)
    assert (Hlast' : exists tl', last (t' :: ts) = Some tl' /\ 0 < tree_size tl').
    { exists tl. split; [|assumption]. now rewrite last_cons_cons in Hlast. }
    destruct (Hcall (x, y, proportional (tree_size t) s w, h))
      as (tm & Hgen & Hlentm & Hleaf).
    assert (Hbody : exists lastg',
              gt_body s w h ini_x ini_y n i (tree_size t, generate_treemap t)
                (GtState x y res lastg)
              = Return (GtState (x + proportional (tree_size t) s w) y
                          (res ++ tm) lastg')).
    { unfold gt_body. cbn [fst snd].
      replace (w >? h) with true by (symmetry; apply Z.gtb_lt; lia).
      replace (i <? n - 1)%nat with true
        by (symmetry; apply Nat.ltb_lt; simpl in Hlen; lia).
      replace (i =? n - 1)%nat with false
        by (symmetry; apply Nat.eqb_neq; simpl in Hlen; lia).
      rewrite Hgen. unfold mbind, result_bind. cbv beta iota zeta.
      eexists. reflexivity. }
    destruct Hbody as (lastg' & Hbody).
    destruct (IH Hlast' (x + proportional (tree_size t) s w) y (res ++ tm)
                lastg' (S i) ltac:(lia))
      as (tm' & (st' & Hrun & Hres) & Hlen' & Hla).
    exists (tm ++ tm'). split; [|split].
    + change (gt_kids (t :: ?l))
        with ((tree_size t, generate_treemap t) :: gt_kids l).
      rewrite gt_loop_cons, Hbody. unfold mbind, result_bind. rewrite Hrun.
      eexists. split; [reflexivity|]. now rewrite Hres, app_assoc.
    + change (flat_map positive_leaves (t :: t' :: ts))
        with (positive_leaves t ++ flat_map positive_leaves (t' :: ts)).
      rewrite !length_app. lia.
    + intros lastl.
      change (flat_map positive_leaves (t :: t' :: ts))
        with (positive_leaves t ++ flat_map positive_leaves (t' :: ts)).
      rewrite first_hit_app by assumption.
      change (la_kids (t :: t' :: ts))
        with ((tree_size t, leaf_at t) :: la_kids (t' :: ts)).
      rewrite la_loop_cons. unfold la_body. cbn [fst snd].
      replace (w >? h) with true by (symmetry; apply Z.gtb_lt; lia).
      replace (i =? n - 1)%nat with false
        by (symmetry; apply Nat.eqb_neq; simpl in Hlen; lia).
      destruct (Z.gtb_spec (tree_size t) 0) as [Hpos|Hzero].
      * rewrite Hleaf. unfold mbind, result_bind. cbv beta iota zeta.
        destruct (first_hit p (positive_leaves t) tm) as [a|].
        -- reflexivity.
        -- apply Hla.
      * assert (tree_size t = 0) as Hz by lia.
        pose proof (joint_ok_empty _ _ Ht Hz Hlentm) as ->.
        unfold mbind, result_bind, mret, result_ret. cbv beta iota zeta.
        apply Htz in Hz. rewrite Hz. simpl first_hit.
        apply Hla.
Qed.
(** Both loops, strips varying in height, when the last subtree is not empty:
    [generate_treemap] appends rectangles [tm], and [leaf_at] answers the
    first leaf that [tm] puts around [p]. *)
Lemma joint_loop_h (s w h ini_x ini_y : Z) (n : nat) (p : pos) :
  w <= h ->
  forall ts : list tree,
    Forall joint_ok ts ->
    (exists tl, last ts = Some tl /\ 0 < tree_size tl) ->
    forall (x y : Z) (res : treemap) (lastg : option gt_child * nat * Z)
           (i : nat),
      (i + length ts = n)%nat ->
      exists tm,
        (exists st', gt_loop s w h ini_x ini_y n (gt_kids ts) i
                       (GtState x y res lastg) = Return st'
                     /\ gt_result st' = res ++ tm) /\
        length tm = length (flat_map positive_leaves ts) /\
        forall lastl : option la_child * Z * Z,
          la_loop s w h ini_x ini_y n p (la_kids ts) i
            (LaState x y lastl None)
          = Return (first_hit p (flat_map positive_leaves ts) tm).
Proof.
  intros Hwh ts Hall.
  induction Hall as [|t ts Ht Hall IH]; intros (tl & Hlast & Htl);
    [discriminate|].
  intros x y res lastg i Hlen.
  change (length (t :: ts)) with (S (length ts)) in Hlen.
  pose proof Ht as (Ht0 & Htz & Hcall).
  destruct ts as [|t' ts].
  - (* the last subtree: it is not empty, and takes the remaining height *)
    simpl in Hlast. injection Hlast as <-.
    destruct (Hcall (x, y, w, h - y + ini_y)) as (tm & Hgen & Hlentm & Hleaf).
    pose proof (joint_ok_nonempty _ _ _ Ht Htl Hgen Hlentm) as Htm.
    exists tm. split; [|split].
    + change (gt_kids (t :: ?l)) with ((tree_size t, generate_treemap t) :: gt_kids l).
      rewrite gt_loop_cons. unfold gt_body. cbn [fst snd].
      replace (w >? h) with false
        by (symmetry; rewrite Z.gtb_ltb; apply Z.ltb_ge; lia).
      replace (i <? n - 1)%nat with false
        by (symmetry; apply Nat.ltb_ge; simpl in Hlen; lia).
      replace (i =? n - 1)%nat with true
        by (symmetry; apply Nat.eqb_eq; simpl in Hlen; lia).
      rewrite Hgen. unfold mbind, result_bind. cbv beta iota zeta.
      case_nil tm; [contradiction|].
      cbn [fst snd]. rewrite drop_last_app by assumption.
      unfold call_generate. cbn [fst snd]. rewrite Hgen.
      eexists. split; reflexivity.
    + simpl. now rewrite app_nil_r.
    + intros lastl.
      change (la_kids [t]) with [(tree_size t, leaf_at t)].
      rewrite la_loop_cons. unfold la_body. cbn [fst snd].
      replace (w >? h) with false
        by (symmetry; rewrite Z.gtb_ltb; apply Z.ltb_ge; lia).
      replace (i =? n - 1)%nat with true
        by (symmetry; apply Nat.eqb_eq; simpl in Hlen; lia).
      replace (tree_size t >? 0) with true by (symmetry; apply Z.gtb_lt; lia).
      destruct (Hcall (x, y, w, proportional (tree_size t) s h))
        as (tm1 & _ & _ & Hleaf1).
      rewrite Hleaf1. unfold mbind, result_bind. cbv beta iota zeta.
      unfold call_leaf_at. cbn [fst snd]. rewrite Hleaf.
      simpl. now rewrite app_nil_r.
  - (* a subtree that is not the last one *)
    assert (Hlast' : exists tl', last (t' :: ts) = Some tl' /\ 0 < tree_size tl').
    { exists tl. split; [|assumption]. now rewrite last_cons_cons in Hlast. }
    destruct (Hcall (x, y, w, proportional (tree_size t) s h))
      as (tm & Hgen & Hlentm & Hleaf).
    assert (Hbody : exists lastg',
              gt_body s w h ini_x ini_y n i (tree_size t, generate_treemap t)
                (GtState x y res lastg)
              = Return (GtState x (y + proportional (tree_size t) s h)
                          (res ++ tm) lastg')).
    { unfold gt_body. cbn [fst snd].
      replace (w >? h) with false
        by (symmetry; rewrite Z.gtb_ltb; apply Z.ltb_ge; lia).
      replace (i <? n - 1)%nat with true
        by (symmetry; apply Nat.ltb_lt; simpl in Hlen; lia).
      replace (i =? n - 1)%nat with false
        by (symmetry; apply Nat.eqb_neq; simpl in Hlen; lia).
      rewrite Hgen. unfold mbind, result_bind. cbv beta iota zeta.
      eexists. reflexivity. }
    destruct Hbody as (lastg' & Hbody).
    destruct (IH Hlast' x (y + proportional (tree_size t) s h) (res ++ tm)
                lastg' (S i) ltac:(lia))
      as (tm' & (st' & Hrun & Hres) & Hlen' & Hla).
    exists (tm ++ tm'). split; [|split].
    + change (gt_kids (t :: ?l))
        with ((tree_size t, generate_treemap t) :: gt_kids l).
      rewrite gt_loop_cons, Hbody. unfold mbind, result_bind. rewrite Hrun.
      eexists. split; [reflexivity|]. now rewrite Hres, app_assoc.
    + change (flat_map positive_leaves (t :: t' :: ts))
        with (positive_leaves t ++ flat_map positive_leaves (t' :: ts)).
      rewrite !length_app. lia.
    + intros lastl.
      change (flat_map positive_leaves (t :: t' :: ts))
        with (positive_leaves t ++ flat_map positive_leaves (t' :: ts)).
      rewrite first_hit_app by assumption.
      change (la_kids (t :: t' :: ts))
        with ((tree_size t, leaf_at t) :: la_kids (t' :: ts)).
      rewrite la_loop_cons. unfold la_body. cbn [fst snd].
      replace (w >? h) with false
        by (symmetry; rewrite Z.gtb_ltb; apply Z.ltb_ge; lia).
      replace (i =? n - 1)%nat with false
        by (symmetry; apply Nat.eqb_neq; simpl in Hlen; lia).
      destruct (Z.gtb_spec (tree_size t) 0) as [Hpos|Hzero].
      * rewrite Hleaf. unfold mbind, result_bind. cbv beta iota zeta.
        destruct (first_hit p (positive_leaves t) tm) as [a|].
        -- reflexivity.
        -- apply Hla.
      * assert (tree_size t = 0) as Hz by lia.
        pose proof (joint_ok_empty _ _ Ht Hz Hlentm) as ->.
        unfold mbind, result_bind, mret, result_ret. cbv beta iota zeta.
        apply Htz in Hz. rewrite Hz. simpl first_hit.
        apply Hla.
Qed.

Lemma stretch_free_inv self root size col subtrees :
  stretch_free (Node self root size col subtrees) = true -> size ≠ 0 ->
  match last subtrees with
  | None => True
  | Some l => 0 < tree_size l
  end /\ Forall (fun t => stretch_free t = true) subtrees.
Proof.
  simpl. intros H Hnz. apply orb_true_iff in H as [H|H].
  { apply Z.eqb_eq in H. contradiction. }
  apply andb_true_iff in H as [Hl Hall]. split.
  - destruct (last subtrees); [now apply Z.ltb_lt|exact I].
  - apply Forall_forall. intros t Ht. rewrite forallb_forall in Hall.
    apply Hall. now apply list_elem_of_In.
Qed.

Lemma tree_size_zero_no_leaf (t : tree) :
  well_formed t = true -> tree_size t = 0 ->
  forall p r, generate_treemap t r = Return [] /\ leaf_at t p r = Return None.
Proof.
  destruct t as [self root size col subtrees]. simpl tree_size.
  intros _ -> p [[[x y] w] h]. split; reflexivity.
Qed.

Lemma joint_ok_tree (t : tree) :
  well_formed t = true -> stretch_free t = true -> joint_ok t.
Proof.
  induction t as [self root size col subtrees IH] using tree_ind.
  intros Hwf Hsf. pose proof (positive_leaves_nil _ Hwf) as Hnil.
  destruct (well_formed_inv _ _ _ _ _ Hwf) as (Hs & Hsum & Hall).
  split; [assumption|]. split; [assumption|]. intros r.
  destruct (Z.eq_dec size 0) as [Hz|Hnz].
  { exists []. pose proof Hz as Hz'. apply Hnil in Hz'. rewrite Hz'.
    split; [|split; [reflexivity|]].
    - now apply (tree_size_zero_no_leaf _ Hwf Hz (0, 0) r).
    - intros p. now apply (tree_size_zero_no_leaf _ Hwf Hz p r). }
  destruct (stretch_free_inv _ _ _ _ _ Hsf Hnz) as (Hlast & Hsfall).
  cbn [generate_treemap leaf_at].
  replace (size =? 0) with false by (symmetry; now apply Z.eqb_neq).
  destruct r as [[[x y] w] h].
  destruct subtrees as [|t0 l0].
  { exists [((x, y, w, h), col)]. simpl.
    destruct (Z.ltb_spec 0 size); [|lia].
    split; [reflexivity|]. split; [reflexivity|]. intros p. simpl.
    fold (within p (x, y, w, h)). now destruct (within p (x, y, w, h)). }
  remember (t0 :: l0) as subtrees eqn:Esub.
  replace (length subtrees =? 0)%nat with false by (subst; reflexivity).
  assert (Hleaves : positive_leaves (Node self root size col subtrees)
                    = flat_map positive_leaves subtrees).
  { subst. reflexivity. }
  rewrite Hleaves. clear Hleaves Hnil.
  assert (Hkids : Forall joint_ok subtrees).
  { clear -IH Hall Hsfall. induction subtrees as [|t l IHl]; constructor.
    - apply Forall_cons in IH as [IHt _]. apply Forall_cons in Hall as [Ht _].
      apply Forall_cons in Hsfall as [Hst _]. now apply IHt.
    - apply Forall_cons in IH as [_ IH]. apply Forall_cons in Hall as [_ Hall].
      apply Forall_cons in Hsfall as [_ Hsfall]. now apply IHl. }
  assert (Hlast' : exists tl, last subtrees = Some tl /\ 0 < tree_size tl).
  { destruct (last subtrees) as [tl|] eqn:El; [eauto|].
    apply last_None in El. subst. discriminate. }
  fold (gt_kids subtrees). fold (la_kids subtrees).
  destruct (Z.lt_ge_cases h w) as [Hwh|Hwh].
  - destruct (joint_loop_v size w h x y (length subtrees) (0, 0) Hwh subtrees
                Hkids Hlast' x y [] (None, 0%nat, 0) 0%nat eq_refl)
      as (tm & (st' & Hrun & Hres) & Hlen & _).
    exists tm. rewrite Hrun. simpl in Hres.
    split; [simpl; now rewrite Hres|]. split; [assumption|]. intros p.
    destruct (joint_loop_v size w h x y (length subtrees) p Hwh subtrees
                Hkids Hlast' x y [] (None, 0%nat, 0) 0%nat eq_refl)
      as (tm2 & (st2 & Hrun2 & Hres2) & _ & Hla).
    rewrite Hrun in Hrun2. injection Hrun2 as <-. simpl in Hres2.
    rewrite Hla. congruence.
  - destruct (joint_loop_h size w h x y (length subtrees) (0, 0) Hwh subtrees
                Hkids Hlast' x y [] (None, 0%nat, 0) 0%nat eq_refl)
      as (tm & (st' & Hrun & Hres) & Hlen & _).
    exists tm. rewrite Hrun. simpl in Hres.
    split; [simpl; now rewrite Hres|]. split; [assumption|]. intros p.
    destruct (joint_loop_h size w h x y (length subtrees) p Hwh subtrees
                Hkids Hlast' x y [] (None, 0%nat, 0) 0%nat eq_refl)
      as (tm2 & (st2 & Hrun2 & Hres2) & _ & Hla).
    rewrite Hrun in Hrun2. injection Hrun2 as <-. simpl in Hres2.
    rewrite Hla. congruence.
Qed.


(** * The representation invariants under the mutations *)

Lemma sizes_nonneg_spec (h : heap) :
  sizes_nonneg h = true <->
  forall b ob, h !! b = Some ob -> 0 <= data_size ob.
Proof.
  unfold sizes_nonneg.
  rewrite (forallb_map_to_list (fun _ o => 0 <=? data_size o)).
  split; intros H b ob Hb; specialize (H b ob Hb); now apply Z.leb_le.
Qed.

Lemma empty_is_zero_spec (h : heap) :
  empty_is_zero h = true <->
  forall b ob, h !! b = Some ob -> _root ob = None ->
    _subtrees ob = [] /\ _parent_tree ob = None /\ data_size ob = 0.
Proof.
  unfold empty_is_zero. rewrite (forallb_map_to_list (fun _ o => empty_at o)).
  unfold empty_at. split; intros H b ob Hb.
  - intros Hr. specialize (H b ob Hb). rewrite Hr in H.
    apply andb_true_iff in H as [He Hz]. apply emptied_spec in He.
    apply Z.eqb_eq in Hz. tauto.
  - destruct (_root ob) eqn:Hr; [reflexivity|].
    destruct (H b ob Hb Hr) as (Hs & Hp & Hz).
    apply andb_true_iff. split; [|now apply Z.eqb_eq].
    apply emptied_spec. auto.
Qed.

Lemma representation_invariants_spec (h : heap) :
  representation_invariants h = true <->
  sizes_nonneg h = true /\ weight_conserved h = true /\
  empty_is_zero h = true /\ coherent h = true.
Proof. unfold representation_invariants. rewrite !andb_true_iff. tauto. Qed.

(** No child is larger than the sum. *)
Lemma children_sum_ge (h : heap) (l : list addr) (v : Z) :
  children_sum h l = Some v ->
  (forall c oc, c ∈ l -> h !! c = Some oc -> 0 <= data_size oc) ->
  0 <= v /\ forall c oc, c ∈ l -> h !! c = Some oc -> data_size oc <= v.
Proof.
  revert v. induction l as [|a l IH]; intros v Hsum Hpos.
  - injection Hsum as <-. split; [lia|]. intros c oc Hc. inversion Hc.
  - rewrite children_sum_cons in Hsum.
    destruct (h !! a) as [oa|] eqn:Ha; simpl in Hsum; [|discriminate].
    destruct (children_sum h l) as [t|] eqn:Et; [|discriminate].
    injection Hsum as <-.
    destruct (IH t eq_refl) as [Ht Hle].
    { intros c oc Hc. apply Hpos. now right. }
    pose proof (Hpos a oa ltac:(now left) Ha) as Hoa.
    split; [lia|]. intros c oc Hc Hoc.
    apply elem_of_cons in Hc as [->|Hc].
    + rewrite Ha in Hoc. injection Hoc as <-. lia.
    + specialize (Hle c oc Hc Hoc). lia.
Qed.

(** An ancestor lists a member of the chain, so it has subtrees and a
    label. *)
Lemma ancestor_has_subtrees (fuel : nat) (h : heap) (a b : addr)
    (l : list addr) (ob : obj) :
  coherent h = true ->
  ancestors fuel h a = Some l -> b ∈ l -> h !! b = Some ob ->
  exists c oc, c ∈ a :: l /\ h !! c = Some oc /\ _parent_tree oc = Some b /\
    c ∈ _subtrees ob.
Proof.
  intros Hcoh Hanc Hb Hob. rewrite coherent_spec in Hcoh.
  destruct (chain_pred _ _ _ _ _ Hanc Hb) as (c & oc & Hc & Hoc & Hpar).
  destruct (Hcoh c oc Hoc) as (_ & _ & Hp).
  destruct (Hp b Hpar) as (ob' & Hob' & Hin).
  rewrite Hob in Hob'. injection Hob' as <-. eauto 10.
Qed.

(** Every ancestor is at least as large as the object. *)
Lemma chain_size_le (fuel : nat) (h : heap) (a : addr) (o : obj)
    (l : list addr) :
  sizes_nonneg h = true -> weight_conserved h = true -> coherent h = true ->
  ancestors fuel h a = Some l -> h !! a = Some o ->
  forall b ob, b ∈ l -> h !! b = Some ob -> data_size o <= data_size ob.
Proof.
  intros Hnn Hcons Hcoh. rewrite sizes_nonneg_spec in Hnn.
  rewrite weight_conserved_spec in Hcons. rewrite coherent_spec in Hcoh.
  revert fuel a o. induction l as [|p l IH]; intros fuel a o Hanc Ho b ob Hb Hob;
    [inversion Hb|].
  apply ancestors_unfold in Hanc as (o' & Ho' & Hp).
  rewrite Ho in Ho'. injection Ho' as <-.
  destruct (_parent_tree o) as [p'|] eqn:Epar; [|discriminate].
  destruct Hp as (fuel' & l' & [= <- <-] & Hanc').
  destruct (Hcoh a o Ho) as (_ & _ & Hpar).
  destruct (Hpar p Epar) as (op & Hop & Hin).
  assert (Hle : data_size o <= data_size op).
  { assert (Hne : _subtrees op ≠ []) by (intros E; rewrite E in Hin; inversion Hin).
    pose proof (Hcons p op Hop Hne) as Hsum.
    apply children_sum_ge in Hsum as [_ Hsum].
    - now apply (Hsum a o).
    - intros c oc _ Hoc. now apply (Hnn c oc). }
  apply elem_of_cons in Hb as [->|Hb].
  - rewrite Hop in Hob. now injection Hob as <-.
  - specialize (IH _ _ _ Hanc' Hop b ob Hb Hob). lia.
Qed.

(** Sizes and labels after a change of size along a chain. *)
Lemma bump_keeps_sizes (fuel : nat) (h h' : heap) (self : addr) (o : obj)
    (anc : list addr) (d : Z) :
  representation_invariants h = true ->
  h !! self = Some o -> ancestors fuel h self = Some anc ->
  0 <= data_size o + d ->
  (forall b, b ∈ anc -> h' !! b = add_data_size d <$> h !! b) ->
  (forall b, b ∉ self :: anc -> h' !! b = h !! b) ->
  forall b ob', b ≠ self -> h' !! b = Some ob' ->
    0 <= data_size ob' /\ empty_at ob' = true.
Proof.
  intros Hinv Ho Hanc Hd Hchain Hoff b ob' Hbs Hb'.
  apply representation_invariants_spec in Hinv as (Hnn & Hcons & Hez & Hcoh).
  pose proof (chain_size_le _ _ _ _ _ Hnn Hcons Hcoh Hanc Ho) as Hle.
  pose proof Hnn as Hnn'. rewrite sizes_nonneg_spec in Hnn'.
  assert (Hez' : forall b ob, h !! b = Some ob -> empty_at ob = true).
  { unfold empty_is_zero in Hez.
    now rewrite (forallb_map_to_list (fun _ o => empty_at o)) in Hez. }
  destruct (decide (b ∈ anc)) as [Hin|Hnin].
  - rewrite (Hchain b Hin) in Hb'.
    destruct (h !! b) as [ob|] eqn:Hob; [|discriminate].
    injection Hb' as <-. simpl. split.
    + specialize (Hle b ob Hin Hob). lia.
    + destruct (ancestor_has_subtrees _ _ _ _ _ _ Hcoh Hanc Hin Hob)
        as (c & oc & _ & _ & _ & Hc).
      specialize (Hez' b ob Hob). unfold empty_at in *. simpl.
      destruct (_root ob); [reflexivity|].
      apply andb_true_iff in Hez' as [He _].
      apply emptied_spec in He as (_ & He & _). rewrite He in Hc.
      inversion Hc.
  - rewrite Hoff in Hb'.
    + split; [now apply (Hnn' b)|now apply (Hez' b)].
    + intros [->|?]%elem_of_cons; contradiction.
Qed.

Lemma invariants_intro (h : heap) :
  (forall b ob, h !! b = Some ob -> 0 <= data_size ob /\ empty_at ob = true) ->
  weight_conserved h = true -> coherent h = true ->
  representation_invariants h = true.
Proof.
  intros H Hcons Hcoh. apply representation_invariants_spec.
  split; [|split; [assumption|split; [|assumption]]].
  - apply sizes_nonneg_spec. intros b ob Hb. now apply (H b ob).
  - unfold empty_is_zero. apply (forallb_map_to_list (fun _ o => empty_at o)).
    intros b ob Hb. now apply (H b ob).
Qed.

(** An object with a parent, or of size other than 0, has its label. *)
Lemma labelled_of_parent (h : heap) (a : addr) (o : obj) :
  empty_is_zero h = true -> h !! a = Some o ->
  is_Some (_parent_tree o) \/ data_size o ≠ 0 -> is_Some (_root o).
Proof.
  intros Hez Ho H. rewrite empty_is_zero_spec in Hez.
  destruct (_root o) eqn:Hr; [eauto|].
  destruct (Hez a o Ho Hr) as (_ & Hp & Hz).
  destruct H as [[p Hp']|Hne]; congruence.
Qed.

(** A leaf is on no other object's parent chain. *)
Lemma leaf_off_chain (fuel : nat) (h : heap) (a x : addr) (ox : obj)
    (l : list addr) :
  coherent h = true -> ancestors fuel h a = Some l ->
  h !! x = Some ox -> _subtrees ox = [] -> x ∉ l.
Proof.
  intros Hcoh Hanc Hox Hleaf Hin.
  destruct (ancestor_has_subtrees _ _ _ _ _ _ Hcoh Hanc Hin Hox)
    as (c & oc & _ & _ & _ & Hc).
  rewrite Hleaf in Hc. inversion Hc.
Qed.

(** More fuel than the parent chain needs changes nothing. *)
Lemma update_size_fuel (fuel fuel' : nat) (h : heap) (self : addr) (d : Z)
    (anc : list addr) :
  ancestors fuel h self = Some anc -> (fuel <= fuel')%nat ->
  update_size fuel' self d h = update_size fuel self d h.
Proof.
  intros Hanc Hle.
  destruct (update_size_spec _ _ _ d _ Hanc) as (h1 & -> & H1).
  destruct (update_size_spec _ _ _ d _ (ancestors_mono _ _ _ _ _ Hanc Hle))
    as (h2 & -> & H2).
  do 2 f_equal. apply map_eq. intros b. now rewrite H1, H2.
Qed.

Lemma change_prop_fuel (fuel fuel' : nat) (h : heap) (self : addr) (p : Q)
    (anc : list addr) :
  ancestors fuel h self = Some anc -> (fuel <= fuel')%nat ->
  change_prop fuel' self p h = change_prop fuel self p h.
Proof.
  intros Hanc Hle. unfold change_prop, mbind, M_bind, load.
  destruct (h !! self) as [o|]; [|reflexivity].
  now apply (update_size_fuel _ _ _ _ _ anc).
Qed.

Lemma delete_fuel (fuel fuel' : nat) (h : heap) (self parent : addr) (o : obj)
    (anc : list addr) :
  h !! self = Some o -> _parent_tree o = Some parent ->
  ancestors fuel h parent = Some anc -> (fuel <= fuel')%nat ->
  delete fuel' self h = delete fuel self h.
Proof.
  intros Ho Hp Hanc Hle.
  destruct (delete_spec _ _ _ _ _ _ Ho Hp Hanc) as (_ & h1 & -> & H1).
  destruct (delete_spec _ _ _ _ _ _ Ho Hp (ancestors_mono _ _ _ _ _ Hanc Hle))
    as (_ & h2 & -> & H2).
  do 2 f_equal. apply map_eq. intros b. now rewrite H1, H2.
Qed.

(** [delete] on a leaf that has a parent: it returns, the invariants hold
    again, the leaf is emptied, every list of subtrees is as before and every
    other leaf is untouched. *)
Lemma delete_keeps (fuel : nat) (h : heap) (self : addr) (o : obj) :
  representation_invariants h = true -> rooted fuel h = true ->
  h !! self = Some o -> _subtrees o = [] -> is_Some (_parent_tree o) ->
  exists h', delete fuel self h = Some (Return tt, h') /\
    representation_invariants h' = true /\ rooted fuel h' = true /\
    h' !! self = Some (Obj None [] None 0 (colour o)) /\
    (forall x, _subtrees <$> h' !! x = _subtrees <$> h !! x) /\
    (forall x ox, x ≠ self -> h !! x = Some ox -> _subtrees ox = [] ->
       h' !! x = Some ox).
Proof.
  intros Hinv Hroot Ho Hsub [parent Hp].
  pose proof Hinv as Hinv0.
  apply representation_invariants_spec in Hinv as (Hnn & Hcons & Hez & Hcoh).
  assert (Hlab : is_Some (_root o)).
  { apply (labelled_of_parent h self); [assumption..|]. left. eauto. }
  destruct (mutate_keeps fuel h (Delete self) Hcoh Hcons Hroot)
    as (r & h1 & Hrun1 & Hcoh1 & Hcons1 & Hroot1).
  { apply labelled_leaf_spec. eauto. }
  assert (Hanc : is_Some (ancestors fuel h self)).
  { rewrite rooted_spec in Hroot. now apply (Hroot _ o). }
  destruct Hanc as [anc Hanc].
  pose proof Hanc as Hanc0.
  apply ancestors_unfold in Hanc as (o' & Ho' & Hpar).
  rewrite Ho in Ho'. injection Ho' as <-. rewrite Hp in Hpar.
  destruct Hpar as (fuel' & anc' & -> & Hanc').
  assert (Hancp : ancestors fuel h parent = Some anc').
  { destruct fuel as [|fuel]; [discriminate|]. simpl in Hanc0.
    rewrite Ho in Hanc0. simpl in Hanc0. rewrite Hp in Hanc0.
    destruct (ancestors fuel h parent) as [l|] eqn:E; [|discriminate].
    injection Hanc0 as <-. apply (ancestors_mono fuel); [assumption|lia]. }
  destruct (delete_spec _ _ _ _ _ _ Ho Hp Hancp) as (Hnin & h' & Hrun & Hlk).
  simpl in Hrun1. rewrite Hrun in Hrun1. injection Hrun1 as <- <-.
  exists h'. split; [assumption|].
  assert (Hself : h' !! self = Some (Obj None [] None 0 (colour o))).
  { rewrite Hlk, decide_True by reflexivity. now rewrite Hsub. }
  split; [|split; [assumption|split; [assumption|split]]].
  - apply invariants_intro; [|assumption..].
    intros b ob' Hb'. destruct (decide (b = self)) as [->|Hbs].
    + rewrite Hself in Hb'. injection Hb' as <-. simpl.
      split; [lia|reflexivity].
    + refine (bump_keeps_sizes (S fuel) h h' self o (parent :: anc')
                (- data_size o) Hinv0 Ho _ _ _ _ b ob' Hbs Hb').
      * simpl. rewrite Ho. simpl. now rewrite Hp, Hancp.
      * lia.
      * intros c Hc. rewrite Hlk.
        rewrite decide_False by (intros ->; contradiction).
        now rewrite decide_True.
      * intros c Hc. rewrite Hlk.
        rewrite decide_False by (intros ->; apply Hc; now left).
        rewrite decide_False; [reflexivity|]. intros Hin. apply Hc. now right.
  - intros x. rewrite Hlk. case_decide; [subst; rewrite Ho; reflexivity|].
    case_decide; [|reflexivity]. now destruct (h !! x).
  - intros x ox Hx Hox Hleaf. rewrite Hlk, decide_False by assumption.
    rewrite decide_False; [assumption|].
    now apply (leaf_off_chain (S fuel) h self x ox); [|simpl; rewrite Ho; simpl;
      rewrite Hp, Hancp|..].
Qed.

(** X7: [delete] on a leaf that has a parent keeps the representation
    invariants of the class: it returns normally, and afterwards sizes are
    not negative, every node with subtrees has the sum of their sizes, every
    empty tree has no subtrees, no parent and size 0, and parent and child
    references agree; every parent chain still reaches a root. *)
Theorem delete_keeps_invariants (fuel : nat) (h : heap) (self : addr)
    (o : obj) :
  representation_invariants h = true -> rooted fuel h = true ->
  h !! self = Some o -> _subtrees o = [] -> is_Some (_parent_tree o) ->
  exists h', delete fuel self h = Some (Return tt, h') /\
    representation_invariants h' = true /\ rooted fuel h' = true /\
    h' !! self = Some (Obj None [] None 0 (colour o)).
Proof.
  intros Hinv Hroot Ho Hsub Hp.
  destruct (delete_keeps fuel h self o Hinv Hroot Ho Hsub Hp)
    as (h' & ? & ? & ? & ? & _).
  eauto.
Qed.

Lemma delete_keeps_invariants_witness :
  exists h', delete 5 2%nat family = Some (Return tt, h') /\
    representation_invariants h' = true /\ rooted 5 h' = true /\
    h' !! 2%nat = Some (Obj None [] None 0 grey).
Proof.
  apply (delete_keeps_invariants 5 family 2%nat
           (Obj (Some "b"%string) [] (Some 3%nat) 20 grey));
    [reflexivity | reflexivity | reflexivity | reflexivity | simpl; eauto].
Defined.

(** [change_prop] on a leaf of size at least 1: it returns, the invariants
    hold again, the leaf keeps a size of at least 1, every list of subtrees
    is as before and every other leaf is untouched. *)
Lemma change_prop_keeps (fuel : nat) (h : heap) (self : addr) (o : obj)
    (p : Q) :
  representation_invariants h = true -> rooted fuel h = true ->
  h !! self = Some o -> _subtrees o = [] -> 1 <= data_size o ->
  exists h' o', change_prop fuel self p h = Some (Return tt, h') /\
    representation_invariants h' = true /\ rooted fuel h' = true /\
    h' !! self = Some o' /\ 1 <= data_size o' /\
    set_data_size 0 o' = set_data_size 0 o /\
    (forall x, _subtrees <$> h' !! x = _subtrees <$> h !! x) /\
    (forall x ox, x ≠ self -> h !! x = Some ox -> _subtrees ox = [] ->
       h' !! x = Some ox).
Proof.
  intros Hinv Hroot Ho Hsub Hsize.
  pose proof Hinv as Hinv0.
  apply representation_invariants_spec in Hinv as (Hnn & Hcons & Hez & Hcoh).
  assert (Hlab : is_Some (_root o)).
  { apply (labelled_of_parent h self); [assumption..|]. right. lia. }
  destruct (mutate_keeps fuel h (ChangeProp self p) Hcoh Hcons Hroot)
    as (r & h1 & Hrun1 & Hcoh1 & Hcons1 & Hroot1).
  { apply labelled_leaf_spec. eauto. }
  assert (Hanc : is_Some (ancestors fuel h self)).
  { rewrite rooted_spec in Hroot. now apply (Hroot _ o). }
  destruct Hanc as [anc Hanc].
  destruct (change_prop_spec _ _ _ _ _ p Ho Hanc) as (h' & Hrun & Hlk).
  simpl in Hrun1. rewrite Hrun in Hrun1. injection Hrun1 as <- <-.
  set (d := size_change_of (data_size o) p) in *.
  pose proof (size_change_of_floor (data_size o) p Hsize) as Hfloor.
  fold d in Hfloor.
  assert (Hself : h' !! self = Some (add_data_size d o)).
  { rewrite Hlk, decide_True by (apply elem_of_cons; now left).
    now rewrite Ho. }
  exists h', (add_data_size d o).
  split; [assumption|]. split; [|repeat split; try assumption].
  - apply invariants_intro; [|assumption..].
    intros b ob' Hb'. destruct (decide (b = self)) as [->|Hbs].
    + rewrite Hself in Hb'. injection Hb' as <-. simpl. split; [lia|].
      unfold empty_at. simpl. now destruct Hlab as [s ->].
    + refine (bump_keeps_sizes fuel h h' self o anc d Hinv0 Ho Hanc _ _ _
                b ob' Hbs Hb').
      * lia.
      * intros c Hc. rewrite Hlk.
        now rewrite decide_True by (apply elem_of_cons; now right).
      * intros c Hc. now rewrite Hlk, decide_False.
  - intros x. rewrite Hlk. case_decide; [|reflexivity]. now destruct (h !! x).
  - intros x ox Hx Hox Hleaf. rewrite Hlk. rewrite decide_False; [assumption|].
    intros [->|Hin]%elem_of_cons; [contradiction|].
    now apply (leaf_off_chain fuel h self x ox anc).
Qed.



Lemma view_unfold (n : nat) (h : heap) (a : addr) (t : tree) :
  view n h a = Some t ->
  exists n' o subs, n = S n' /\ h !! a = Some o /\
    Forall2 (fun c s => view n' h c = Some s) (_subtrees o) subs /\
    t = Node a (_root o) (data_size o) (colour o) subs.
Proof.
  destruct n as [|n]; [discriminate|]. simpl.
  destruct (h !! a) as [o|]; simpl; [|discriminate].
  destruct (mapM (view n h) (_subtrees o)) as [subs|] eqn:E; simpl;
    [|discriminate].
  intros [= <-]. exists n, o, subs. apply mapM_Some in E. auto.
Qed.

Lemma view_S (n : nat) (h : heap) (a : addr) :
  view (S n) h a
  = o ← h !! a;
    subtrees ← mapM (view n h) (_subtrees o);
    Some (Node a (_root o) (data_size o) (colour o) subtrees).
Proof. reflexivity. Qed.

Lemma view_size (n : nat) (h : heap) (a : addr) (t : tree) :
  view n h a = Some t -> tree_self t = a /\ size_at h a = Some (tree_size t).
Proof.
  intros H. apply view_unfold in H as (n' & o & subs & _ & Ho & _ & ->).
  unfold size_at. now rewrite Ho.
Qed.

Lemma view_mono (n m : nat) (h : heap) (a : addr) (t : tree) :
  view n h a = Some t -> (n <= m)%nat -> view m h a = Some t.
Proof.
  revert m a t. induction n as [|n IH]; intros m a t H Hle; [discriminate|].
  destruct m as [|m]; [lia|]. simpl in *.
  destruct (h !! a) as [o|]; simpl in *; [|discriminate].
  destruct (mapM (view n h) (_subtrees o)) as [subs|] eqn:E; simpl in *;
    [|discriminate].
  assert (E' : mapM (view m h) (_subtrees o) = Some subs).
  { apply mapM_Some. apply mapM_Some in E.
    eapply Forall2_impl; [exact E|]. intros c s Hc. apply IH; [assumption|lia]. }
  now rewrite E'.
Qed.

(** In a heap whose references agree and whose parent chains reach a root
    within [fuel], the tree below every object is finite: [view] returns. *)
Lemma view_total (fuel : nat) (h : heap) (a : addr) (o : obj) :
  coherent h = true -> rooted fuel h = true -> h !! a = Some o ->
  is_Some (view (S fuel) h a).
Proof.
  intros Hcoh Hroot. pose proof Hcoh as Hcoh'. rewrite coherent_spec in Hcoh'.
  pose proof Hroot as Hroot'. rewrite rooted_spec in Hroot'.
  assert (P : forall n a o l, h !! a = Some o -> ancestors fuel h a = Some l ->
            (fuel <= n + length l)%nat -> is_Some (view (S n) h a)).
  { clear a o. induction n as [|n IH]; intros a o l Ho Hanc Hn.
    - apply ancestors_length in Hanc. lia.
    - assert (Hs : is_Some (mapM (view (S n) h) (_subtrees o))).
      { apply mapM_is_Some, Forall_forall. intros c Hc.
        change (is_Some (view (S n) h c)).
        destruct (Hcoh' a o Ho) as (_ & Hkids & _).
        destruct (Hkids c Hc) as (oc & Hoc & [Hpar|Hem]).
        - destruct (Hroot' c oc Hoc) as [lc Hlc].
          pose proof Hlc as Hlc'.
          apply ancestors_unfold in Hlc as (oc' & Hoc' & Hp).
          rewrite Hoc in Hoc'. injection Hoc' as <-. rewrite Hpar in Hp.
          destruct Hp as (fuel' & l' & -> & Hl').
          rewrite (ancestors_fun _ _ _ _ _ _ Hl' Hanc) in *.
          apply (IH c oc (a :: l) Hoc Hlc'). simpl. lia.
        - apply emptied_spec in Hem as (_ & Hsub & _).
          rewrite view_S, Hoc. simpl. rewrite Hsub. simpl. eauto. }
      destruct Hs as [subs Hs]. rewrite view_S, Ho.
      cbn [mbind option_bind]. rewrite Hs. simpl. eauto. }
  intros Ho. destruct (Hroot' a o Ho) as [l Hl].
  apply (P fuel a o l Ho Hl). lia.
Qed.

Lemma sum_sizes_children (n : nat) (h : heap) (l : list addr)
    (subs : list tree) :
  Forall2 (fun c s => view n h c = Some s) l subs ->
  children_sum h l = Some (sum_sizes subs).
Proof.
  induction 1 as [|c s l subs Hc _ IH]; [reflexivity|].
  rewrite children_sum_cons, IH. apply view_size in Hc as [_ Hc].
  unfold size_at in Hc. rewrite Hc. reflexivity.
Qed.

(** The view of a heap that keeps the invariants is a well-formed tree. *)
Lemma view_well_formed (n : nat) (h : heap) (a : addr) (t : tree) :
  sizes_nonneg h = true -> weight_conserved h = true ->
  view n h a = Some t -> well_formed t = true.
Proof.
  intros Hnn Hcons. rewrite sizes_nonneg_spec in Hnn.
  rewrite weight_conserved_spec in Hcons.
  revert a t. induction n as [|n IH]; intros a t Hv; [discriminate|].
  apply view_unfold in Hv as (n' & o & subs & [= <-] & Ho & Hsubs & ->).
  simpl. rewrite !andb_true_iff. split; [split|].
  - apply Z.leb_le. now apply (Hnn a o).
  - destruct subs as [|s subs]; [reflexivity|]. apply Z.eqb_eq.
    pose proof (sum_sizes_children _ _ _ _ Hsubs) as Hsum.
    rewrite (Hcons a o Ho) in Hsum; [congruence|].
    intros E. rewrite E in Hsubs. inversion Hsubs.
  - apply forallb_forall. intros s Hs. apply list_elem_of_In in Hs.
    clear Ho. induction Hsubs as [|c s' l subs Hc _ IHl]; [inversion Hs|].
    apply elem_of_cons in Hs as [->|Hs]; [now apply (IH c)|now apply IHl].
Qed.

(** A leaf of positive size in the view is an object without subtrees, of
    positive size; and when it is not the top of the view it has a parent. *)
Lemma view_positive_leaf (n : nat) (h : heap) (a x : addr) (t : tree) :
  coherent h = true -> empty_is_zero h = true ->
  view n h a = Some t -> x ∈ map fst (positive_leaves t) ->
  exists ox, h !! x = Some ox /\ _subtrees ox = [] /\ 0 < data_size ox /\
    (x = a \/ is_Some (_parent_tree ox)).
Proof.
  intros Hcoh Hez. rewrite coherent_spec in Hcoh.
  rewrite empty_is_zero_spec in Hez.
  revert a t. induction n as [|n IH]; intros a t Hv Hx; [discriminate|].
  apply view_unfold in Hv as (n' & o & subs & [= <-] & Ho & Hsubs & ->).
  simpl in Hx. destruct subs as [|s subs].
  - apply Forall2_nil_inv_r in Hsubs.
    destruct (Z.ltb_spec 0 (data_size o)); [|inversion Hx].
    apply list_elem_of_singleton in Hx as ->. eauto 10.
  - set (l := s :: subs) in *. clearbody l.
    apply list_elem_of_fmap in Hx as ([x' cx] & -> & Hx). simpl.
    apply list_elem_of_In, in_flat_map in Hx as (s' & Hs' & Hx).
    apply list_elem_of_In in Hs', Hx.
    destruct (Hcoh a o Ho) as (_ & Hkids & _).
    assert (exists c, c ∈ _subtrees o /\ view n h c = Some s') as (c & Hc & Hvc).
    { clear -Hsubs Hs'. induction Hsubs as [|c s0 l0 l1 Hc _ IHl];
        [inversion Hs'|].
      apply elem_of_cons in Hs' as [->|Hs'].
      - exists c. split; [now left|assumption].
      - destruct (IHl Hs') as (c' & ? & ?). exists c'. split; [now right|assumption]. }
    destruct (IH c s' Hvc) as (ox & Hox & Hleaf & Hpos & Hpar).
    { apply list_elem_of_fmap. exists (x', cx). auto. }
    cbn [fst] in *. exists ox. repeat split; try assumption. right.
    destruct Hpar as [Hxc|Hpar]; [|assumption]. subst c.
    destruct (Hkids x' Hc) as (oc & Hoc & [Hp|Hem]).
    + rewrite Hox in Hoc. injection Hoc as <-. eauto.
    + rewrite Hox in Hoc. injection Hoc as <-.
      apply emptied_spec in Hem as (Hr & _).
      destruct (Hez x' ox Hox Hr) as (_ & _ & Hz). lia.
Qed.

(** * get_separator *)

Section Outcomes.
Context {A B : Type}.

Lemma io_bind_done (m : IO A) (k : A -> IO B) (h h' : heap) (a : A) :
  m h = Some (Done a, h') -> (m ≫= k) h = k a h'.
Proof. intros E. unfold mbind, IO_bind. now rewrite E. Qed.

Lemma io_bind_fails (m : IO A) (k : A -> IO B) (h h' : heap) (e : exception) :
  m h = Some (Fails e, h') -> (m ≫= k) h = Some (Fails e, h').
Proof. intros E. unfold mbind, IO_bind. now rewrite E. Qed.

Lemma call_return (m : M A) (h h' : heap) (a : A) :
  m h = Some (Return a, h') -> call m h = Some (Done a, h').
Proof. intros E. unfold call. now rewrite E. Qed.

Lemma call_raise (m : M A) (h h' : heap) (e : exn) :
  m h = Some (Raise e, h') -> call m h = Some (Fails (Exn e), h').
Proof. intros E. unfold call. now rewrite E. Qed.
End Outcomes.

Lemma call_load (h : heap) (a : addr) (o : obj) :
  h !! a = Some o -> call (load a) h = Some (Done o, h).
Proof. intros E. apply call_return. unfold load. now rewrite E. Qed.

Lemma mapM_snoc {X Y} (f : X -> option Y) (l : list X) (x : X) (k : list Y) :
  mapM f (l ++ [x]) = Some k <->
  exists k1 y, mapM f l = Some k1 /\ f x = Some y /\ k = k1 ++ [y].
Proof.
  rewrite mapM_Some. split.
  - intros H. apply Forall2_app_inv_l in H as (k1 & k2 & H1 & H2 & ->).
    apply Forall2_cons_inv_l in H2 as (y & k3 & Hy & H3 & ->).
    apply Forall2_nil_inv_l in H3 as ->.
    exists k1, y. rewrite mapM_Some. auto.
  - intros (k1 & y & H1 & Hy & ->). apply Forall2_app.
    + now apply mapM_Some.
    + repeat constructor. assumption.
Qed.

(** [get_separator] reads the labels from the root down and joins them from
    the left. *)
Lemma get_separator_with_path (join : string -> string -> string)
    (fuel : nat) (h : heap) (a : addr) (r : string) (rest : list string) :
  path_labels fuel h a = Some (r :: rest) ->
  get_separator_with join fuel a h = Some (Done (Some (foldl join r rest)), h).
Proof.
  revert a r rest. induction fuel as [|fuel IH]; intros a r rest;
    [discriminate|].
  unfold path_labels. cbn [ancestors get_separator_with].
  destruct (h !! a) as [o|] eqn:Ho; [|discriminate].
  rewrite (io_bind_done _ _ _ _ _ (call_load _ _ _ Ho)).
  cbn [mbind option_bind].
  destruct (_parent_tree o) as [p|].
  - destruct (ancestors fuel h p) as [l|] eqn:Hl; [|discriminate].
    cbn [mbind option_bind]. rewrite reverse_cons.
    intros H. apply mapM_snoc in H as (k1 & y & H1 & Hy & E).
    rewrite Ho in Hy. cbn [mbind option_bind] in Hy.
    assert (Hp : path_labels fuel h p = Some k1).
    { unfold path_labels. now rewrite Hl. }
    destruct k1 as [|r1 rest1].
    { apply mapM_Some, Forall2_length in H1.
      rewrite reverse_cons, length_app in H1. simpl in H1. lia. }
    injection E as <- ->.
    rewrite (io_bind_done _ _ _ _ _ (IH p r rest1 Hp)). rewrite Hy.
    now rewrite foldl_app.
  - simpl. rewrite Ho. simpl. destruct (_root o) as [b|]; [|discriminate].
    now intros [= <- <-].
Qed.

(** X9: when every object on the way from the root of the tree down to a
    node has a label, [get_separator] returns these labels joined from the
    left, by [os.path.join] in a [FileSystemTree] and by [' -- '] in a
    [PopulationTree], and leaves the heap as it is; in an [AbstractTree] it
    raises [NotImplementedError]. *)
Theorem get_separator_joins_path (os_path_join : string -> string -> string)
    (fuel : nat) (h : heap) (a : addr) (r : string) (rest : list string) :
  path_labels fuel h a = Some (r :: rest) ->
  get_separator os_path_join FileSystemTree fuel a h
  = Some (Done (Some (foldl os_path_join r rest)), h) /\
  get_separator os_path_join PopulationTree fuel a h
  = Some (Done (Some (foldl dashes r rest)), h) /\
  get_separator os_path_join AbstractTree fuel a h
  = Some (Fails NotImplementedError, h).
Proof.
  intros H. repeat split; simpl; now apply get_separator_with_path.
Qed.

Lemma get_separator_joins_path_witness :
  get_separator (fun a b => (a +:+ "/") +:+ b) FileSystemTree 5 1%nat nested
  = Some (Done (Some (foldl (fun a b => (a +:+ "/") +:+ b) "r" ["dir"; "leaf"])),
          nested) /\
  get_separator (fun a b => (a +:+ "/") +:+ b) PopulationTree 5 1%nat nested
  = Some (Done (Some (foldl dashes "r" ["dir"; "leaf"])), nested) /\
  get_separator (fun a b => (a +:+ "/") +:+ b) AbstractTree 5 1%nat nested
  = Some (Fails NotImplementedError, nested).
Proof.
  apply (get_separator_joins_path (fun a b => (a +:+ "/") +:+ b) 5 nested
           1%nat "r" ["dir"; "leaf"]).
  reflexivity.
Defined.

Example nested_separator :
  get_separator (fun a b => (a +:+ "/") +:+ b) PopulationTree 5 1%nat nested
  = Some (Done (Some "r -- dir -- leaf"%string), nested).
Proof. reflexivity. Qed.

(** In a heap that keeps the invariants, every object with a label has its
    path of labels. *)
Lemma path_labels_total (fuel : nat) (h : heap) (a : addr) (o : obj) :
  coherent h = true -> empty_is_zero h = true -> rooted fuel h = true ->
  h !! a = Some o -> is_Some (_root o) ->
  exists r rest, path_labels fuel h a = Some (r :: rest).
Proof.
  intros Hcoh Hez Hroot Ho Hlab.
  pose proof Hroot as Hroot'. rewrite rooted_spec in Hroot'.
  destruct (Hroot' a o Ho) as [anc Hanc].
  unfold path_labels. rewrite Hanc. cbn [mbind option_bind].
  assert (Hall : is_Some (mapM (fun b => o ← h !! b; _root o)
                            (reverse (a :: anc)))).
  { apply mapM_is_Some, Forall_forall. intros b Hb.
    apply elem_of_reverse, elem_of_cons in Hb as [->|Hb].
    - simpl. rewrite Ho. assumption.
    - destruct (ancestors_alloc _ _ _ _ _ Hanc ltac:(right; exact Hb))
        as [ob Hob].
      simpl. rewrite Hob. simpl.
      destruct (ancestor_has_subtrees _ _ _ _ _ _ Hcoh Hanc Hb Hob)
        as (c & oc & _ & _ & _ & Hc).
      rewrite empty_is_zero_spec in Hez.
      destruct (_root ob) eqn:Hr; [eauto|].
      destruct (Hez b ob Hob Hr) as (Hs & _). rewrite Hs in Hc. inversion Hc. }
  destruct Hall as [k Hk]. rewrite Hk. destruct k as [|r rest]; [|eauto].
  apply mapM_Some, Forall2_length in Hk.
  rewrite reverse_cons, length_app in Hk. simpl in Hk. lia.
Qed.

(** * The visualiser *)

Section Visualiser.
Variable os_path_join : string -> string -> string.

Lemma invariants_view (fuel : nat) (h : heap) (a : addr) (o : obj) :
  representation_invariants h = true -> rooted fuel h = true ->
  h !! a = Some o ->
  exists t, view (S fuel) h a = Some t /\ well_formed t = true /\
    tree_size t = data_size o.
Proof.
  intros Hinv Hroot Ho.
  apply representation_invariants_spec in Hinv as (Hnn & Hcons & Hez & Hcoh).
  destruct (view_total fuel h a o Hcoh Hroot Ho) as [t Ht].
  exists t. split; [assumption|]. split.
  - now apply (view_well_formed (S fuel) h a).
  - apply view_size in Ht as [_ Ht]. unfold size_at in Ht. rewrite Ho in Ht.
    simpl in Ht. congruence.
Qed.

(** [render_display] returns, and what it shows is nothing or a tiling. *)
Lemma render_display_ok (fuel : nat) (h : heap) (tree : addr) (o : obj)
    (text : string) :
  representation_invariants h = true -> rooted fuel h = true ->
  h !! tree = Some o ->
  exists tm, render_display (S fuel) tree text h = Some (Done (tm, text), h) /\
    tiled (tm, text).
Proof.
  intros Hinv Hroot Ho.
  destruct (invariants_view fuel h tree o Hinv Hroot Ho) as (t & Ht & Hwf & Hsz).
  destruct (generate_treemap_ok t Hwf) as (Hs & Hnil & Hcall).
  destruct (Hcall (0, 0, WIDTH, TREEMAP_HEIGHT)) as (tm & Hrun & Hcols & Hcov).
  exists tm. split.
  - unfold render_display.
    erewrite io_bind_done; [reflexivity|]. apply call_return.
    cbn [snd] in Hrun.
    unfold generate_treemap_at. rewrite Ht. cbn [mbind option_bind].
    now rewrite Hrun.
  - unfold tiled. simpl in *. destruct (decide (tree_size t = 0)) as [Hz|Hnz].
    + left. apply Hnil in Hz. rewrite Hz in Hcols.
      now apply fmap_nil_inv in Hcols.
    + right. apply cover_tiles. intros p. apply Hcov. lia.
Qed.

(** [leaf_at] returns, and what it returns is a leaf of positive size; when
    the tree displayed is not itself such a leaf, the leaf has a parent. *)
Lemma leaf_at_at_ok (fuel : nat) (h : heap) (tree : addr) (o : obj)
    (p : pos) (r : rect) :
  representation_invariants h = true -> rooted fuel h = true ->
  h !! tree = Some o ->
  exists res, leaf_at_at (S fuel) tree p r h = Some (Return res, h) /\
    (within p r = false -> res = None) /\
    forall b, res = Some b ->
      exists ob, h !! b = Some ob /\ _subtrees ob = [] /\ 0 < data_size ob /\
        (b = tree \/ is_Some (_parent_tree ob)).
Proof.
  intros Hinv Hroot Ho.
  destruct (invariants_view fuel h tree o Hinv Hroot Ho) as (t & Ht & Hwf & Hsz).
  apply representation_invariants_spec in Hinv as (Hnn & Hcons & Hez & Hcoh).
  destruct (leaf_at_ok t Hwf) as (_ & Hcall).
  destruct (Hcall p r) as (res & Hrun & Hout & Hin).
  exists res. split; [|split; [assumption|]].
  - cbn [snd] in Hrun. unfold leaf_at_at. rewrite Ht.
    cbn [mbind option_bind]. now rewrite Hrun.
  - intros b ->.
    apply (view_positive_leaf (S fuel) h tree b t Hcoh Hez Ht).
    now apply Hin.
Qed.

(** The caption of a leaf that has a label. *)
Lemma caption_ok (cls : tree_class) (fuel : nat) (h : heap) (leaf : addr)
    (o : obj) :
  cls ≠ AbstractTree ->
  representation_invariants h = true -> rooted fuel h = true ->
  h !! leaf = Some o -> is_Some (_root o) ->
  exists s, caption os_path_join cls (S fuel) leaf h = Some (Done s, h).
Proof.
  intros Hcls Hinv Hroot Ho Hlab.
  apply representation_invariants_spec in Hinv as (Hnn & Hcons & Hez & Hcoh).
  assert (Hroot' : rooted (S fuel) h = true).
  { rewrite rooted_spec in *. intros b ob Hb.
    destruct (Hroot b ob Hb) as [l Hl]. exists l.
    apply (ancestors_mono fuel); [assumption|lia]. }
  destruct (path_labels_total (S fuel) h leaf o Hcoh Hez Hroot' Ho Hlab)
    as (r & rest & Hpath).
  unfold caption.
  destruct cls; [contradiction| |];
    unfold get_separator;
    rewrite (io_bind_done _ _ _ _ _
               (get_separator_with_path _ _ _ _ _ _ Hpath));
    rewrite (io_bind_done _ _ _ _ _ (call_load _ _ _ Ho)); eauto.
Qed.

Lemma ui_ok_label (fuel : nat) (h : heap) (a : addr) (oa : obj) :
  representation_invariants h = true -> h !! a = Some oa ->
  0 < data_size oa -> is_Some (_root oa).
Proof.
  intros Hinv Ho Hpos.
  apply representation_invariants_spec in Hinv as (_ & _ & Hez & _).
  apply (labelled_of_parent h a); [assumption..|]. right. lia.
Qed.

Lemma rooted_ancestors (fuel : nat) (h : heap) (a : addr) (o : obj) :
  rooted fuel h = true -> h !! a = Some o ->
  exists anc, ancestors fuel h a = Some anc.
Proof.
  intros Hroot Ho. rewrite rooted_spec in Hroot.
  destruct (Hroot a o Ho) as [anc Hanc]. eauto.
Qed.

(** Left click. *)
Lemma select_leaf_ok (cls : tree_class) (fuel : nat) (h : heap)
    (tree : addr) (p : pos) (sel : option addr) :
  cls ≠ AbstractTree -> ui_ok fuel h tree sel ->
  exists sel' f,
    select_leaf os_path_join cls (S fuel) tree p sel h
    = Some (Done (Goes_on, sel', f), h) /\
    ui_ok fuel h tree sel' /\ Forall tiled (option_list f).
Proof.
  intros Hcls (Hinv & Hroot & (o & Ho & Htop) & Hsel).
  destruct (leaf_at_at_ok fuel h tree o p (0, 0, WIDTH, TREEMAP_HEIGHT)
              Hinv Hroot Ho) as (res & Hrun & _ & Hres).
  unfold select_leaf. rewrite (io_bind_done _ _ _ _ _ (call_return _ _ _ _ Hrun)).
  destruct (decide (sel = res)) as [_|Hne].
  - destruct (render_display_ok fuel h tree o "" Hinv Hroot Ho)
      as (tm & Hrender & Htiled).
    rewrite (io_bind_done _ _ _ _ _ Hrender).
    exists None, (Some (tm, ""%string)). split; [reflexivity|]. split.
    + repeat split; try assumption; [eauto|]. intros a [=].
    + now apply Forall_singleton.
  - destruct res as [leaf|].
    + destruct (Hres leaf eq_refl) as (ob & Hob & Hleaf & Hpos & _).
      destruct (caption_ok cls fuel h leaf ob Hcls Hinv Hroot Hob)
        as (text & Htext).
      { now apply (ui_ok_label fuel h leaf). }
      rewrite (io_bind_done _ _ _ _ _ Htext).
      destruct (render_display_ok fuel h tree o text Hinv Hroot Ho)
        as (tm & Hrender & Htiled).
      rewrite (io_bind_done _ _ _ _ _ Hrender).
      exists (Some leaf), (Some (tm, text)). split; [reflexivity|]. split.
      * repeat split; try assumption; [eauto|].
        intros a [= <-]. exists ob. repeat split; [assumption..|lia].
      * now apply Forall_singleton.
    + exists sel, None. split; [reflexivity|]. split; [|constructor].
      repeat split; try assumption. eauto.
Qed.

(** The text under the treemap, for a selected leaf that is fine. *)
Lemma text_ok (cls : tree_class) (fuel : nat) (h : heap) (tree : addr)
    (sel : option addr) :
  cls ≠ AbstractTree -> ui_ok fuel h tree sel ->
  exists text,
    match sel with
    | Some leaf => caption os_path_join cls (S fuel) leaf
    | None => mret ""%string
    end h = Some (Done text, h).
Proof.
  intros Hcls (Hinv & Hroot & _ & Hsel). destruct sel as [leaf|].
  - destruct (Hsel leaf eq_refl) as (oa & Hoa & _ & Hsize).
    apply (caption_ok cls fuel h leaf oa Hcls Hinv Hroot Hoa).
    apply (ui_ok_label fuel h leaf); [assumption..|lia].
  - eexists. reflexivity.
Qed.

(** Right click and delete key. *)
Lemma delete_leaf_under_ok (cls : tree_class) (fuel : nat) (h : heap)
    (tree : addr) (p : pos) (sel : option addr) :
  cls ≠ AbstractTree -> ui_ok fuel h tree sel ->
  exists sel' f h',
    delete_leaf_under os_path_join cls (S fuel) tree p sel h
    = Some (Done (Goes_on, sel', f), h') /\
    ui_ok fuel h' tree sel' /\ Forall tiled (option_list f).
Proof.
  intros Hcls Hui. pose proof Hui as (Hinv & Hroot & (o & Ho & Htop) & Hsel).
  destruct (leaf_at_at_ok fuel h tree o p (0, 0, WIDTH, TREEMAP_HEIGHT)
              Hinv Hroot Ho) as (res & Hrun & _ & Hres).
  unfold delete_leaf_under.
  rewrite (io_bind_done _ _ _ _ _ (call_return _ _ _ _ Hrun)).
  set (sel' := if bool_decide (sel = res) && bool_decide (is_Some res)
               then None else sel).
  assert (exists h', match res with
                     | Some leaf => call (delete (S fuel) leaf)
                     | None => mret tt
                     end h = Some (Done tt, h') /\ ui_ok fuel h' tree sel')
    as (h' & Hdel & Hui').
  { destruct res as [leaf|].
    - destruct (Hres leaf eq_refl) as (ob & Hob & Hleaf & Hpos & Hpar).
      assert (Hp : is_Some (_parent_tree ob)).
      { destruct Hpar as [->|Hp]; [|assumption].
        rewrite Ho in Hob. injection Hob as <-. specialize (Htop Hleaf). lia. }
      destruct (delete_keeps fuel h leaf ob Hinv Hroot Hob Hleaf Hp)
        as (h' & Hdel & Hinv' & Hroot' & Hself & Hsubs & Hleaves).
      exists h'. split.
      + apply call_return. rewrite <- Hdel. destruct Hp as [parent Hp].
        destruct (rooted_ancestors fuel h leaf ob Hroot Hob) as [anc Hanc].
        apply ancestors_unfold in Hanc as (ob' & Hob' & Hanc).
        rewrite Hob in Hob'. injection Hob' as <-. rewrite Hp in Hanc.
        destruct Hanc as (fuel' & l' & -> & Hanc).
        assert (Hop : exists op, h !! parent = Some op).
        { destruct (ancestors_unfold _ _ _ _ Hanc) as (op & ? & _). eauto. }
        destruct Hop as [op Hop].
        destruct (rooted_ancestors fuel h parent op Hroot Hop) as [anc Hancp].
        apply (delete_fuel fuel (S fuel) h leaf parent ob anc); try assumption.
        lia.
      + repeat split; try assumption.
        * pose proof (Hsubs tree) as Ht. rewrite Ho in Ht.
          destruct (h' !! tree) as [o'|] eqn:Ho'; [|discriminate].
          exists o'. split; [reflexivity|]. intros Hl.
          injection Ht as Ht. rewrite Hl in Ht.
          assert (tree ≠ leaf) as Hne.
          { intros ->. rewrite Ho in Hob. injection Hob as <-.
            specialize (Htop Hleaf). lia. }
          rewrite (Hleaves tree o Hne Ho (eq_sym Ht)) in Ho'.
          injection Ho' as <-. now apply Htop.
        * intros a Ha. unfold sel' in Ha.
          destruct (decide (sel = Some leaf)) as [E|Hne].
          { rewrite E in Ha. rewrite bool_decide_eq_true_2 in Ha by reflexivity.
            rewrite bool_decide_eq_true_2 in Ha by eauto. discriminate. }
          rewrite (bool_decide_eq_false_2 _ Hne) in Ha. simpl in Ha.
          destruct (Hsel a Ha) as (oa & Hoa & Hla & Hsa).
          exists oa. repeat split; try assumption.
          apply Hleaves; try assumption. congruence.
    - exists h. split; [reflexivity|]. unfold sel'.
      rewrite (bool_decide_eq_false_2 (is_Some None)) by (intros [? [=]]).
      now rewrite andb_false_r. }
  rewrite (io_bind_done _ _ _ _ _ Hdel).
  destruct (text_ok cls fuel h' tree sel' Hcls Hui') as (text & Htext).
  rewrite (io_bind_done _ _ _ _ _ Htext).
  pose proof Hui' as (Hinv' & Hroot' & (o' & Ho' & _) & _).
  destruct (render_display_ok fuel h' tree o' text Hinv' Hroot' Ho')
    as (tm & Hrender & Htiled).
  rewrite (io_bind_done _ _ _ _ _ Hrender).
  exists sel', (Some (tm, text)), h'. split; [reflexivity|].
  split; [assumption|]. now apply Forall_singleton.
Qed.

(** Keys and scroll wheel. *)
Lemma resize_selected_ok (cls : tree_class) (fuel : nat) (h : heap)
    (tree : addr) (sign : Z) (sel : option addr) :
  cls ≠ AbstractTree -> ui_ok fuel h tree sel ->
  exists f h',
    resize_selected os_path_join cls (S fuel) tree sign sel h
    = Some (Done (Goes_on, sel, f), h') /\
    ui_ok fuel h' tree sel /\ Forall tiled (option_list f).
Proof.
  intros Hcls Hui. pose proof Hui as (Hinv & Hroot & (o & Ho & Htop) & Hsel).
  unfold resize_selected. destruct sel as [leaf|].
  - destruct (Hsel leaf eq_refl) as (oa & Hoa & Hleaf & Hsize).
    destruct (change_prop_keeps fuel h leaf oa ((1 # 100) * inject_Z sign)%Q
                Hinv Hroot Hoa Hleaf Hsize)
      as (h' & oa' & Hrun & Hinv' & Hroot' & Hoa' & Hsize' & Hshape & Hsubs
          & Hleaves).
    assert (Hrun' : call (change_prop (S fuel) leaf
                            ((1 # 100) * inject_Z sign)%Q) h
                    = Some (Done tt, h')).
    { apply call_return. rewrite <- Hrun.
      destruct (rooted_ancestors fuel h leaf oa Hroot Hoa) as [anc Hanc].
      apply (change_prop_fuel fuel (S fuel) h leaf _ anc); [assumption|lia]. }
    rewrite (io_bind_done _ _ _ _ _ Hrun').
    assert (Hui' : ui_ok fuel h' tree (Some leaf)).
    { repeat split; try assumption.
      - pose proof (Hsubs tree) as Ht. rewrite Ho in Ht.
        destruct (h' !! tree) as [o'|] eqn:Ho'; [|discriminate].
        exists o'. split; [reflexivity|]. intros Hl.
        injection Ht as Ht. rewrite Hl in Ht.
        assert (tree ≠ leaf) as Hne.
        { intros ->. rewrite Ho in Hoa. injection Hoa as <-.
          specialize (Htop Hleaf). lia. }
        rewrite (Hleaves tree o Hne Ho (eq_sym Ht)) in Ho'.
        injection Ho' as <-. now apply Htop.
      - intros a [= <-]. exists oa'. repeat split; try assumption.
        apply same_shape in Hshape as (_ & -> & _). assumption. }
    destruct (text_ok cls fuel h' tree (Some leaf) Hcls Hui') as (text & Htext).
    rewrite (io_bind_done _ _ _ _ _ Htext).
    pose proof Hui' as (_ & _ & (o' & Ho' & _) & _).
    destruct (render_display_ok fuel h' tree o' text Hinv' Hroot' Ho')
      as (tm & Hrender & Htiled).
    rewrite (io_bind_done _ _ _ _ _ Hrender).
    exists (Some (tm, text)), h'. split; [reflexivity|].
    split; [assumption|]. now apply Forall_singleton.
  - exists None, h. split; [reflexivity|]. split; [assumption|constructor].
Qed.

(** One turn of the loop. *)
Lemma event_loop_body_ok (cls : tree_class) (fuel : nat) (h : heap)
    (tree : addr) (inp : polled) (sel : option addr) :
  cls ≠ AbstractTree -> ui_ok fuel h tree sel ->
  exists c sel' f h',
    event_loop_body os_path_join cls (S fuel) tree inp sel h
    = Some (Done (c, sel', f), h') /\
    ui_ok fuel h' tree sel' /\ Forall tiled (option_list f).
Proof.
  intros Hcls Hui. unfold event_loop_body.
  assert (Hdelete : forall p, exists c sel' f h',
            delete_leaf_under os_path_join cls (S fuel) tree p sel h
            = Some (Done (c, sel', f), h') /\
            ui_ok fuel h' tree sel' /\ Forall tiled (option_list f)).
  { intros p.
    destruct (delete_leaf_under_ok cls fuel h tree p sel Hcls Hui)
      as (sel' & f & h' & ? & ? & ?). eauto 10. }
  assert (Hresize : forall sign, exists c sel' f h',
            resize_selected os_path_join cls (S fuel) tree sign sel h
            = Some (Done (c, sel', f), h') /\
            ui_ok fuel h' tree sel' /\ Forall tiled (option_list f)).
  { intros sign.
    destruct (resize_selected_ok cls fuel h tree sign sel Hcls Hui)
      as (f & h' & ? & ? & ?). eauto 10. }
  assert (Hstay : forall c, exists c' sel' f h',
            (mret (c, sel, None) : IO turn) h = Some (Done (c', sel', f), h') /\
            ui_ok fuel h' tree sel' /\ Forall tiled (option_list f)).
  { intros c. exists c, sel, None, h. split; [reflexivity|].
    split; [assumption|constructor]. }
  destruct (polled_event inp) as [|k|button p|].
  - apply Hstay.
  - destruct k; try apply Hstay;
      (destruct (pressed_K_DELETE inp); [apply Hdelete|apply Hresize]).
  - destruct (button =? 1).
    { destruct (select_leaf_ok cls fuel h tree p sel Hcls Hui)
        as (sel' & f & ? & ? & ?). eauto 10. }
    destruct (button =? 3); [apply Hdelete|].
    destruct (pressed_K_DELETE inp); [apply Hdelete|apply Hresize].
  - destruct (pressed_K_DELETE inp); [apply Hdelete|apply Hstay].
Qed.

Lemma event_loop_from_ok (cls : tree_class) (fuel : nat) (tree : addr)
    (inputs : list polled) :
  cls ≠ AbstractTree ->
  forall h sel, ui_ok fuel h tree sel ->
  exists sel' frames h',
    event_loop_from os_path_join cls (S fuel) tree inputs sel h
    = Some (Done (sel', frames), h') /\
    ui_ok fuel h' tree sel' /\ Forall tiled frames.
Proof.
  intros Hcls. induction inputs as [|inp rest IH]; intros h sel Hui.
  - exists sel, [], h. split; [reflexivity|]. split; [assumption|constructor].
  - destruct (event_loop_body_ok cls fuel h tree inp sel Hcls Hui)
      as (c & sel1 & f & h1 & Hrun & Hui1 & Hf).
    cbn [event_loop_from]. rewrite (io_bind_done _ _ _ _ _ Hrun).
    destruct c.
    + destruct (IH h1 sel1 Hui1) as (sel2 & fs & h2 & Hrun2 & Hui2 & Hfs).
      rewrite (io_bind_done _ _ _ _ _ Hrun2).
      exists sel2, (option_list f ++ fs), h2. split; [reflexivity|].
      split; [assumption|]. now apply Forall_app.
    + exists sel1, (option_list f), h1. split; [reflexivity|].
      split; assumption.
Qed.
End Visualiser.



(** What the three events of the witness do to [family]: the leaf "a" is
    selected, grows from 10 to 11, and is deleted. *)
Example family_clicked :
  exists frames,
    event_loop dashes PopulationTree 5 3%nat
      [Polled (MOUSEBUTTONUP 1 (10, 10)) false (10, 10);
       Polled (KEYUP K_UP) false (10, 10);
       Polled (MOUSEBUTTONUP 3 (10, 10)) false (10, 10)] family
    = Some (Done (None, frames),
            list_to_map
              [(1%nat, Obj None [] None 0 grey);
               (2%nat, Obj (Some "b"%string) [] (Some 3%nat) 20 grey);
               (3%nat, Obj (Some "r"%string) [1%nat; 2%nat] None 20 grey)]) /\
    map snd frames = ["r -- a | Size: 10"; "r -- a | Size: 11"; ""]%string.
Proof. eexists. vm_compute. split; reflexivity. Qed.



(** * update_size on its own *)

(** X12: [update_size] on an object whose parent chain reaches a root returns
    normally; afterwards the object and each of its ancestors have the size
    they had plus [size_change], whatever its sign and whether the object is
    a leaf or not, and their label, subtrees, parent and colour as before;
    no other object is changed, and the parent chain of the object is the
    one of before. *)
Theorem update_size_adds_along_chain (fuel : nat) (h : heap) (self : addr)
    (size_change : Z) (anc : list addr) :
  ancestors fuel h self = Some anc ->
  exists h', update_size fuel self size_change h = Some (Return tt, h') /\
    (forall a, a ∈ self :: anc ->
       exists oa, h !! a = Some oa /\
         h' !! a = Some (Obj (_root oa) (_subtrees oa) (_parent_tree oa)
                           (data_size oa + size_change) (colour oa))) /\
    (forall a, a ∉ self :: anc -> h' !! a = h !! a) /\
    ancestors fuel h' self = Some anc.
Proof.
  intros Hanc.
  destruct (update_size_spec _ _ _ size_change _ Hanc) as (h' & Hrun & Hlk).
  exists h'. split; [assumption|]. split; [|split].
  - intros a Ha. destruct (ancestors_alloc _ _ _ _ _ Hanc Ha) as [oa Hoa].
    exists oa. split; [assumption|]. rewrite Hlk, decide_True, Hoa by assumption.
    reflexivity.
  - intros a Ha. now rewrite Hlk, decide_False.
  - rewrite <- Hanc. apply ancestors_ext. intros b. rewrite Hlk.
    case_decide; [|reflexivity]. now destruct (h !! b).
Qed.

Lemma update_size_adds_along_chain_witness :
  exists h', update_size 5 2%nat (-3) nested = Some (Return tt, h') /\
    (forall a, a ∈ [2%nat; 3%nat] ->
       exists oa, nested !! a = Some oa /\
         h' !! a = Some (Obj (_root oa) (_subtrees oa) (_parent_tree oa)
                           (data_size oa + -3) (colour oa))) /\
    (forall a, a ∉ [2%nat; 3%nat] -> h' !! a = nested !! a) /\
    ancestors 5 h' 2%nat = Some [3%nat].
Proof.
  apply (update_size_adds_along_chain 5 nested 2%nat (-3) [3%nat]).
  reflexivity.
Defined.

Lemma add_data_size_add (d1 d2 : Z) (o : obj) :
  add_data_size d2 (add_data_size d1 o) = add_data_size (d1 + d2) o.
Proof. unfold add_data_size, set_data_size. simpl. f_equal. lia. Qed.

Lemma add_data_size_0 (o : obj) : add_data_size 0 o = o.
Proof.
  destruct o. unfold add_data_size, set_data_size. simpl. f_equal. lia.
Qed.

(** Two changes of size in a row are the change by their sum. *)
Lemma update_size_twice (fuel : nat) (h : heap) (self : addr) (d1 d2 : Z)
    (anc : list addr) :
  ancestors fuel h self = Some anc ->
  (_ ← update_size fuel self d1; update_size fuel self d2) h
  = update_size fuel self (d1 + d2) h.
Proof.
  intros Hanc.
  destruct (update_size_spec _ _ _ d1 _ Hanc) as (h1 & Hrun1 & Hlk1).
  assert (Hanc1 : ancestors fuel h1 self = Some anc).
  { rewrite <- Hanc. apply ancestors_ext. intros b. rewrite Hlk1.
    case_decide; [|reflexivity]. now destruct (h !! b). }
  destruct (update_size_spec _ _ _ d2 _ Hanc1) as (h2 & Hrun2 & Hlk2).
  destruct (update_size_spec _ _ _ (d1 + d2) _ Hanc) as (h3 & Hrun3 & Hlk3).
  rewrite (bind_run _ _ _ _ _ Hrun1), Hrun2, Hrun3. do 2 f_equal.
  apply map_eq. intros b. rewrite Hlk2, Hlk3, Hlk1.
  case_decide; [|reflexivity].
  destruct (h !! b) as [ob|]; [|reflexivity]. simpl.
  now rewrite add_data_size_add.
Qed.

(** X13: on an object whose parent chain reaches a root, two calls of
    [update_size] in a row leave the heap that one call with the sum of the
    two changes leaves; so a change followed by the opposite change gives
    back the heap of before, exactly. *)
Theorem update_size_composes (fuel : nat) (h : heap) (self : addr)
    (d1 d2 : Z) (anc : list addr) :
  ancestors fuel h self = Some anc ->
  (_ ← update_size fuel self d1; update_size fuel self d2) h
  = update_size fuel self (d1 + d2) h /\
  (_ ← update_size fuel self d1; update_size fuel self (- d1)) h
  = Some (Return tt, h).
Proof.
  intros Hanc. split; [now apply (update_size_twice _ _ _ _ _ anc)|].
  rewrite (update_size_twice _ _ _ _ _ anc Hanc), Z.add_opp_diag_r.
  destruct (update_size_spec _ _ _ 0 _ Hanc) as (h' & -> & Hlk).
  do 2 f_equal. apply map_eq. intros b. rewrite Hlk.
  case_decide; [|reflexivity].
  destruct (h !! b) as [ob|]; [|reflexivity]. simpl.
  now rewrite add_data_size_0.
Qed.

Lemma update_size_composes_witness :
  (_ ← update_size 5 1%nat 100; update_size 5 1%nat (1000 * -2)) nested
  = update_size 5 1%nat (100 + 1000 * -2) nested /\
  (_ ← update_size 5 1%nat 100; update_size 5 1%nat (- 100)) nested
  = Some (Return tt, nested).
Proof.
  apply (update_size_composes 5 nested 1%nat 100 (1000 * -2) [2%nat; 3%nat]).
  reflexivity.
Defined.

(** * The mutations and the layout *)

(** The leaves of positive size after a leaf [self] was changed, every list
    of subtrees and every other leaf being as before: those of before that
    [keep] keeps, when [keep] says what becomes of the leaf [self]. *)
Lemma view_after (keep : addr * colour_t -> bool) (h h' : heap)
    (self : addr) (o o' : obj) :
  (forall x, _subtrees <$> h' !! x = _subtrees <$> h !! x) ->
  (forall x ox, x ≠ self -> h !! x = Some ox -> _subtrees ox = [] ->
     h' !! x = Some ox) ->
  h !! self = Some o -> h' !! self = Some o' -> _subtrees o = [] ->
  positive_leaves (Node self (_root o') (data_size o') (colour o') [])
  = List.filter keep
      (positive_leaves (Node self (_root o) (data_size o) (colour o) [])) ->
  (forall lc, lc.1 ≠ self -> keep lc = true) ->
  forall n a t, view n h a = Some t ->
    exists t', view n h' a = Some t' /\
      positive_leaves t' = List.filter keep (positive_leaves t).
Proof.
  intros Hsubs Hleaves Ho Ho' Hleaf Hself Hkeep.
  induction n as [|n IH]; intros a t Hv; [discriminate|].
  apply view_unfold in Hv as (n' & oa & subs & [= <-] & Hoa & Hall & ->).
  pose proof (Hsubs a) as Hsa. rewrite Hoa in Hsa.
  destruct (h' !! a) as [oa'|] eqn:Hoa'; [|discriminate].
  injection Hsa as Hsa.
  assert (Hkids : exists subs',
            Forall2 (fun c s => view n h' c = Some s) (_subtrees oa) subs' /\
            flat_map positive_leaves subs'
            = List.filter keep (flat_map positive_leaves subs)).
  { clear Hoa Hsa. induction Hall as [|c s l subs Hc _ IHl].
    - exists []. split; [constructor|reflexivity].
    - destruct (IH c s Hc) as (s' & Hs' & Es).
      destruct IHl as (subs' & Hsubs' & Esubs).
      exists (s' :: subs'). split; [now constructor|].
      simpl. now rewrite List.filter_app, Es, Esubs. }
  destruct Hkids as (subs' & Hall' & Eleaves).
  exists (Node a (_root oa') (data_size oa') (colour oa') subs'). split.
  - rewrite view_S, Hoa'. cbn [mbind option_bind]. rewrite Hsa.
    apply mapM_Some in Hall'. now rewrite Hall'.
  - destruct (_subtrees oa) as [|c l] eqn:Hl.
    + apply Forall2_nil_inv_l in Hall as ->.
      apply Forall2_nil_inv_l in Hall' as ->.
      destruct (decide (a = self)) as [->|Hne].
      * rewrite Ho in Hoa. injection Hoa as <-.
        rewrite Ho' in Hoa'. injection Hoa' as <-. exact Hself.
      * rewrite (Hleaves a oa Hne Hoa Hl) in Hoa'. injection Hoa' as <-.
        simpl. destruct (0 <? data_size oa); [|reflexivity].
        simpl. now rewrite Hkeep.
    + apply Forall2_cons_inv_l in Hall as (s & subs0 & _ & _ & ->).
      apply Forall2_cons_inv_l in Hall' as (s' & subs0' & _ & _ & ->).
      exact Eleaves.
Qed.





(** * Building trees *)

(** ** __init__ and the invariants *)

(** What [__init__] does on a fresh address. *)
Lemma init_effect (self : addr) (root : option string) (subtrees : list addr)
    (size : Z) (col : colour_t) (h : heap) (sizes : list Z) :
  h !! self = None ->
  mapM (fun c => data_size <$> h !! c) subtrees = Some sizes ->
  exists h', __init__ self root subtrees size col h = Some (Return tt, h') /\
    h' !! self = Some (Obj root subtrees None (size + foldr Z.add 0 sizes) col) /\
    (forall c, c ∈ subtrees ->
       exists oc, h !! c = Some oc /\
         h' !! c = Some (set_parent_tree (Some self) oc)) /\
    (forall a, a ≠ self -> a ∉ subtrees -> h' !! a = h !! a).
Proof.
  intros Hfresh Hsizes.
  assert (Hnin : self ∉ subtrees).
  { intros Hin.
    assert (Hs : Forall (fun c => is_Some (data_size <$> h !! c)) subtrees).
    { apply mapM_Some in Hsizes. clear -Hsizes.
      induction Hsizes; constructor; eauto. }
    rewrite Forall_forall in Hs. specialize (Hs self Hin).
    rewrite Hfresh in Hs. now destruct Hs. }
  unfold __init__. set (o := Obj root subtrees None size col).
  destruct (decide (subtrees = [])) as [->|Hne].
  - injection Hsizes as <-. eexists. split; [reflexivity|]. split; [|split].
    + rewrite lookup_insert_eq. unfold o. simpl. repeat f_equal. lia.
    + intros c Hc. inversion Hc.
    + intros a Ha _. now rewrite lookup_insert_ne by congruence.
  - destruct (init_loop_spec self subtrees (<[self := o]> h) o sizes)
      as (h' & Hrun & Hself & Hkids & Hother).
    + apply lookup_insert_eq.
    + assumption.
    + rewrite <- Hsizes. apply Forall_mapM_ext, Forall_forall. intros a Ha.
      rewrite lookup_insert_ne; [reflexivity|]. intros ->. contradiction.
    + exists h'. split; [assumption|]. split; [|split].
      * rewrite Hself. reflexivity.
      * intros c Hc. destruct (Hkids c Hc) as (oc & E1 & E2).
        rewrite lookup_insert_ne in E1 by (intros ->; contradiction).
        eauto.
      * intros a Ha Hl. rewrite Hother by assumption.
        now rewrite lookup_insert_ne by congruence.
Qed.

Lemma sum_nonneg (l : list Z) : Forall (fun z => 0 <= z) l -> 0 <= foldr Z.add 0 l.
Proof. induction 1; simpl; lia. Qed.

Lemma fit_subtrees_spec (h : heap) (subtrees : list addr) :
  fit_subtrees h subtrees = true <->
  NoDup subtrees /\
  forall c, c ∈ subtrees ->
    exists oc, h !! c = Some oc /\ _parent_tree oc = None /\
      is_Some (_root oc).
Proof.
  unfold fit_subtrees. rewrite andb_true_iff, bool_decide_eq_true.
  rewrite forallb_forall. unfold fit_subtree. split; intros [Hnd H].
  - split; [assumption|]. intros c Hc.
    specialize (H c ltac:(now apply list_elem_of_In)).
    destruct (h !! c) as [oc|]; [|discriminate].
    apply andb_true_iff in H as [H1 H2].
    apply bool_decide_eq_true in H1, H2. eauto.
  - split; [assumption|]. intros c Hc. apply list_elem_of_In in Hc.
    destruct (H c Hc) as (oc & -> & H1 & H2).
    apply andb_true_iff. split; now apply bool_decide_eq_true.
Qed.

Lemma fit_subtrees_sizes (h : heap) (subtrees : list addr) :
  sizes_nonneg h = true -> fit_subtrees h subtrees = true ->
  exists sizes, mapM (fun c => data_size <$> h !! c) subtrees = Some sizes /\
    Forall (fun z => 0 <= z) sizes.
Proof.
  intros Hnn [_ Hfit]%fit_subtrees_spec. rewrite sizes_nonneg_spec in Hnn.
  induction subtrees as [|c l IH].
  - exists []. split; [reflexivity|constructor].
  - destruct IH as (sizes & Hs & Hpos).
    { intros a Ha. apply Hfit. now right. }
    destruct (Hfit c ltac:(now left)) as (oc & Hoc & _).
    exists (data_size oc :: sizes). split.
    + simpl. rewrite Hoc. simpl. now rewrite Hs.
    + constructor; [now apply (Hnn c oc)|assumption].
Qed.

(** [__init__] on a fresh address, over fit subtrees and without an explicit
    size when there are subtrees, gives a heap that keeps the invariants. *)
Lemma init_keeps (h : heap) (self : addr) (root : option string)
    (subtrees : list addr) (size : Z) (col : colour_t) :
  representation_invariants h = true ->
  h !! self = None -> fit_subtrees h subtrees = true ->
  0 <= size -> (subtrees ≠ [] -> size = 0) ->
  (root = None -> subtrees = [] /\ size = 0) ->
  exists h' sizes,
    __init__ self root subtrees size col h = Some (Return tt, h') /\
    mapM (fun c => data_size <$> h !! c) subtrees = Some sizes /\
    representation_invariants h' = true /\
    h' !! self = Some (Obj root subtrees None (size + foldr Z.add 0 sizes) col) /\
    (forall c, c ∈ subtrees ->
       exists oc, h !! c = Some oc /\
         h' !! c = Some (set_parent_tree (Some self) oc)) /\
    (forall a, a ≠ self -> a ∉ subtrees -> h' !! a = h !! a).
Proof.
  intros Hinv Hfresh Hfit Hsize Hexplicit Hempty.
  apply representation_invariants_spec in Hinv as (Hnn & Hcons & Hez & Hcoh).
  destruct (fit_subtrees_sizes h subtrees Hnn Hfit) as (sizes & Hsizes & Hpos).
  apply sum_nonneg in Hpos.
  apply fit_subtrees_spec in Hfit as [Hnd Hfit].
  destruct (init_effect self root subtrees size col h sizes Hfresh Hsizes)
    as (h' & Hrun & Hself & Hkids & Hother).
  exists h', sizes. split; [assumption|]. split; [assumption|].
  split; [|auto].
  (* every object of [h'] comes from [h], but for [self] *)
  assert (Hfrom : forall b ob', b ≠ self -> h' !! b = Some ob' ->
            exists ob, h !! b = Some ob /\
              (ob' = ob \/ (b ∈ subtrees /\ ob' = set_parent_tree (Some self) ob))).
  { intros b ob' Hb Hb'. destruct (decide (b ∈ subtrees)) as [Hin|Hnin].
    - destruct (Hkids b Hin) as (ob & Hob & E). rewrite E in Hb'.
      injection Hb' as <-. eauto.
    - rewrite Hother in Hb' by assumption. eauto. }
  assert (Hto : forall b ob, h !! b = Some ob ->
            b ≠ self /\ exists ob', h' !! b = Some ob' /\
              set_parent_tree None ob' = set_parent_tree None ob).
  { intros b ob Hb. assert (b ≠ self) as Hne by congruence.
    split; [assumption|]. destruct (decide (b ∈ subtrees)) as [Hin|Hnin].
    - destruct (Hkids b Hin) as (ob0 & Hob0 & E). rewrite Hb in Hob0.
      injection Hob0 as <-. eauto.
    - rewrite <- Hother in Hb by assumption. eauto. }
  assert (Hsame : forall l, (forall c, c ∈ l -> is_Some (h !! c)) ->
            children_sum h' l = children_sum h l).
  { intros l Hl. apply children_sum_same. intros c Hc.
    destruct (Hl c Hc) as [oc Hoc].
    destruct (Hto c oc Hoc) as (_ & oc' & -> & E). rewrite Hoc. simpl.
    f_equal. destruct oc, oc'. unfold set_parent_tree in E. simpl in *.
    congruence. }
  pose proof Hcoh as Hcoh'. rewrite coherent_spec in Hcoh'.
  pose proof Hnn as Hnn'. rewrite sizes_nonneg_spec in Hnn'.
  pose proof Hez as Hez'. rewrite empty_is_zero_spec in Hez'.
  pose proof Hcons as Hcons'. rewrite weight_conserved_spec in Hcons'.
  apply invariants_intro.
  - (* sizes and labels *)
    intros b ob' Hb'. destruct (decide (b = self)) as [->|Hne].
    + rewrite Hself in Hb'. injection Hb' as <-. simpl. split; [lia|].
      unfold empty_at. simpl. destruct root; [reflexivity|].
      destruct (Hempty eq_refl) as [-> ->]. injection Hsizes as <-.
      reflexivity.
    + destruct (Hfrom b ob' Hne Hb') as (ob & Hob & [->|[Hin ->]]).
      * split; [now apply (Hnn' b)|].
        unfold empty_is_zero in Hez.
        rewrite (forallb_map_to_list (fun _ o => empty_at o)) in Hez.
        now apply (Hez b).
      * simpl. split; [now apply (Hnn' b)|].
        destruct (Hfit b Hin) as (ob0 & Hob0 & _ & [s Hs]).
        rewrite Hob in Hob0. injection Hob0 as <-.
        unfold empty_at. simpl. now rewrite Hs.
  - (* the sums *)
    apply weight_conserved_spec. intros b ob' Hb' Hl.
    destruct (decide (b = self)) as [->|Hne].
    + rewrite Hself in Hb'. injection Hb' as <-. simpl in *.
      rewrite (Hexplicit Hl), Hsame.
      * unfold children_sum. now rewrite Hsizes.
      * intros c Hc. destruct (Hfit c Hc) as (oc & -> & _). eauto.
    + destruct (Hfrom b ob' Hne Hb') as (ob & Hob & E).
      assert (Es : _subtrees ob' = _subtrees ob /\ data_size ob' = data_size ob)
        by (destruct E as [->|[_ ->]]; auto).
      destruct Es as [Es Ed]. rewrite Es, Ed in *.
      rewrite Hsame; [now apply (Hcons' b)|].
      intros c Hc. destruct (Hcoh' b ob Hob) as (_ & Hk & _).
      destruct (Hk c Hc) as (oc & -> & _). eauto.
  - (* the references *)
    apply coherent_spec. intros b ob' Hb'.
    destruct (decide (b = self)) as [->|Hne].
    + rewrite Hself in Hb'. injection Hb' as <-. simpl.
      split; [assumption|]. split; [|discriminate].
      intros c Hc. destruct (Hkids c Hc) as (oc & _ & ->). eauto.
    + destruct (Hfrom b ob' Hne Hb') as (ob & Hob & E).
      destruct (Hcoh' b ob Hob) as (Hndb & Hk & Hp).
      assert (Es : _subtrees ob' = _subtrees ob)
        by (destruct E as [->|[_ ->]]; auto).
      rewrite Es. split; [assumption|]. split.
      * intros c Hc. destruct (Hk c Hc) as (oc & Hoc & Hlink).
        assert (c ∉ subtrees) as Hnin.
        { intros Hin. destruct (Hfit c Hin) as (oc0 & Hoc0 & Hpar & [s Hs]).
          rewrite Hoc in Hoc0. injection Hoc0 as <-.
          destruct Hlink as [Hl|Hl]; [congruence|].
          apply emptied_spec in Hl as (Hr & _). congruence. }
        exists oc. split; [|assumption].
        rewrite Hother; [assumption| |assumption]. congruence.
      * intros p Hpar. destruct E as [->|[Hin ->]].
        -- destruct (Hp p Hpar) as (op & Hop & Hbin).
           destruct (Hto p op Hop) as (_ & op' & Hop' & E).
           exists op'. split; [assumption|].
           replace (_subtrees op') with (_subtrees op); [assumption|].
           destruct op, op'. unfold set_parent_tree in E. simpl in *.
           congruence.
        -- simpl in Hpar. injection Hpar as <-. exists (Obj root subtrees None
             (size + foldr Z.add 0 sizes) col). auto.
Qed.

(** After [__init__] every parent chain is the one of before, or the one of
    before with the new object at its end. *)
Lemma init_chain (h h' : heap) (self : addr) (o : obj)
    (subtrees : list addr) :
  h !! self = None -> h' !! self = Some o -> _parent_tree o = None ->
  (forall c, c ∈ subtrees ->
     exists oc, h !! c = Some oc /\
       h' !! c = Some (set_parent_tree (Some self) oc)) ->
  (forall a, a ≠ self -> a ∉ subtrees -> h' !! a = h !! a) ->
  forall n b, is_Some (ancestors n h b) -> is_Some (ancestors (S n) h' b).
Proof.
  intros Hfresh Hself Hpar Hkids Hother.
  assert (Hs : forall n, ancestors (S n) h' self = Some []).
  { intros n. simpl. rewrite Hself. simpl. now rewrite Hpar. }
  induction n as [|n IH]; intros b [l Hl]; [discriminate|].
  simpl in Hl. destruct (h !! b) as [ob|] eqn:Hob; [|discriminate].
  simpl in Hl. assert (b ≠ self) as Hne by congruence.
  destruct (decide (b ∈ subtrees)) as [Hin|Hnin].
  - destruct (Hkids b Hin) as (ob0 & Hob0 & Hb').
    change (ancestors (S (S n)) h' b)
      with (o ← h' !! b;
            match _parent_tree o with
            | Some parent => l ← ancestors (S n) h' parent; Some (parent :: l)
            | None => Some []
            end).
    rewrite Hb'. simpl. rewrite Hself. simpl. rewrite Hpar. eauto.
  - change (ancestors (S (S n)) h' b)
      with (o ← h' !! b;
            match _parent_tree o with
            | Some parent => l ← ancestors (S n) h' parent; Some (parent :: l)
            | None => Some []
            end).
    rewrite (Hother b Hne Hnin), Hob. cbn [mbind option_bind].
    destruct (_parent_tree ob) as [p|]; [|eauto].
    destruct (ancestors n h p) as [lp|] eqn:Hp; [|discriminate].
    destruct (IH p ltac:(eauto)) as [lp' ->]. simpl. eauto.
Qed.

(** X16: [__init__] on a new object, over subtrees that are distinct objects
    with a label and without a parent, with no explicit size when there are
    subtrees and a label unless the tree is to be empty: it returns, and
    when the heap kept the representation invariants of the class it keeps
    them again, with the new object's size the sum of its subtrees' sizes (or
    the explicit size of a leaf) and every parent chain reaching a root. *)
Theorem init_establishes_invariants (h : heap) (self : addr)
    (root : option string) (subtrees : list addr) (size : Z) (col : colour_t)
    (n : nat) :
  representation_invariants h = true -> rooted n h = true ->
  h !! self = None -> fit_subtrees h subtrees = true ->
  0 <= size -> (subtrees ≠ [] -> size = 0) ->
  (root = None -> subtrees = [] /\ size = 0) ->
  exists h' total,
    __init__ self root subtrees size col h = Some (Return tt, h') /\
    representation_invariants h' = true /\ rooted (S n) h' = true /\
    h' !! self = Some (Obj root subtrees None total col) /\
    (subtrees = [] -> total = size) /\
    (subtrees ≠ [] -> children_sum h subtrees = Some total).
Proof.
  intros Hinv Hroot Hfresh Hfit Hsize Hexplicit Hempty.
  destruct (init_keeps h self root subtrees size col Hinv Hfresh
              Hfit Hsize Hexplicit Hempty)
    as (h' & sizes & Hrun & Hsizes & Hinv' & Hself & Hkids & Hother).
  exists h', (size + foldr Z.add 0 sizes).
  split; [assumption|]. split; [assumption|]. split; [|split; [assumption|split]].
  - rewrite rooted_spec in *. intros b ob' Hb'.
    destruct (decide (b = self)) as [->|Hne].
    + exists []. simpl. rewrite Hself. reflexivity.
    + apply (init_chain h h' self _ subtrees Hfresh Hself eq_refl Hkids Hother).
      destruct (decide (b ∈ subtrees)) as [Hin|Hnin].
      * destruct (Hkids b Hin) as (ob & Hob & _). now apply (Hroot b ob).
      * rewrite Hother in Hb' by assumption. now apply (Hroot b ob').
  - intros ->. injection Hsizes as <-. simpl. lia.
  - intros Hne. rewrite (Hexplicit Hne). unfold children_sum.
    now rewrite Hsizes.
Qed.

Lemma init_establishes_invariants_witness :
  exists h' total,
    __init__ 4%nat (Some "top"%string) [3%nat] 0 grey family
    = Some (Return tt, h') /\
    representation_invariants h' = true /\ rooted 6 h' = true /\
    h' !! 4%nat = Some (Obj (Some "top"%string) [3%nat] None total grey) /\
    ([3%nat] = [] -> total = 0) /\
    ([3%nat] ≠ [] -> children_sum family [3%nat] = Some total).
Proof.
  apply (init_establishes_invariants family 4%nat (Some "top"%string)
           [3%nat] 0 grey 5);
    [reflexivity | reflexivity | reflexivity | reflexivity | lia
    | reflexivity | discriminate].
Defined.

(** ** FileSystemTree *)

(** A heap that only grows keeps the parent chains it had. *)
Lemma ancestors_frame (n : nat) (h h' : heap) (a : addr) (l : list addr) :
  (forall b ob, h !! b = Some ob -> h' !! b = Some ob) ->
  ancestors n h a = Some l -> ancestors n h' a = Some l.
Proof.
  intros Hframe Hanc. apply (ancestors_ext_on n h); [assumption|].
  intros b Hb. destruct (ancestors_alloc _ _ _ _ _ Hanc Hb) as [ob Hob].
  now rewrite (Hframe b ob Hob), Hob.
Qed.

Lemma alloc_fresh (h : heap) :
  alloc h = Some (Return (fresh (dom h)), h) /\ h !! fresh (dom h) = None.
Proof. split; [reflexivity|]. apply not_elem_of_dom, is_fresh. Qed.

Section FileSystemProofs.
Variable isdir : string -> bool.
Variable listdir : string -> list string.
Variable getsize : string -> Z.
Variable basename : string -> string.
Variable os_path_join : string -> string -> string.
Variable randcolour : addr -> colour_t.

#[local] Abbreviation build :=
  (FileSystemTree_init isdir listdir getsize basename os_path_join randcolour).
#[local] Abbreviation ok := (fs_ok isdir listdir getsize os_path_join).
#[local] Abbreviation usage := (disk_usage isdir listdir getsize os_path_join).
#[local] Abbreviation built :=
  (built_by isdir listdir getsize basename os_path_join randcolour).

Lemma build_entries (fuel : nat) (path : string) :
  (forall p h, representation_invariants h = true -> ok fuel p = true ->
     exists a h', build fuel p h = Some (Return a, h') /\ built fuel p h h' a) ->
  forall entries h,
    representation_invariants h = true ->
    forallb (fun entry => ok fuel (os_path_join path entry)) entries = true ->
    exists tree_list h1,
      mapM (fun entry => build fuel (os_path_join path entry)) entries h
      = Some (Return tree_list, h1) /\
      (forall b ob, h !! b = Some ob -> h1 !! b = Some ob) /\
      representation_invariants h1 = true /\
      (forall b, h !! b = None -> is_Some (h1 !! b) ->
         is_Some (ancestors fuel h1 b)) /\
      NoDup tree_list /\
      Forall2 (fun entry a =>
                 h !! a = None /\
                 exists o, h1 !! a = Some o /\ is_Some (_root o) /\
                   _parent_tree o = None /\
                   data_size o = usage fuel (os_path_join path entry))
        entries tree_list.
Proof.
  intros IH. induction entries as [|e rest IHrest]; intros h Hinv Hok.
  - exists [], h. split; [reflexivity|]. repeat split; try assumption.
    + auto.
    + intros b Hb [ob Hob]. congruence.
    + constructor.
    + constructor.
  - simpl in Hok. apply andb_true_iff in Hok as [Hoke Hokrest].
    destruct (IH (os_path_join path e) h Hinv Hoke)
      as (a & ha & Hrun & (Hframe & Hinva & Hnew) & Hfresh & kids & Ha & _).
    destruct (IHrest ha Hinva Hokrest)
      as (l & h1 & Hrunl & Hframe1 & Hinv1 & Hnew1 & Hnd & Hall).
    exists (a :: l), h1. split.
    { cbn [mapM]. rewrite (bind_run _ _ _ _ _ Hrun).
      now rewrite (bind_run _ _ _ _ _ Hrunl). }
    split; [auto|]. split; [assumption|]. split; [|split].
    + intros b Hb Hb1. destruct (ha !! b) as [ob|] eqn:Hob.
      * destruct (Hnew b Hb ltac:(eauto)) as [lb Hlb]. exists lb.
        now apply (ancestors_frame fuel ha h1).
      * now apply Hnew1.
    + constructor; [|assumption]. intros Hin.
      apply list_elem_of_lookup in Hin as [i Hi].
      destruct (Forall2_lookup_r _ _ _ _ _ Hall Hi) as (e' & _ & Ha' & _).
      congruence.
    + constructor.
      * split; [assumption|]. eexists. split; [apply Hframe1, Ha|].
        simpl. eauto.
      * eapply Forall2_impl; [exact Hall|]. intros e' a' [Hfa Hrest].
        split; [|assumption].
        destruct (h !! a') as [oa'|] eqn:E; [|reflexivity].
        apply Hframe in E. congruence.
Qed.

Lemma build_ok (fuel : nat) :
  forall path h, representation_invariants h = true -> ok fuel path = true ->
    exists a h', build fuel path h = Some (Return a, h') /\
      built fuel path h h' a.
Proof.
  induction fuel as [|fuel IH]; intros path h Hinv Hok; [discriminate|].
  cbn [FileSystemTree_init fs_ok disk_usage] in *. unfold built_by, grown.
  cbn [disk_usage]. destruct (isdir path).
  - destruct (build_entries fuel path IH (listdir path) h Hinv Hok)
      as (tree_list & h1 & Hrun & Hframe & Hinv1 & Hnew & Hnd & Hall).
    rewrite (bind_run _ _ _ _ _ Hrun).
    destruct (alloc_fresh h1) as [Halloc Hfresh].
    set (self := fresh (dom h1)) in *.
    rewrite (bind_run _ _ _ _ _ Halloc).
    assert (Hfit : fit_subtrees h1 tree_list = true).
    { apply fit_subtrees_spec. split; [assumption|]. intros c Hc.
      apply list_elem_of_lookup in Hc as [i Hi].
      destruct (Forall2_lookup_r _ _ _ _ _ Hall Hi)
        as (e & _ & _ & o & Ho & Hlab & Hpar & _).
      eauto. }
    destruct (init_keeps h1 self (Some (basename path)) tree_list 0
                (randcolour self) Hinv1 Hfresh Hfit)
      as (h' & sizes & Hinit & Hsizes & Hinv' & Hself & Hkids & Hother);
      [lia|reflexivity|discriminate|].
    rewrite (bind_run _ _ _ _ _ Hinit).
    exists self, h'. split; [reflexivity|].
    assert (Hold : forall b ob, h !! b = Some ob -> h' !! b = Some ob).
    { intros b ob Hb. rewrite Hother; [now apply Hframe| |].
      - apply Hframe in Hb. congruence.
      - intros Hin. apply list_elem_of_lookup in Hin as [i Hi].
        destruct (Forall2_lookup_r _ _ _ _ _ Hall Hi) as (e & _ & Hfb & _).
        congruence. }
    split; [split; [assumption|split; [assumption|]]|split].
    + intros b Hb Hb'. destruct (decide (b = self)) as [->|Hne].
      * exists []. simpl. rewrite Hself. reflexivity.
      * apply (init_chain h1 h' self _ tree_list Hfresh Hself eq_refl Hkids
                 Hother).
        apply Hnew; [assumption|].
        destruct (decide (b ∈ tree_list)) as [Hin|Hnin].
        -- destruct (Hkids b Hin) as (ob & -> & _). eauto.
        -- now rewrite <- (Hother b Hne Hnin).
    + destruct (h !! self) as [os|] eqn:E; [|reflexivity].
      apply Hframe in E. congruence.
    + exists tree_list. split.
      * rewrite Hself. do 2 f_equal.
        assert (Esizes : sizes
                = map (fun entry => usage fuel (os_path_join path entry))
                    (listdir path)).
        { apply mapM_Some in Hsizes. clear -Hall Hsizes.
          revert sizes Hsizes. induction Hall as [|e a es l Ha _ IHl];
            intros sizes Hsizes.
          - now apply Forall2_nil_inv_l in Hsizes as ->.
          - apply Forall2_cons_inv_l in Hsizes as (s & sizes' & Hs & Hrest & ->).
            destruct Ha as (_ & o & Ho & _ & _ & Hd). rewrite Ho in Hs.
            simpl in Hs. injection Hs as <-. simpl. rewrite Hd.
            f_equal. now apply IHl. }
        rewrite Esizes. lia.
      * symmetry. eapply Forall2_length. exact Hall.
  - destruct (alloc_fresh h) as [Halloc Hfresh].
    set (self := fresh (dom h)) in *.
    rewrite (bind_run _ _ _ _ _ Halloc).
    apply Z.leb_le in Hok.
    destruct (init_keeps h self (Some (basename path)) [] (getsize path)
                (randcolour self) Hinv Hfresh)
      as (h' & sizes & Hinit & Hsizes & Hinv' & Hself & Hkids & Hother);
      [reflexivity|assumption|congruence|discriminate|].
    rewrite (bind_run _ _ _ _ _ Hinit).
    exists self, h'. split; [reflexivity|].
    injection Hsizes as <-.
    assert (Hold : forall b ob, h !! b = Some ob -> h' !! b = Some ob).
    { intros b ob Hb. rewrite Hother; [assumption| |].
      - congruence.
      - intros Hin. inversion Hin. }
    split; [split; [assumption|split; [assumption|]]|split].
    + intros b Hb Hb'. destruct (decide (b = self)) as [->|Hne].
      * exists []. simpl. rewrite Hself. reflexivity.
      * rewrite Hother in Hb'; [|assumption|intros Hin; inversion Hin].
        rewrite Hb in Hb'. now destruct Hb'.
    + assumption.
    + exists []. split; [|reflexivity]. rewrite Hself. do 2 f_equal.
      simpl. lia.
Qed.

(** [FileSystemTree(path)] on a file system that is at most [fuel] levels
    deep below [path] and whose files have sizes that are not negative. *)
Lemma FileSystemTree_init_ok (fuel n : nat) (path : string) (h : heap) :
  representation_invariants h = true -> rooted n h = true ->
  ok fuel path = true ->
  exists self h' kids,
    build fuel path h = Some (Return self, h') /\
    representation_invariants h' = true /\ rooted (n `max` fuel) h' = true /\
    h !! self = None /\
    h' !! self = Some (Obj (Some (basename path)) kids None (usage fuel path)
                         (randcolour self)) /\
    length kids = (if isdir path then length (listdir path) else 0%nat) /\
    (forall b ob, h !! b = Some ob -> h' !! b = Some ob).
Proof.
  intros Hinv Hroot Hok.
  destruct (build_ok fuel path h Hinv Hok)
    as (self & h' & Hrun & (Hframe & Hinv' & Hnew) & Hfresh & kids & Hself
        & Hlen).
  exists self, h', kids. repeat split; try assumption.
  rewrite rooted_spec in *. intros b ob' Hb'.
  destruct (h !! b) as [ob|] eqn:Hb.
  - destruct (Hroot b ob Hb) as [l Hl]. exists l.
    apply (ancestors_mono n); [|lia]. now apply (ancestors_frame n h).
  - destruct (Hnew b Hb ltac:(eauto)) as [l Hl]. exists l.
    apply (ancestors_mono fuel); [assumption|lia].
Qed.
End FileSystemProofs.

(** X17: [FileSystemTree(path)], on a file system that is at most [fuel]
    levels deep below [path] and whose files have sizes that are not
    negative, started in a heap that keeps the invariants: the call returns
    a new object; the heap keeps the representation invariants and every
    parent chain reaches a root; the new object has the name of [path] as
    its label, no parent, one subtree per entry of a folder, and the sum of
    the sizes of all the files below [path] as its size; and the objects
    that were there are untouched. *)
Theorem FileSystemTree_builds_tree (isdir : string -> bool)
    (listdir : string -> list string) (getsize : string -> Z)
    (basename : string -> string) (os_path_join : string -> string -> string)
    (randcolour : addr -> colour_t) (fuel n : nat) (path : string)
    (h : heap) :
  representation_invariants h = true -> rooted n h = true ->
  fs_ok isdir listdir getsize os_path_join fuel path = true ->
  exists self h' kids,
    FileSystemTree_init isdir listdir getsize basename os_path_join randcolour
      fuel path h
    = Some (Return self, h') /\
    representation_invariants h' = true /\ rooted (n `max` fuel) h' = true /\
    h !! self = None /\
    h' !! self
    = Some (Obj (Some (basename path)) kids None
              (disk_usage isdir listdir getsize os_path_join fuel path)
              (randcolour self)) /\
    length kids = (if isdir path then length (listdir path) else 0%nat) /\
    (forall b ob, h !! b = Some ob -> h' !! b = Some ob).
Proof. apply FileSystemTree_init_ok. Qed.

Lemma FileSystemTree_builds_tree_witness :
  exists self h' kids,
    FileSystemTree_init d_isdir d_listdir d_getsize d_basename slash_join
      (fun _ => grey) 2 "d" ∅
    = Some (Return self, h') /\
    representation_invariants h' = true /\ rooted (0 `max` 2) h' = true /\
    (∅ : heap) !! self = None /\
    h' !! self
    = Some (Obj (Some (d_basename "d")) kids None
              (disk_usage d_isdir d_listdir d_getsize slash_join 2 "d")
              grey) /\
    length kids
    = (if d_isdir "d" then length (d_listdir "d") else 0%nat) /\
    (forall b ob, (∅ : heap) !! b = Some ob -> h' !! b = Some ob).
Proof.
  apply (FileSystemTree_builds_tree d_isdir d_listdir d_getsize d_basename
           slash_join (fun _ => grey) 2 0 "d" ∅); reflexivity.
Defined.

(** The tree built for the folder "d". *)
Example d_built :
  exists self h',
    FileSystemTree_init d_isdir d_listdir d_getsize d_basename slash_join
      (fun _ => grey) 2 "d" ∅
    = Some (Return self, h') /\
    view 2 h' self
    = Some (Node 2%nat (Some "d"%string) 30 grey
              [Node 0%nat (Some "a"%string) 10 grey [];
               Node 1%nat (Some "b"%string) 20 grey []]).
Proof. eexists _, _. split; vm_compute; reflexivity. Qed.

(** * population.py *)

(** ** Dictionaries *)

Section Dict.
Context {V : Type}.
Implicit Types (d : dict V) (k : string) (v : V).

Lemma dict_get_set_eq d k v : dict_get (dict_set d k v) k = Some v.
Proof.
  induction d as [|[k' v'] d IH]; simpl.
  - now rewrite String.eqb_refl.
  - destruct (String.eqb k' k) eqn:E; simpl; now rewrite E.
Qed.

Lemma dict_get_set_ne d k k' v :
  k ≠ k' -> dict_get (dict_set d k v) k' = dict_get d k'.
Proof.
  intros Hne. induction d as [|[k0 v0] d IH]; simpl.
  - now apply String.eqb_neq in Hne as ->.
  - destruct (String.eqb k0 k) eqn:E; simpl.
    + apply String.eqb_eq in E as ->.
      now apply String.eqb_neq in Hne as ->.
    + now rewrite IH.
Qed.

Lemma dict_get_None d k : dict_get d k = None <-> k ∉ map fst d.
Proof.
  induction d as [|[k' v'] d IH]; simpl.
  - split; [intros _ H; inversion H|reflexivity].
  - destruct (String.eqb k' k) eqn:E.
    + apply String.eqb_eq in E as ->. split; [discriminate|].
      intros H. exfalso. apply H. now left.
    + apply String.eqb_neq in E. rewrite IH, not_elem_of_cons.
      split; [|now intros [_ H]].
      intros H. split; [|assumption]. intros ->. now apply E.
Qed.

Lemma dict_set_keys d k v :
  map fst (dict_set d k v)
  = if decide (k ∈ map fst d) then map fst d else map fst d ++ [k].
Proof.
  induction d as [|[k' v'] d IH].
  - cbn [dict_set map fst]. case_decide as H; [inversion H|reflexivity].
  - cbn [dict_set]. destruct (String.eqb k' k) eqn:E; cbn [map fst].
    + apply String.eqb_eq in E as ->.
      now rewrite decide_True by (now left).
    + apply String.eqb_neq in E. rewrite IH.
      destruct (decide (k ∈ map fst d)) as [Hin|Hnin].
      * now rewrite decide_True by (now right).
      * rewrite decide_False; [reflexivity|].
        intros [->|?]%elem_of_cons; contradiction.
Qed.

Lemma dict_set_NoDup d k v :
  NoDup (map fst d) -> NoDup (map fst (dict_set d k v)).
Proof.
  intros Hnd. rewrite dict_set_keys. case_decide; [assumption|].
  apply NoDup_app. split; [assumption|]. split.
  - intros x Hx [->|H']%elem_of_cons; [contradiction|inversion H'].
  - apply NoDup_singleton.
Qed.

Lemma dict_pop_None d k : dict_pop d k = None <-> k ∉ map fst d.
Proof.
  induction d as [|[k' v'] d IH]; simpl.
  - split; [intros _ H; inversion H|reflexivity].
  - destruct (String.eqb k' k) eqn:E.
    + apply String.eqb_eq in E as ->. split; [discriminate|].
      intros H. exfalso. apply H. now left.
    + apply String.eqb_neq in E. rewrite not_elem_of_cons, <- IH.
      destruct (dict_pop d k); simpl.
      * split; [discriminate|]. now intros [_ H].
      * split; [|reflexivity]. intros _. split; [|reflexivity].
        intros ->. now apply E.
Qed.

Lemma dict_pop_Some d d' k :
  NoDup (map fst d) -> dict_pop d k = Some d' ->
  NoDup (map fst d') /\
  forall k', dict_get d' k' = if String.eqb k' k then None else dict_get d k'.
Proof.
  revert d'. induction d as [|[k0 v0] d IH]; intros d' Hnd; [discriminate|].
  simpl in *. apply NoDup_cons in Hnd as [Hnin Hnd].
  destruct (String.eqb k0 k) eqn:E.
  - apply String.eqb_eq in E as ->. intros [= <-]. split; [assumption|].
    intros k'. destruct (String.eqb k' k) eqn:E'.
    + apply String.eqb_eq in E' as ->. now apply dict_get_None.
    + rewrite String.eqb_sym in E'. now rewrite E'.
  - destruct (dict_pop d k) as [d''|] eqn:Ep; [|discriminate].
    intros [= <-]. destruct (IH d'' Hnd eq_refl) as [Hnd'' Hget].
    split.
    + simpl. apply NoDup_cons. split; [|assumption].
      apply dict_get_None. rewrite Hget, E. now apply dict_get_None.
    + intros k'. simpl. destruct (String.eqb k0 k') eqn:E0.
      * apply String.eqb_eq in E0 as <-. rewrite E. reflexivity.
      * apply Hget.
Qed.
End Dict.

(** ** _get_region_data *)

Lemma names_of_cons (r : string) (item : region_item)
    (data : list region_item) :
  names_of r (item :: data)
  = if String.eqb (item_region item) r then item_name item :: names_of r data
    else names_of r data.
Proof. unfold names_of. simpl. now destruct (String.eqb _ r). Qed.

(** The loop files every name under its region, after the names that the
    region had. *)
Lemma region_loop_spec (data : list region_item) :
  forall regions, NoDup (map fst regions) ->
    NoDup (map fst (region_loop data regions)) /\
    forall r, dict_get (region_loop data regions) r
      = match dict_get regions r, names_of r data with
        | None, [] => None
        | None, l => Some l
        | Some l0, l => Some (l0 ++ l)
        end.
Proof.
  induction data as [|item rest IH]; intros regions Hnd.
  - split; [assumption|]. intros r. simpl.
    destruct (dict_get regions r); [now rewrite app_nil_r|reflexivity].
  - cbn [region_loop].
    set (regions' := match dict_get regions (item_region item) with
                     | Some names =>
                         dict_set regions (item_region item)
                           (names ++ [item_name item])
                     | None => dict_set regions (item_region item)
                                 [item_name item]
                     end).
    assert (Hnd' : NoDup (map fst regions')).
    { unfold regions'. destruct (dict_get regions (item_region item));
        now apply dict_set_NoDup. }
    destruct (IH regions' Hnd') as [Hnd'' Hget]. split; [assumption|].
    intros r. rewrite Hget, names_of_cons.
    destruct (String.eqb (item_region item) r) eqn:E.
    + apply String.eqb_eq in E as <-. unfold regions'.
      destruct (dict_get regions (item_region item)) as [l0|].
      * rewrite dict_get_set_eq. now rewrite <- app_assoc.
      * rewrite dict_get_set_eq. reflexivity.
    + apply String.eqb_neq in E. unfold regions'.
      destruct (dict_get regions (item_region item)) as [l0|];
        now rewrite dict_get_set_ne.
Qed.

Lemma names_of_nil (r : string) (data : list region_item) :
  names_of r data = [] <-> forall item, item ∈ data -> item_region item ≠ r.
Proof.
  induction data as [|item rest IH].
  - split; [intros _ item H; inversion H|reflexivity].
  - rewrite names_of_cons. destruct (String.eqb (item_region item) r) eqn:E.
    + apply String.eqb_eq in E. split; [discriminate|].
      intros H. exfalso. apply (H item); [now left|assumption].
    + apply String.eqb_neq in E. rewrite IH. split.
      * intros H i [->|Hi]%elem_of_cons; auto.
      * intros H i Hi. apply H. now right.
Qed.

(** X18: [_get_region_data] raises [KeyError] exactly when no item of the
    answer is of the region "Aggregates"; otherwise it returns a dictionary
    without the key "Aggregates" that has, for every other region of an
    item, the names of the items of that region in their order, and no other
    key. *)
Theorem get_region_data_groups_by_region (country_data : list region_item) :
  match _get_region_data country_data with
  | Done regions =>
      names_of "Aggregates" country_data ≠ [] /\
      NoDup (map fst regions) /\
      forall r, dict_get regions r
        = if String.eqb r "Aggregates" then None
          else match names_of r country_data with
               | [] => None
               | l => Some l
               end
  | Fails e =>
      e = KeyError /\
      forall item, item ∈ country_data -> item_region item ≠ "Aggregates"%string
  end.
Proof.
  unfold _get_region_data.
  destruct (region_loop_spec country_data [] (NoDup_nil_2)) as [Hnd Hget].
  destruct (dict_pop (region_loop country_data []) "Aggregates") as [d|] eqn:Ep.
  - destruct (dict_pop_Some _ _ _ Hnd Ep) as [Hnd' Hget'].
    split; [|split; [assumption|]].
    + intros Hnil.
      assert (Hin : dict_get (region_loop country_data []) "Aggregates" = None).
      { rewrite Hget. simpl. now rewrite Hnil. }
      apply dict_get_None, dict_pop_None in Hin. congruence.
    + intros r. rewrite Hget'. destruct (String.eqb r "Aggregates");
        [reflexivity|].
      rewrite Hget. reflexivity.
  - split; [reflexivity|]. apply names_of_nil.
    apply dict_pop_None, dict_get_None in Ep. rewrite Hget in Ep. simpl in Ep.
    now destruct (names_of "Aggregates" country_data).
Qed.

Example regions_grouped :
  _get_region_data
    [RegionItem "Aggregates" "World"; RegionItem "Europe" "France";
     RegionItem "Asia" "Japan"; RegionItem "Europe" "Italy"]
  = Done [("Europe", ["France"; "Italy"]); ("Asia", ["Japan"])]%string.
Proof. reflexivity. Qed.

(** ** _get_population_data *)

Section PopulationData.
Context {value : Type}.
Variable int : value -> outcome Z.

Lemma population_loop_spec (data : list (population_item value)) :
  forall countries, NoDup (map fst countries) ->
    match population_loop value int data countries with
    | Done result =>
        Forall (fun c => exists x, counted int c = Done x) data /\
        NoDup (map fst result) /\
        forall name, dict_get result name
          = match population_of int name data with
            | Some n => Some n
            | None => dict_get countries name
            end
    | Fails e =>
        exists before c after, data = before ++ c :: after /\
          Forall (fun c => exists x, counted int c = Done x) before /\
          counted int c = Fails e
    end.
Proof.
  induction data as [|c rest IH]; intros countries Hnd.
  - simpl. split; [constructor|]. split; [assumption|reflexivity].
  - cbn [population_loop population_of]. unfold counted at 1 3.
    assert (Hskip : counted int c = Done None ->
              match population_loop value int rest countries with
              | Done result =>
                  Forall (fun c => exists x, counted int c = Done x) (c :: rest) /\
                  NoDup (map fst result) /\
                  forall name, dict_get result name
                    = match
                        match population_of int name rest with
                        | Some n => Some n
                        | None =>
                            if String.eqb (item_country c) name then
                              match counted int c with
                              | Done x => x
                              | Fails _ => None
                              end
                            else None
                        end
                      with
                      | Some n => Some n
                      | None => dict_get countries name
                      end
              | Fails e =>
                  exists before c0 after, c :: rest = before ++ c0 :: after /\
                    Forall (fun c => exists x, counted int c = Done x) before /\
                    counted int c0 = Fails e
              end).
    { intros Hc. specialize (IH countries Hnd).
      destruct (population_loop value int rest countries) as [result|e].
      - destruct IH as (Hall & Hnd' & Hget). split; [|split; [assumption|]].
        + constructor; [eauto|assumption].
        + intros name. rewrite Hget, Hc.
          destruct (population_of int name rest); [reflexivity|].
          now destruct (String.eqb (item_country c) name).
      - destruct IH as (before & c0 & after & -> & Hall & Hc0).
        exists (c :: before), c0, after. split; [reflexivity|].
        split; [|assumption]. constructor; [eauto|assumption]. }
    destruct (item_value c) as [v|] eqn:Hv.
    + destruct (int v) as [n|e] eqn:Hn.
      * destruct (Z.eqb_spec n 0) as [->|Hnz]; cbn [negb].
        -- apply Hskip. unfold counted. now rewrite Hv, Hn.
        -- assert (Hc : counted int c = Done (Some n)).
           { unfold counted. rewrite Hv, Hn.
             now apply Z.eqb_neq in Hnz as ->. }
           specialize (IH (dict_set countries (item_country c) n)
                         (dict_set_NoDup _ _ _ Hnd)).
           destruct (population_loop value int rest
                       (dict_set countries (item_country c) n)) as [result|e].
           ++ destruct IH as (Hall & Hnd' & Hget).
              split; [|split; [assumption|]].
              ** constructor; [eauto|assumption].
              ** intros name. rewrite Hget, Hc.
                 destruct (population_of int name rest); [reflexivity|].
                 destruct (String.eqb (item_country c) name) eqn:E.
                 --- apply String.eqb_eq in E as <-.
                     now rewrite dict_get_set_eq.
                 --- apply String.eqb_neq in E. now rewrite dict_get_set_ne.
           ++ destruct IH as (before & c0 & after & -> & Hall & Hc0).
              exists (c :: before), c0, after. split; [reflexivity|].
              split; [|assumption]. constructor; [eauto|assumption].
      * exists [], c, rest. split; [reflexivity|]. split; [constructor|].
        unfold counted. now rewrite Hv, Hn.
    + apply Hskip. unfold counted. now rewrite Hv.
Qed.

(** X19: [_get_population_data] never reads the first 47 records of the
    answer.  When [int] accepts every value other than [None] of the
    remaining records it returns a dictionary that gives each country what
    its last record that counts counts for, records whose value is [None] or
    the integer 0 being passed over; otherwise it raises the exception that
    [int] raised on the first value it did not accept. *)
Theorem get_population_data_last_record_wins
    (data : list (population_item value)) :
  match _get_population_data value int data with
  | Done countries =>
      Forall (fun c => exists x, counted int c = Done x) (drop 47 data) /\
      NoDup (map fst countries) /\
      forall name, dict_get countries name
                   = population_of int name (drop 47 data)
  | Fails e =>
      exists before c after, drop 47 data = before ++ c :: after /\
        Forall (fun c => exists x, counted int c = Done x) before /\
        counted int c = Fails e
  end.
Proof.
  unfold _get_population_data.
  pose proof (population_loop_spec (drop 47 data) [] (NoDup_nil_2)) as H.
  destruct (population_loop value int (drop 47 data) []) as [result|e];
    [|assumption].
  destruct H as (Hall & Hnd & Hget). split; [assumption|].
  split; [assumption|]. intros name. rewrite Hget.
  now destruct (population_of int name (drop 47 data)).
Qed.
End PopulationData.

Example populations_read :
  _get_population_data Z Done
    (replicate 47 (PopulationItem "Arab World" (Some 1)) ++
     [PopulationItem "France" (Some 60); PopulationItem "Atlantis" None;
      PopulationItem "Japan" (Some 120); PopulationItem "Nowhere" (Some 0);
      PopulationItem "France" (Some 66)])
  = Done [("France", 66); ("Japan", 120)]%string.
Proof. reflexivity. Qed.

(** ** PopulationTree *)

Lemma grown_refl (fuel : nat) (h : heap) :
  representation_invariants h = true -> grown fuel h h.
Proof.
  intros Hinv. split; [auto|]. split; [assumption|].
  intros b Hb [ob Hob]. congruence.
Qed.

Lemma grown_trans (fuel : nat) (h h1 h2 : heap) :
  grown fuel h h1 -> grown fuel h1 h2 -> grown fuel h h2.
Proof.
  intros (Hf1 & _ & Hn1) (Hf2 & Hinv2 & Hn2). split; [auto|].
  split; [assumption|]. intros b Hb Hb2.
  destruct (h1 !! b) as [ob|] eqn:Hb1.
  - destruct (Hn1 b Hb ltac:(eauto)) as [l Hl]. exists l.
    now apply (ancestors_frame fuel h1 h2).
  - now apply Hn2.
Qed.

Lemma grown_rooted (fuel n : nat) (h h' : heap) :
  grown fuel h h' -> rooted n h = true -> rooted (n `max` fuel) h' = true.
Proof.
  intros (Hframe & _ & Hnew) Hroot. rewrite rooted_spec in *.
  intros b ob' Hb'. destruct (h !! b) as [ob|] eqn:Hb.
  - destruct (Hroot b ob Hb) as [l Hl]. exists l.
    apply (ancestors_mono n); [|lia]. now apply (ancestors_frame n h).
  - destruct (Hnew b Hb ltac:(eauto)) as [l Hl]. exists l.
    apply (ancestors_mono fuel); [assumption|lia].
Qed.

(** A constructor call on top of what earlier calls built. *)
Lemma grown_construct (fuel fuel' : nat) (h0 h : heap)
    (root : option string) (subtrees : list addr) (size : Z)
    (col : colour_t) :
  grown fuel h0 h ->
  fit_subtrees h subtrees = true ->
  (forall c, c ∈ subtrees -> h0 !! c = None) ->
  0 <= size -> (subtrees ≠ [] -> size = 0) ->
  (root = None -> subtrees = [] /\ size = 0) ->
  (1 <= fuel')%nat -> (fuel <= fuel')%nat ->
  (subtrees ≠ [] -> (S fuel <= fuel')%nat) ->
  exists h' sizes,
    __init__ (fresh (dom h)) root subtrees size col h = Some (Return tt, h') /\
    mapM (fun c => data_size <$> h !! c) subtrees = Some sizes /\
    grown fuel' h0 h' /\
    (forall b ob, h !! b = Some ob -> b ∉ subtrees -> h' !! b = Some ob) /\
    h !! fresh (dom h) = None /\
    h' !! fresh (dom h)
    = Some (Obj root subtrees None (size + foldr Z.add 0 sizes) col) /\
    (forall c, c ∈ subtrees ->
       exists oc, h !! c = Some oc /\
         h' !! c = Some (set_parent_tree (Some (fresh (dom h))) oc)).
Proof.
  intros (Hframe & Hinv & Hnew) Hfit Hnewkids Hsize Hexplicit Hempty
    Hone Hle Hnode.
  destruct (alloc_fresh h) as [_ Hfresh]. set (self := fresh (dom h)) in *.
  destruct (init_keeps h self root subtrees size col Hinv Hfresh Hfit Hsize
              Hexplicit Hempty)
    as (h' & sizes & Hinit & Hsizes & Hinv' & Hself & Hkids & Hother).
  exists h', sizes. split; [assumption|]. split; [assumption|].
  assert (Hkeep : forall b ob, h !! b = Some ob -> b ∉ subtrees ->
            h' !! b = Some ob).
  { intros b ob Hb Hnin. rewrite Hother; [assumption| |assumption].
    congruence. }
  split; [|auto 10]. split; [|split; [assumption|]].
  - intros b ob Hb. apply Hkeep; [now apply Hframe|].
    intros Hin. specialize (Hnewkids b Hin). congruence.
  - intros b Hb Hb'. destruct (decide (b = self)) as [->|Hne].
    + exists []. destruct fuel' as [|fuel']; [lia|]. simpl.
      rewrite Hself. reflexivity.
    + assert (Hold : is_Some (ancestors fuel h b)).
      { apply Hnew; [assumption|].
        destruct (decide (b ∈ subtrees)) as [Hin|Hnin].
        - destruct (Hkids b Hin) as (ob & -> & _). eauto.
        - now rewrite <- (Hother b Hne Hnin). }
      destruct (init_chain h h' self _ subtrees Hfresh Hself eq_refl Hkids
                  Hother fuel b Hold) as [l Hl].
      destruct (decide (subtrees = [])) as [->|Hnil].
      * destruct Hold as [l0 Hl0]. exists l0.
        apply (ancestors_mono fuel); [|assumption].
        apply (ancestors_ext_on fuel h); [assumption|].
        intros c Hc. destruct (ancestors_alloc _ _ _ _ _ Hl0 Hc) as [oc Hoc].
        rewrite Hother; [reflexivity|congruence|intros Hin; inversion Hin].
      * exists l. apply (ancestors_mono (S fuel)); [assumption|].
        now apply Hnode.
Qed.

Lemma Forall2_elem_r {A B} (R : A -> B -> Prop) (l : list A) (k : list B) :
  Forall2 R l k -> Forall2 (fun x y => R x y /\ y ∈ k) l k.
Proof.
  induction 1 as [|x y l k Hxy _ IH]; constructor.
  - split; [assumption|now left].
  - eapply Forall2_impl; [exact IH|]. intros x' y' [? ?].
    split; [assumption|now right].
Qed.

Section PopulationProofs.
Context {value : Type}.
Variable int : value -> outcome Z.
Variable randcolour : addr -> colour_t.

#[local] Abbreviation new := (PopulationTree_new randcolour).

Lemma PopulationTree_new_run (h h' : heap) (root : option string)
    (subtrees : option (list addr)) (size : Z) :
  __init__ (fresh (dom h)) root
    (match subtrees with None => [] | Some l => l end) size
    (randcolour (fresh (dom h))) h = Some (Return tt, h') ->
  new root subtrees size h = Some (Return (fresh (dom h)), h').
Proof.
  intros Hinit. unfold PopulationTree_new.
  rewrite (bind_run _ _ _ _ _ (proj1 (alloc_fresh h))).
  now rewrite (bind_run _ _ _ _ _ Hinit).
Qed.

(** The leaves of a region. *)
Lemma country_loop_ok (country_populations : dict Z)
    (countries : list string) (fuel : nat) (h0 : heap) :
  Forall (fun kv => 0 <= kv.2) country_populations -> (1 <= fuel)%nat ->
  forall h, grown fuel h0 h ->
    exists subtree h1,
      country_loop randcolour country_populations countries h
      = Some (Return subtree, h1) /\
      grown fuel h0 h1 /\
      (forall b ob, h !! b = Some ob -> h1 !! b = Some ob) /\
      NoDup subtree /\
      (forall a, a ∈ subtree ->
         h !! a = None /\
         exists o, h1 !! a = Some o /\ is_Some (_root o) /\
           _parent_tree o = None) /\
      mapM (fun c => data_size <$> h1 !! c) subtree
      = Some (omap (dict_get country_populations) countries).
Proof.
  intros Hpos Hfuel.
  assert (Hval : forall k v, dict_get country_populations k = Some v -> 0 <= v).
  { clear -Hpos. induction Hpos as [|[k0 v0] d H0 _ IH]; intros k v;
      [discriminate|].
    simpl. destruct (String.eqb k0 k); [|apply IH].
    now intros [= <-]. }
  induction countries as [|country rest IH]; intros h Hgrown.
  - exists [], h. split; [reflexivity|]. split; [assumption|].
    split; [auto|]. split; [constructor|]. split; [|reflexivity].
    intros a Ha. inversion Ha.
  - cbn [country_loop].
    assert (Eo : omap (dict_get country_populations) (country :: rest)
                 = match dict_get country_populations country with
                   | Some y => y :: omap (dict_get country_populations) rest
                   | None => omap (dict_get country_populations) rest
                   end) by reflexivity.
    rewrite Eo. clear Eo.
    destruct (dict_get country_populations country) as [population|] eqn:Hp;
      [|now apply IH].
    destruct (grown_construct fuel fuel h0 h (Some country) [] population
                (randcolour (fresh (dom h))) Hgrown)
      as (ha & sizes & Hinit & Hsizes & Hgrown_a & Hkeep & Hfresh & Hself & _);
      [reflexivity | intros c Hc; inversion Hc | now apply (Hval country)
      | congruence | discriminate | assumption | lia | congruence |].
    injection Hsizes as <-.
    rewrite (bind_run _ _ _ _ _ (PopulationTree_new_run h ha _ None _ Hinit)).
    destruct (IH ha Hgrown_a)
      as (l & h1 & Hrun & Hgrown1 & Hframe1 & Hnd & Hall & Hsz).
    rewrite (bind_run _ _ _ _ _ Hrun).
    exists (fresh (dom h) :: l), h1. split; [reflexivity|].
    split; [assumption|].
    assert (Hframe : forall b ob, h !! b = Some ob -> h1 !! b = Some ob).
    { intros b ob Hb. apply Hframe1, Hkeep; [assumption|].
      intros Hin. inversion Hin. }
    split; [assumption|]. split; [|split].
    + constructor; [|assumption]. intros Hin.
      destruct (Hall _ Hin) as [Hnone _]. congruence.
    + intros a [->|Ha]%elem_of_cons.
      * split; [assumption|]. eexists. split; [apply Hframe1, Hself|].
        simpl. eauto.
      * destruct (Hall a Ha) as [Hnone Hrest]. split; [|assumption].
        destruct (h !! a) as [oa|] eqn:E; [|reflexivity].
        apply Hkeep in E; [congruence|]. intros Hin. inversion Hin.
    + cbn [mapM]. rewrite (Hframe1 _ _ Hself). simpl. rewrite Hsz. simpl.
      do 3 f_equal. lia.
Qed.

(** The trees of the regions. *)
Lemma region_trees_ok (country_populations : dict Z)
    (regions : dict (list string)) (h0 : heap) :
  Forall (fun kv => 0 <= kv.2) country_populations ->
  forall h, grown 2 h0 h ->
    exists trees h1,
      region_trees randcolour country_populations regions h
      = Some (Return trees, h1) /\
      grown 2 h0 h1 /\
      (forall b ob, h !! b = Some ob -> h1 !! b = Some ob) /\
      NoDup trees /\
      Forall2 (fun rc a =>
                 h !! a = None /\
                 exists o, h1 !! a = Some o /\ _root o = Some rc.1 /\
                   _parent_tree o = None /\
                   data_size o = region_population country_populations rc.2)
        regions trees.
Proof.
  intros Hpos. unfold region_trees.
  induction regions as [|[region countries] rest IH]; intros h Hgrown.
  - exists [], h. split; [reflexivity|]. split; [assumption|].
    split; [auto|]. split; constructor.
  - pose proof Hgrown as (_ & Hinv & _).
    destruct (country_loop_ok country_populations countries 1 h Hpos
                ltac:(lia) h (grown_refl 1 h Hinv))
      as (subtree & hc & Hrun & Hgrownc & Hframec & Hnd & Hall & Hsz).
    destruct (grown_construct 1 2 h hc (Some region) subtree 0
                (randcolour (fresh (dom hc))) Hgrownc)
      as (hr & sizes & Hinit & Hsizes & Hgrownr & Hkeep & Hfresh & Hself & _);
      [ | | lia | reflexivity | discriminate | lia | lia | lia |].
    { apply fit_subtrees_spec. split; [assumption|]. intros c Hc.
      destruct (Hall c Hc) as (_ & o & Ho & Hlab & Hpar). eauto. }
    { intros c Hc. now destruct (Hall c Hc). }
    rewrite Hsz in Hsizes. injection Hsizes as <-.
    assert (Hgrown_r : grown 2 h0 hr)
      by (eapply grown_trans; eassumption).
    destruct (IH hr Hgrown_r)
      as (l & h1 & Hrunl & Hgrown1 & Hframe1 & Hndl & Hall1).
    exists (fresh (dom hc) :: l), h1. split.
    { cbn [mapM]. erewrite bind_run; [|].
      2:{ erewrite bind_run; [|exact Hrun].
          apply (PopulationTree_new_run hc hr _ (Some subtree) _ Hinit). }
      now rewrite (bind_run _ _ _ _ _ Hrunl). }
    assert (Hframe : forall b ob, h !! b = Some ob -> hr !! b = Some ob).
    { intros b ob Hb. apply Hkeep; [now apply Hframec|].
      intros Hin. destruct (Hall b Hin) as [Hnone _]. congruence. }
    split; [assumption|]. split; [auto|]. split; [|constructor].
    + constructor; [|assumption]. intros Hin.
      apply list_elem_of_lookup in Hin as [i Hi].
      destruct (Forall2_lookup_r _ _ _ _ _ Hall1 Hi) as (rc & _ & Hnone & _).
      congruence.
    + cbn [fst snd]. split.
      * destruct (h !! fresh (dom hc)) as [o|] eqn:E; [|reflexivity].
        apply Hframec in E. congruence.
      * eexists. split; [apply Hframe1, Hself|]. simpl.
        repeat split; unfold region_population; lia.
    + eapply Forall2_impl; [exact Hall1|]. intros rc a [Hnone Hrest].
      split; [|assumption].
      destruct (h !! a) as [oa|] eqn:E; [|reflexivity].
      apply Hframe in E. congruence.
Qed.

(** [PopulationTree(True)] on answers of the World Bank that the two readers
    accept. *)
Lemma PopulationTree_world_ok (population_data : list (population_item value))
    (country_data : list region_item) (country_populations : dict Z)
    (regions : dict (list string)) (root : option string)
    (subtrees : option (list addr)) (size : Z) (n : nat) (h : heap) :
  _get_population_data value int population_data = Done country_populations ->
  _get_region_data country_data = Done regions ->
  Forall (fun kv => 0 <= kv.2) country_populations ->
  representation_invariants h = true -> rooted n h = true ->
  exists self h' kids,
    PopulationTree_init value int randcolour population_data country_data
      true root subtrees size h
    = Some (Done self, h') /\
    representation_invariants h' = true /\ rooted (n `max` 3) h' = true /\
    h !! self = None /\
    h' !! self
    = Some (Obj (Some "World"%string) kids None
              (world_population country_populations regions)
              (randcolour self)) /\
    Forall2 (fun rc a =>
               exists o, h' !! a = Some o /\ _root o = Some rc.1 /\
                 _parent_tree o = Some self /\
                 data_size o
                 = region_population country_populations rc.2)
      regions kids /\
    (forall b ob, h !! b = Some ob -> h' !! b = Some ob).
Proof.
  intros Hpop Hreg Hpos Hinv Hroot.
  destruct (region_trees_ok country_populations regions h Hpos h
              (grown_refl 2 h Hinv))
    as (trees & h1 & Hrun & Hgrown1 & Hframe1 & Hnd & Hall).
  destruct (grown_construct 2 3 h h1 (Some "World"%string) trees 0
              (randcolour (fresh (dom h1))) Hgrown1)
    as (h' & sizes & Hinit & Hsizes & Hgrown' & Hkeep & Hfresh & Hself & Hkids);
    [ | | lia | reflexivity | discriminate | lia | lia | lia |].
  { apply fit_subtrees_spec. split; [assumption|]. intros c Hc.
    apply list_elem_of_lookup in Hc as [i Hi].
    destruct (Forall2_lookup_r _ _ _ _ _ Hall Hi)
      as (rc & _ & _ & o & Ho & Hlab & Hpar & _).
    exists o. rewrite Hlab. eauto. }
  { intros c Hc. apply list_elem_of_lookup in Hc as [i Hi].
    now destruct (Forall2_lookup_r _ _ _ _ _ Hall Hi) as (rc & _ & ? & _). }
  exists (fresh (dom h1)), h', trees. split.
  { unfold PopulationTree_init, _load_data.
    erewrite io_bind_done; [|].
    2:{ erewrite io_bind_done; [|rewrite Hpop; reflexivity].
        erewrite io_bind_done; [|rewrite Hreg; reflexivity].
        apply call_return. exact Hrun. }
    rewrite (io_bind_done _ _ _ _ _
               (call_return _ _ _ _ (proj1 (alloc_fresh h1)))).
    rewrite (io_bind_done _ _ _ _ _ (call_return _ _ _ _ Hinit)).
    reflexivity. }
  pose proof Hgrown' as (Hframe' & Hinv' & _).
  split; [assumption|]. split; [now apply (grown_rooted 3 n h)|].
  split.
  { destruct (h !! fresh (dom h1)) as [o|] eqn:E; [|reflexivity].
    apply Hframe1 in E. congruence. }
  assert (Esizes : sizes
            = map (fun rc => region_population country_populations rc.2)
                regions).
  { apply mapM_Some in Hsizes. clear -Hall Hsizes.
    revert sizes Hsizes. induction Hall as [|rc a rs l Ha _ IHl];
      intros sizes Hsizes.
    - now apply Forall2_nil_inv_l in Hsizes as ->.
    - apply Forall2_cons_inv_l in Hsizes as (s & sizes' & Hs & Hrest & ->).
      destruct Ha as (_ & o & Ho & _ & _ & Hd). rewrite Ho in Hs.
      simpl in Hs. injection Hs as <-. simpl. rewrite Hd.
      f_equal. now apply IHl. }
  split; [|split; [|assumption]].
  - rewrite Hself. unfold world_population. rewrite Esizes.
    do 2 f_equal.
  - (* the regions under the world *)
    eapply Forall2_impl; [exact (Forall2_elem_r _ _ _ Hall)|].
    intros rc a [(_ & o & Ho & Hlab & _ & Hd) Hin].
    destruct (Hkids a Hin) as (oc & Hoc & ->).
    rewrite Ho in Hoc. injection Hoc as <-.
    eexists. split; [reflexivity|]. simpl. auto.
Qed.
End PopulationProofs.

(** X20: [PopulationTree(True)], when the two readers accept the answers of
    the World Bank and no population is negative, started in a heap that
    keeps the invariants: it returns a new object labelled "World", without
    parent, whose subtrees are one tree per region, in the order of the
    dictionary of regions, each labelled by its region and with the
    populations of its countries that have data as its size; the size of the
    world is the sum of these; the heap keeps the representation invariants,
    every parent chain reaches a root, and the objects that were there are
    untouched. *)
Theorem PopulationTree_world_builds_tree (value : Type)
    (int : value -> outcome Z) (randcolour : addr -> colour_t)
    (population_data : list (population_item value))
    (country_data : list region_item) (country_populations : dict Z)
    (regions : dict (list string)) (root : option string)
    (subtrees : option (list addr)) (size : Z) (n : nat) (h : heap) :
  _get_population_data value int population_data = Done country_populations ->
  _get_region_data country_data = Done regions ->
  forallb (fun kv => 0 <=? kv.2) country_populations = true ->
  representation_invariants h = true -> rooted n h = true ->
  exists self h' kids,
    PopulationTree_init value int randcolour population_data country_data
      true root subtrees size h
    = Some (Done self, h') /\
    representation_invariants h' = true /\ rooted (n `max` 3) h' = true /\
    h !! self = None /\
    h' !! self
    = Some (Obj (Some "World"%string) kids None
              (world_population country_populations regions)
              (randcolour self)) /\
    Forall2 (fun rc a =>
               exists o, h' !! a = Some o /\ _root o = Some rc.1 /\
                 _parent_tree o = Some self /\
                 data_size o
                 = region_population country_populations rc.2)
      regions kids /\
    (forall b ob, h !! b = Some ob -> h' !! b = Some ob).
Proof.
  intros Hpop Hreg Hpos. apply PopulationTree_world_ok; try assumption.
  apply Forall_forall. intros kv Hkv. rewrite forallb_forall in Hpos.
  apply Z.leb_le, Hpos. now apply list_elem_of_In.
Qed.

Lemma PopulationTree_world_builds_tree_witness :
  exists self h' kids,
    PopulationTree_init Z Done (fun _ => grey) bank_populations bank_countries
      true None None 0 ∅
    = Some (Done self, h') /\
    representation_invariants h' = true /\ rooted (0 `max` 3) h' = true /\
    (∅ : heap) !! self = None /\
    h' !! self
    = Some (Obj (Some "World"%string) kids None
              (world_population [("France", 66); ("Japan", 120)]%string
                 [("Europe", ["France"; "Italy"]); ("Asia", ["Japan"])]%string)
              grey) /\
    Forall2 (fun rc a =>
               exists o, h' !! a = Some o /\ _root o = Some rc.1 /\
                 _parent_tree o = Some self /\
                 data_size o
                 = region_population [("France", 66); ("Japan", 120)]%string
                     rc.2)
      [("Europe", ["France"; "Italy"]); ("Asia", ["Japan"])]%string kids /\
    (forall b ob, (∅ : heap) !! b = Some ob -> h' !! b = Some ob).
Proof.
  apply (PopulationTree_world_builds_tree Z Done (fun _ => grey)
           bank_populations bank_countries
           [("France", 66); ("Japan", 120)]%string
           [("Europe", ["France"; "Italy"]); ("Asia", ["Japan"])]%string
           None None 0 0 ∅); reflexivity.
Defined.

(** The tree built from the small answers. *)
Example bank_built :
  exists self h',
    PopulationTree_init Z Done (fun _ => grey) bank_populations bank_countries
      true None None 0 ∅
    = Some (Done self, h') /\
    view 3 h' self
    = Some (Node 4%nat (Some "World"%string) 186 grey
              [Node 1%nat (Some "Europe"%string) 66 grey
                 [Node 0%nat (Some "France"%string) 66 grey []];
               Node 3%nat (Some "Asia"%string) 120 grey
                 [Node 2%nat (Some "Japan"%string) 120 grey []]]).
Proof. eexists _, _. split; vm_compute; reflexivity. Qed.

(** * The two programs *)

Lemma mapM_M_ext {A B} (f g : A -> M B) (l : list A) :
  (forall x, x ∈ l -> forall h, f x h = g x h) ->
  forall h, mapM f l h = mapM g l h.
Proof.
  induction l as [|a l IH]; intros Hfg h; [reflexivity|].
  cbn [mapM]. unfold mbind, M_bind. rewrite (Hfg a ltac:(now left)).
  destruct (g a h) as [[[b|e] h']|]; [|reflexivity..].
  rewrite IH; [reflexivity|]. intros x Hx. apply Hfg. now right.
Qed.

(** More fuel than the depth of the file system changes nothing. *)
Lemma FileSystemTree_init_fuel (isdir : string -> bool)
    (listdir : string -> list string) (getsize : string -> Z)
    (basename : string -> string) (os_path_join : string -> string -> string)
    (randcolour : addr -> colour_t) (fuel : nat) :
  forall path, fs_ok isdir listdir getsize os_path_join fuel path = true ->
    forall h,
      FileSystemTree_init isdir listdir getsize basename os_path_join
        randcolour (S fuel) path h
      = FileSystemTree_init isdir listdir getsize basename os_path_join
          randcolour fuel path h.
Proof.
  induction fuel as [|fuel IH]; intros path Hok h; [discriminate|].
  cbn [fs_ok] in Hok.
  change (FileSystemTree_init isdir listdir getsize basename os_path_join
            randcolour (S (S fuel)) path)
    with (if isdir path then
            tree_list ←
              mapM (fun entry =>
                      FileSystemTree_init isdir listdir getsize basename
                        os_path_join randcolour (S fuel)
                        (os_path_join path entry)) (listdir path);
            self ← alloc;
            _ ← __init__ self (Some (basename path)) tree_list 0
                  (randcolour self);
            mret self
          else
            self ← alloc;
            _ ← __init__ self (Some (basename path)) [] (getsize path)
                  (randcolour self);
            mret self).
  cbn [FileSystemTree_init]. destruct (isdir path); [|reflexivity].
  unfold mbind at 1 4, M_bind at 1 4.
  rewrite (mapM_M_ext _ (fun entry =>
             FileSystemTree_init isdir listdir getsize basename os_path_join
               randcolour fuel (os_path_join path entry))); [reflexivity|].
  intros entry Hentry h'. apply IH.
  rewrite forallb_forall in Hok. apply Hok. now apply list_elem_of_In.
Qed.

Lemma empty_heap_invariants (n : nat) :
  representation_invariants (∅ : heap) = true /\ rooted n (∅ : heap) = true.
Proof. split; reflexivity. Qed.

(** [run_visualisation] on a tree that is fine. *)
Lemma run_visualisation_ok (os_path_join : string -> string -> string)
    (cls : tree_class) (fuel : nat) (h : heap) (tree : addr) (o : obj)
    (inputs : list polled) :
  cls ≠ AbstractTree ->
  representation_invariants h = true -> rooted fuel h = true ->
  h !! tree = Some o -> (_subtrees o = [] -> data_size o = 0) ->
  exists frames h',
    run_visualisation os_path_join cls (S fuel) tree inputs h
    = Some (Done frames, h') /\
    representation_invariants h' = true /\ rooted fuel h' = true /\
    Forall tiled frames /\ frames ≠ [].
Proof.
  intros Hcls Hinv Hroot Ho Htop.
  destruct (render_display_ok fuel h tree o "" Hinv Hroot Ho)
    as (tm & Hrender & Htiled).
  destruct (event_loop_from_ok os_path_join cls fuel tree inputs Hcls h None)
    as (sel & frames & h' & Hrun & (Hinv' & Hroot' & _) & Hframes).
  { repeat split; try assumption; [eauto|]. intros a [=]. }
  exists ((tm, ""%string) :: frames), h'. split.
  - unfold run_visualisation. rewrite (io_bind_done _ _ _ _ _ Hrender).
    unfold event_loop. now rewrite (io_bind_done _ _ _ _ _ Hrun).
  - repeat split; try assumption; [|discriminate].
    constructor; assumption.
Qed.



(** What the witness shows: the file "a" is selected and then deleted. *)
Example d_visualised :
  exists frames h',
    run_treemap_file_system d_isdir d_listdir d_getsize d_basename slash_join
      (fun _ => grey) 3 "d"
      [Polled (MOUSEBUTTONUP 1 (10, 10)) false (10, 10);
       Polled (MOUSEBUTTONUP 3 (10, 10)) false (10, 10);
       Polled QUIT false (0, 0)] ∅
    = Some (Done frames, h') /\
    frames
    = [([((0, 0, 341, 738), grey); ((341, 0, 683, 738), grey)], "");
       ([((0, 0, 341, 738), grey); ((341, 0, 683, 738), grey)],
        "d/a | Size: 10");
       ([((0, 0, 1024, 738), grey)], "")]%string.
Proof. eexists _, _. split; vm_compute; reflexivity. Qed.



Lemma get_region_data_fails (country_data : list region_item) :
  names_of "Aggregates" country_data = [] ->
  _get_region_data country_data = Fails KeyError.
Proof.
  intros Hnone. unfold _get_region_data.
  destruct (region_loop_spec country_data [] (NoDup_nil_2)) as [_ Hget].
  assert (Hin : dict_get (region_loop country_data []) "Aggregates" = None).
  { rewrite Hget. simpl. now rewrite Hnone. }
  apply dict_get_None, dict_pop_None in Hin. now rewrite Hin.
Qed.

(** X23: when no item of the list of countries is of the region
    "Aggregates", [PopulationTree(True)] raises and no object is built or
    changed: it raises the [KeyError] of [_get_region_data], unless
    [_get_population_data], which runs first, has raised the exception of
    [int]. *)
Theorem PopulationTree_world_raises_without_aggregates (value : Type)
    (int : value -> outcome Z) (randcolour : addr -> colour_t)
    (population_data : list (population_item value))
    (country_data : list region_item) (root : option string)
    (subtrees : option (list addr)) (size : Z) (h : heap) :
  names_of "Aggregates" country_data = [] ->
  PopulationTree_init value int randcolour population_data country_data
    true root subtrees size h
  = match _get_population_data value int population_data with
    | Done _ => Some (Fails KeyError, h)
    | Fails e => Some (Fails e, h)
    end.
Proof.
  intros Hnone. unfold PopulationTree_init, _load_data, mbind, IO_bind, ended.
  destruct (_get_population_data value int population_data);
    [|reflexivity].
  now rewrite (get_region_data_fails country_data Hnone).
Qed.

Lemma PopulationTree_world_raises_without_aggregates_witness :
  PopulationTree_init Z Done (fun _ => grey) bank_populations
    [RegionItem "Europe" "France"; RegionItem "Asia" "Japan"] true None None
    0 family
  = match _get_population_data Z Done bank_populations with
    | Done _ => Some (Fails KeyError, family)
    | Fails e => Some (Fails e, family)
    end.
Proof.
  apply (PopulationTree_world_raises_without_aggregates Z Done
           (fun _ => grey) bank_populations
           [RegionItem "Europe" "France"; RegionItem "Asia" "Japan"]).
  reflexivity.
Defined.

Example no_aggregates :
  PopulationTree_init Z Done (fun _ => grey) bank_populations
    [RegionItem "Europe" "France"] true None None 0 ∅
  = Some (Fails KeyError, ∅).
Proof. reflexivity. Qed.

(** * The layout of a tree that is not well formed *)

Lemma gt_loop_all_empty (s w h ini_x ini_y : Z) (n : nat) :
  forall (kids : list gt_child) (i : nat) (st : gt_state),
    kids ≠ [] -> (i + length kids = n)%nat ->
    Forall (fun c => forall r, c.2 r = Return []) kids ->
    (gt_last st).1.1 = None ->
    gt_loop s w h ini_x ini_y n kids i st = Raise AttributeError.
Proof.
  induction kids as [|c kids IH]; intros i st Hne Hlen Hall Hlast;
    [contradiction|].
  apply Forall_cons in Hall as [Hc Hall]. simpl in Hlen.
  destruct st as [x y res [[last k] z]]. simpl in Hlast. subst last.
  cbn [gt_loop gt_body].
  destruct kids as [|c' kids].
  - assert (Ei : (i =? n - 1)%nat = true) by (apply Nat.eqb_eq; simpl in *; lia).
    destruct (w >? h); rewrite Hc; cbn [mbind result_bind];
      rewrite app_nil_r; rewrite decide_True by reflexivity;
      rewrite Ei; reflexivity.
  - assert (Ei : (i =? n - 1)%nat = false)
      by (apply Nat.eqb_neq; simpl in *; lia).
    destruct (w >? h); rewrite Hc; cbn [mbind result_bind];
      rewrite app_nil_r; rewrite decide_True by reflexivity;
      rewrite Ei; cbn [mbind result_bind];
      (apply IH; [discriminate|simpl in *; lia|assumption|reflexivity]).
Qed.

Lemma la_loop_all_empty (s w h ini_x ini_y : Z) (n : nat) (p : pos) :
  forall (kids : list la_child) (i : nat) (st : la_state),
    kids ≠ [] -> (i + length kids = n)%nat ->
    Forall (fun c => c.1 = 0) kids ->
    (la_last st).1.1 = None -> la_result st = None ->
    la_loop s w h ini_x ini_y n p kids i st = Raise AttributeError.
Proof.
  induction kids as [|c kids IH]; intros i st Hne Hlen Hall Hlast Hres;
    [contradiction|].
  apply Forall_cons in Hall as [Hc Hall]. simpl in Hlen.
  destruct st as [x y [[last k] z] res]. simpl in Hlast, Hres. subst last res.
  cbn [la_loop la_result la_body]. rewrite Hc.
  change (0 >? 0) with false.
  destruct kids as [|c' kids].
  - assert (Ei : (i =? n - 1)%nat = true) by (apply Nat.eqb_eq; simpl in *; lia).
    destruct (w >? h); cbn [mbind result_bind mret result_ret]; rewrite Ei;
      reflexivity.
  - assert (Ei : (i =? n - 1)%nat = false)
      by (apply Nat.eqb_neq; simpl in *; lia).
    destruct (w >? h); cbn [mbind result_bind mret result_ret]; rewrite Ei;
      cbn [mbind result_bind];
      (apply IH; [discriminate|simpl in *; lia|assumption|reflexivity
                 |reflexivity]).
Qed.



(** * The layout of a heap that keeps the invariants *)


(** * change_prop on doubles *)

(** ** Rounding to the nearest double *)

Lemma prec_pos : 0 < Double.prec.
Proof. reflexivity. Qed.

Lemma emin_le_0 : emin Double.prec Double.emax <= 0.
Proof. vm_compute. discriminate. Qed.

Lemma digits2_pos_le (m : positive) :
  2 ^ (Zpos (digits2_pos m) - 1) <= Zpos m.
Proof.
  induction m as [m IH|m IH|]; simpl digits2_pos; [| |simpl; lia].
  - rewrite Pos2Z.inj_succ.
    replace (Z.succ (Zpos (digits2_pos m)) - 1)
      with (Z.succ (Zpos (digits2_pos m) - 1)) by lia.
    rewrite Z.pow_succ_r by lia. lia.
  - rewrite Pos2Z.inj_succ.
    replace (Z.succ (Zpos (digits2_pos m)) - 1)
      with (Z.succ (Zpos (digits2_pos m) - 1)) by lia.
    rewrite Z.pow_succ_r by lia. lia.
Qed.

Lemma shr_m_shr_1 (r : shr_record) :
  0 <= shr_m r -> shr_m (shr_1 r) = shr_m r / 2.
Proof.
  destruct r as [m rb sb]. simpl. intros Hm.
  destruct m as [|[p|p|]|p]; try lia; cbn [shr_m];
    rewrite <- Z.div2_div; reflexivity.
Qed.

Lemma shr_m_iter (p : positive) (r : shr_record) :
  0 <= shr_m r ->
  shr_m (SpecFloat.iter_pos shr_1 p r) = shr_m r / 2 ^ Zpos p.
Proof.
  revert r. induction p as [p IH|p IH|]; intros r Hr; cbn [SpecFloat.iter_pos].
  - assert (H1 : 0 <= shr_m (shr_1 r)).
    { rewrite shr_m_shr_1 by assumption. apply Z.div_pos; lia. }
    assert (Hp : 0 < 2 ^ Zpos p) by (apply Z.pow_pos_nonneg; lia).
    assert (H2 : 0 <= shr_m (SpecFloat.iter_pos shr_1 p (shr_1 r))).
    { rewrite IH by assumption. apply Z.div_pos; assumption. }
    rewrite IH, IH, shr_m_shr_1 by assumption.
    rewrite !Z.div_div by lia. f_equal.
    replace (Zpos p~1) with (1 + Zpos p + Zpos p) by lia.
    rewrite !Z.pow_add_r, Z.pow_1_r by lia. lia.
  - assert (Hp : 0 < 2 ^ Zpos p) by (apply Z.pow_pos_nonneg; lia).
    assert (H2 : 0 <= shr_m (SpecFloat.iter_pos shr_1 p r)).
    { rewrite IH by assumption. apply Z.div_pos; assumption. }
    rewrite IH, IH by assumption.
    rewrite !Z.div_div by lia. f_equal.
    replace (Zpos p~0) with (Zpos p + Zpos p) by lia.
    rewrite Z.pow_add_r by lia. lia.
  - rewrite shr_m_shr_1 by assumption. reflexivity.
Qed.

Lemma shr_m_of_loc (m : Z) (l : location) :
  shr_m (shr_record_of_loc m l) = m.
Proof. destruct l as [|[]]; reflexivity. Qed.

(** A shift to the exponent of the format keeps a number that is at least
    [2 ^ K], for [K] an exponent of the format, at least [2 ^ K]. *)
Lemma shr_fexp_ge (m e K : Z) (l : location) (r : shr_record) (e' : Z) :
  0 < m -> emin Double.prec Double.emax <= K -> 2 ^ (K - e) <= m ->
  shr_fexp Double.prec Double.emax m e l = (r, e') ->
  0 < shr_m r /\ 2 ^ (K - e') <= shr_m r.
Proof.
  intros Hm HK Hge. pose proof prec_pos as Hprec. unfold shr_fexp, shr.
  destruct m as [|m|m]; try lia. cbn [Zdigits2].
  pose proof (digits2_pos_le m) as Hd.
  destruct (fexp Double.prec Double.emax (Zpos (digits2_pos m) + e) - e)
    as [|n|n] eqn:En;
    intros [= <- <-]; rewrite ?shr_m_of_loc; try (split; [lia|assumption]).
  rewrite shr_m_iter by (rewrite shr_m_of_loc; lia).
  rewrite shr_m_of_loc.
  assert (Hp : 0 < 2 ^ Zpos n) by (apply Z.pow_pos_nonneg; lia).
  assert (Hn : 2 ^ Zpos n <= Zpos m).
  { unfold fexp in En.
    destruct (Z.max_spec (Zpos (digits2_pos m) + e - Double.prec)
                (emin Double.prec Double.emax))
      as [[_ Hmax]|[_ Hmax]]; rewrite Hmax in En.
    - etransitivity; [|exact Hge]. apply Z.pow_le_mono_r; lia.
    - etransitivity; [|exact Hd]. apply Z.pow_le_mono_r; lia. }
  split.
  - apply Z.lt_le_trans with 1; [lia|].
    apply Z.div_le_lower_bound; lia.
  - destruct (Z.lt_ge_cases (K - (e + Zpos n)) 0) as [Hneg|Hpos].
    + rewrite Z.pow_neg_r by assumption. apply Z.div_pos; lia.
    + apply Z.div_le_lower_bound; [assumption|].
      rewrite <- Z.pow_add_r by lia.
      replace (Zpos n + (K - (e + Zpos n))) with (K - e) by lia. assumption.
Qed.

(** Rounding a positive number that is at least [2 ^ K], for [K] an exponent
    of the format, gives a positive double that is at least [2 ^ K], or plus
    infinity. *)
Lemma binary_round_aux_ge (mx : positive) (ex K : Z) :
  emin Double.prec Double.emax <= K -> 2 ^ (K - ex) <= Zpos mx ->
  match binary_round_aux Double.prec Double.emax false (Zpos mx) ex loc_Exact
  with
  | S754_finite false m e => 2 ^ (K - e) <= Zpos m
  | S754_infinity false => True
  | _ => False
  end.
Proof.
  intros HK Hge. unfold binary_round_aux.
  destruct (shr_fexp Double.prec Double.emax (Zpos mx) ex loc_Exact)
    as [r1 e1] eqn:E1.
  destruct (shr_fexp_ge _ _ K _ _ _ (Pos2Z.is_pos mx) HK Hge E1) as [H1 H1'].
  set (m2 := round_nearest_even (shr_m r1) (loc_of_shr_record r1)).
  assert (Hm2 : shr_m r1 <= m2).
  { unfold m2, round_nearest_even.
    destruct (loc_of_shr_record r1) as [|[]]; try lia.
    destruct (Z.even (shr_m r1)); lia. }
  destruct (shr_fexp Double.prec Double.emax m2 e1 loc_Exact) as [r3 e3] eqn:E3.
  destruct (shr_fexp_ge m2 e1 K _ _ _ ltac:(lia) HK ltac:(lia) E3) as [H3 H3'].
  destruct (shr_m r3) as [|m3|m3]; try lia.
  destruct (e3 <=? Double.emax - Double.prec); [assumption|exact I].
Qed.

Lemma iter_xO (m d : positive) : Zpos (Pos.iter xO m d) = Zpos m * 2 ^ Zpos d.
Proof.
  rewrite <- Z.shiftl_mul_pow2 by lia. cbn [Z.shiftl].
  apply (Pos.iter_swap_gen _ _ Zpos xO (Z.mul 2)). reflexivity.
Qed.

(** The double nearest to an integer that is at least 1 is at least 1. *)
Lemma binary_normalize_ge_1 (n : Z) :
  1 <= n -> at_least 0 (binary_normalize Double.prec Double.emax n 0 false).
Proof.
  intros Hn. destruct n as [|m|m]; try lia.
  cbn [binary_normalize]. unfold binary_round, shl_align.
  destruct (fexp Double.prec Double.emax (Zpos (digits2_pos m) + 0) - 0)
    as [|d|d] eqn:Ed;
    try (apply (binary_round_aux_ge m 0 0); [apply emin_le_0|simpl; lia]).
  apply (binary_round_aux_ge (Pos.iter xO m d) _ 0); [apply emin_le_0|].
  rewrite iter_xO.
  replace (0 - fexp Double.prec Double.emax (Zpos (digits2_pos m) + 0))
    with (Zpos d) by lia.
  assert (0 < 2 ^ Zpos d) by (apply Z.pow_pos_nonneg; lia). nia.
Qed.

(** A double that is greater than 0 is at least the least positive
    double. *)
Lemma positive_at_least_emin (p : spec_float) :
  valid_binary Double.prec Double.emax p = true ->
  SFltb (S754_zero false) p = true ->
  at_least (emin Double.prec Double.emax) p.
Proof.
  destruct p as [s|s| |s m e]; try discriminate.
  - destruct s; [discriminate|]. intros _ _. exact I.
  - destruct s; [discriminate|]. intros Hv _. cbn [at_least].
    cbn [valid_binary] in Hv. unfold bounded, canonical_mantissa in Hv.
    apply andb_prop in Hv as [Hc _]. apply Z.eqb_eq in Hc.
    unfold fexp in Hc.
    apply Z.le_trans with (2 ^ 0); [apply Z.pow_le_mono_r; lia|simpl; lia].
Qed.

(** The product of a double that is at least 1 and a double that is greater
    than 0 is a positive double or plus infinity: it is not rounded to 0. *)
Lemma SFmul_at_least (x p : spec_float) :
  at_least 0 x ->
  valid_binary Double.prec Double.emax p = true ->
  SFltb (S754_zero false) p = true ->
  at_least (emin Double.prec Double.emax) (SFmul Double.prec Double.emax x p).
Proof.
  intros Hx Hv Hp. pose proof (positive_at_least_emin p Hv Hp) as Hq.
  destruct x as [sx|sx| |sx mx ex]; try contradiction;
    destruct sx; try contradiction;
    destruct p as [sp|sp| |sp mp ep]; try contradiction;
    destruct sp; try contradiction; try exact I.
  cbn [SFmul xorb]. cbn [at_least] in Hx, Hq.
  apply binary_round_aux_ge; [lia|].
  cbn [valid_binary] in Hv. unfold bounded, canonical_mantissa in Hv.
  apply andb_prop in Hv as [Hc _]. apply Z.eqb_eq in Hc. unfold fexp in Hc.
  rewrite Pos2Z.inj_mul.
  apply Z.le_trans with (Zpos mx * 1); [|apply Z.mul_le_mono_nonneg_l; lia].
  rewrite Z.mul_1_r. etransitivity; [|exact Hx].
  apply Z.pow_le_mono_r; lia.
Qed.


(** ** math.ceil *)

(** [math.ceil] of a zero or a finite double is the least integer that is
    not below the number the double stands for. *)
Lemma math_ceil_spec (x : spec_float) :
  finite x = true -> Double.math_ceil x = Done (Qceiling (float_value x)).
Proof.
  destruct x as [s|s| |s m e]; try discriminate; intros _; [reflexivity|].
  cbn [Double.math_ceil float_value]. f_equal.
  set (n := cond_Zopp s (Zpos m)).
  destruct (Z.leb_spec 0 e) as [He|He].
  - rewrite <- (Qceiling_Z (n * 2 ^ e)). apply Qceiling_comp.
    rewrite inject_Z_mult, Zpower_Qpower by assumption. reflexivity.
  - destruct e as [|k|k]; try lia.
    change (- Zneg k) with (Zpos k).
    change 2 with (Zpos 2). rewrite <- Pos2Z.inj_pow.
    transitivity (Qceiling (n # (2 ^ k)%positive)); [reflexivity|].
    apply Qceiling_comp. rewrite Qmake_Qdiv. unfold Qdiv.
    apply Qmult_comp; [reflexivity|].
    rewrite Pos2Z.inj_pow, Zpower_Qpower by lia.
    symmetry. apply (Qpower_opp 2 (Zpos k)).
Qed.

(** A positive double stands for a positive number. *)
Lemma float_value_pos (K : Z) (x : spec_float) :
  at_least K x -> finite x = true -> (0 < float_value x)%Q.
Proof.
  destruct x as [s|s| |s m e]; cbn [at_least finite]; try discriminate;
    try contradiction.
  destruct s; [contradiction|]. intros _ _.
  cbn [float_value cond_Zopp]. apply Qmult_lt_0_compat; [reflexivity|].
  apply Qpower_0_lt. reflexivity.
Qed.

(** ** change_prop *)

(** For a proportion that is [>= 0] the product with the proportion and the
    product with its absolute value have the same ceiling. *)
Lemma math_ceil_abs (x p : spec_float) :
  SFleb (S754_zero false) p = true ->
  finite (SFmul Double.prec Double.emax x (SFabs p)) = true ->
  Double.math_ceil (SFmul Double.prec Double.emax x p)
  = Done (Qceiling (float_value (SFmul Double.prec Double.emax x (SFabs p)))).
Proof.
  destruct p as [sp|sp| |sp mp ep]; try discriminate.
  - intros _. destruct x as [sx|sx| |sx mx ex]; try discriminate;
      intros _; reflexivity.
  - destruct sp; [discriminate|]. intros _. apply math_ceil_spec.
  - destruct sp; [discriminate|]. intros _. apply math_ceil_spec.
Qed.

(** The change of size that [change_prop] computes, before the clamp. *)
Lemma size_change_run (w : Z) (p : spec_float) :
  let x := SFmul Double.prec Double.emax (nearest w) (SFabs p) in
  finite x = true ->
  (if SFleb (S754_zero false) p then
     x ← Double.int_mul_float w p; Double.math_ceil x
   else
     x ← Double.int_mul_float w (SFabs p);
     n ← Double.math_ceil x; Done (n * -1))
  = Done (if SFleb (S754_zero false) p then Qceiling (float_value x)
          else - Qceiling (float_value x)).
Proof.
  intros x Hx. unfold Double.int_mul_float, Double.float_of_int.
  fold (nearest w). subst x.
  destruct (nearest w) as [sw|sw| |sw mw ew] eqn:Ew;
    try (destruct p as [?|?| |? ? ?]; discriminate);
    cbn [mbind outcome_bind];
    (destruct (SFleb (S754_zero false) p) eqn:Hp;
     [now apply math_ceil_abs
     |rewrite (math_ceil_spec _ Hx); cbn [mbind outcome_bind]; f_equal; lia]).
Qed.

Lemma change_prop_done (fuel : nat) (h : heap) (self : addr) (o : obj)
    (anc : list addr) (p : spec_float) :
  h !! self = Some o ->
  ancestors fuel h self = Some anc ->
  let x := SFmul Double.prec Double.emax (nearest (data_size o)) (SFabs p) in
  let delta := if SFleb (S754_zero false) p then Qceiling (float_value x)
               else - Qceiling (float_value x) in
  finite x = true ->
  1 <= data_size o + delta ->
  exists h', Double.change_prop fuel self p h = Some (Done tt, h') /\
    (forall a, a ∈ self :: anc ->
       exists oa, h !! a = Some oa /\
         h' !! a = Some (Obj (_root oa) (_subtrees oa) (_parent_tree oa)
                           (data_size oa + delta) (colour oa))) /\
    (forall a, a ∉ self :: anc -> h' !! a = h !! a).
Proof.
  intros Ho Hanc x delta Hx Hclamp.
  destruct (update_size_fields _ _ _ delta _ Hanc) as (h' & Hrun & Hin & Hout).
  exists h'. split; [|split; assumption].
  unfold Double.change_prop.
  rewrite (io_bind_done _ _ _ _ _ (call_load _ _ _ Ho)).
  rewrite (size_change_run (data_size o) p Hx). fold x. fold delta.
  change (call (update_size fuel self
                  (if data_size o + delta <? 1 then data_size o - 1
                   else delta)) h = Some (Done tt, h')).
  destruct (Z.ltb_spec (data_size o + delta) 1); [lia|].
  now apply call_return.
Qed.

Lemma change_prop_fails (fuel : nat) (h : heap) (self : addr) (o : obj)
    (p : spec_float) :
  h !! self = Some o ->
  SFleb (S754_zero false) p = true ->
  match nearest (data_size o) with
  | S754_infinity _ => True
  | x => SFmul Double.prec Double.emax x p = S754_infinity false
  end ->
  Double.change_prop fuel self p h = Some (Fails OverflowError, h).
Proof.
  intros Ho Hp Hx. unfold Double.change_prop.
  rewrite (io_bind_done _ _ _ _ _ (call_load _ _ _ Ho)). rewrite Hp.
  unfold Double.int_mul_float, Double.float_of_int.
  fold (nearest (data_size o)).
  destruct (nearest (data_size o)); cbn [mbind outcome_bind]; try rewrite Hx;
    reflexivity.
Qed.

(** C9 (counterexample): the change of size is the ceiling of the product as
    a double, which is not the ceiling of the product of the numbers.  The
    double of [0.01] stands for a number above 1/100, so 100 times that
    number is above 1 and has ceiling 2; as a double the product is [1.0],
    and [change_prop(0.01)] on the leaf of size 100 adds 1.  The double of
    [0.07] times 100 is the double above 7, and [change_prop(0.07)] adds 8,
    where [ceil(100 * 7/100)] is 7.  And where the product is beyond the
    largest double there is no change at all: on the leaf of size 3,
    [change_prop(-1.7976931348623157e308)] raises [OverflowError] before the
    clamp is looked at. *)
Theorem change_prop_rounds_the_product :
  literal 1 100 = S754_finite false 5764607523034235 (-59) /\
  Qceiling (inject_Z 100 * Qabs (float_value (literal 1 100))) = 2 /\
  (exists h',
     Double.change_prop 5 1%nat (literal 1 100) hundred = Some (Done tt, h') /\
     size_at h' 1%nat = Some 101 /\ size_at h' 2%nat = Some 101) /\
  literal 7 100 = S754_finite false 5044031582654956 (-56) /\
  Qceiling (inject_Z 100 * Qabs (7 # 100)) = 7 /\
  (exists h',
     Double.change_prop 5 1%nat (literal 7 100) hundred = Some (Done tt, h') /\
     size_at h' 1%nat = Some 108 /\ size_at h' 2%nat = Some 108) /\
  Double.change_prop 5 1%nat (SFopp DBL_MAX) three
  = Some (Fails OverflowError, three).
Proof.
  split; [vm_compute; reflexivity|]. split; [vm_compute; reflexivity|].
  split; [eexists; vm_compute; repeat split; reflexivity|].
  split; [vm_compute; reflexivity|]. split; [vm_compute; reflexivity|].
  split; [eexists; vm_compute; repeat split; reflexivity|].
  vm_compute. reflexivity.
Qed.

(** C9 (amended): when the product of the double nearest to the size [w] and
    of the double [|p|] is a double, not an infinity or NaN, and the clamp
    does not trigger, [change_prop p] returns normally and changes the size
    of the node and of every ancestor by exactly the ceiling of that double,
    with the sign of [p], touching nothing else; where the double stands for
    the product of the numbers, that is [ceil(w * |p|)].  (The witness is
    the leaf of size 100 resized by 0.25: it ends with size 125 and its
    parent's size grows by 25.) *)
Theorem change_prop_adds_ceiling_of_double (fuel : nat) (h : heap)
    (self : addr) (o : obj) (anc : list addr) (p : spec_float) :
  h !! self = Some o ->
  ancestors fuel h self = Some anc ->
  let x := SFmul Double.prec Double.emax (nearest (data_size o)) (SFabs p) in
  let sign := if SFleb (S754_zero false) p then 1 else -1 in
  let delta := sign * Qceiling (float_value x) in
  finite x = true ->
  1 <= data_size o + delta ->
  (exists h', Double.change_prop fuel self p h = Some (Done tt, h') /\
     (forall a, a ∈ self :: anc ->
        exists oa, h !! a = Some oa /\
          h' !! a = Some (Obj (_root oa) (_subtrees oa) (_parent_tree oa)
                            (data_size oa + delta) (colour oa))) /\
     (forall a, a ∉ self :: anc -> h' !! a = h !! a)) /\
  ((float_value x == inject_Z (data_size o) * Qabs (float_value p))%Q ->
   delta = sign * Qceiling (inject_Z (data_size o) * Qabs (float_value p))).
Proof.
  intros Ho Hanc x sign delta Hx Hclamp.
  assert (Hd : delta = if SFleb (S754_zero false) p
                       then Qceiling (float_value x)
                       else - Qceiling (float_value x)).
  { unfold delta, sign. destruct (SFleb (S754_zero false) p); lia. }
  split.
  - rewrite Hd in Hclamp |- *.
    apply (change_prop_done fuel h self o anc p Ho Hanc Hx Hclamp).
  - intros Hexact. unfold delta. now rewrite (Qceiling_comp _ _ Hexact).
Qed.

Lemma change_prop_adds_ceiling_of_double_witness :
  (exists h',
     Double.change_prop 5 1%nat (literal 1 4) hundred = Some (Done tt, h') /\
     (forall a, a ∈ [1%nat; 2%nat] ->
        exists oa, hundred !! a = Some oa /\
          h' !! a = Some (Obj (_root oa) (_subtrees oa) (_parent_tree oa)
                            (data_size oa + 25) (colour oa))) /\
     (forall a, a ∉ [1%nat; 2%nat] -> h' !! a = hundred !! a)) /\
  ((float_value (SFmul Double.prec Double.emax (nearest 100)
                   (SFabs (literal 1 4)))
    == inject_Z 100 * Qabs (float_value (literal 1 4)))%Q ->
   25 = 1 * Qceiling (inject_Z 100 * Qabs (float_value (literal 1 4)))).
Proof.
  apply (change_prop_adds_ceiling_of_double 5 hundred 1%nat
           (Obj (Some "leaf"%string) [] (Some 2%nat) 100 grey) [2%nat]
           (literal 1 4));
    [reflexivity | reflexivity | reflexivity | vm_compute; discriminate].
Defined.

(** C10 (counterexample): a positive proportion whose product with the size
    is beyond the largest double.  On the leaf of size 3,
    [change_prop(1.7976931348623157e308)] raises [OverflowError], the one of
    [math.ceil] on an infinity, and on the leaf of size [2 ** 1024]
    [change_prop(0.01)] raises [OverflowError], the one of the conversion of
    the size to a float; in both cases no size has changed. *)
Theorem change_prop_overflows :
  valid_binary Double.prec Double.emax DBL_MAX = true /\
  SFltb (S754_zero false) DBL_MAX = true /\
  Double.change_prop 5 1%nat DBL_MAX three
  = Some (Fails OverflowError, three) /\
  valid_binary Double.prec Double.emax (literal 1 100) = true /\
  SFltb (S754_zero false) (literal 1 100) = true /\
  Double.change_prop 5 1%nat (literal 1 100) huge
  = Some (Fails OverflowError, huge).
Proof. repeat split; vm_compute; reflexivity. Qed.

(** C10 (amended): on a node of size at least 1, [change_prop p] with a
    double [p > 0] either returns normally and adds the same [delta >= 1],
    the ceiling of the product as a double, to the size of the node and of
    every ancestor, touching nothing else, so that growing is never a no-op;
    or, when that product is beyond the largest double, raises
    [OverflowError] and changes nothing. *)
Theorem change_prop_grows_or_overflows (fuel : nat) (h : heap) (self : addr)
    (o : obj) (anc : list addr) (p : spec_float) :
  h !! self = Some o ->
  1 <= data_size o ->
  ancestors fuel h self = Some anc ->
  valid_binary Double.prec Double.emax p = true ->
  SFltb (S754_zero false) p = true ->
  let x := SFmul Double.prec Double.emax (nearest (data_size o)) p in
  if finite x then
    exists h' delta, Double.change_prop fuel self p h = Some (Done tt, h') /\
      delta = Qceiling (float_value x) /\
      1 <= delta /\
      (forall a, a ∈ self :: anc ->
         exists oa, h !! a = Some oa /\
           h' !! a = Some (Obj (_root oa) (_subtrees oa) (_parent_tree oa)
                             (data_size oa + delta) (colour oa))) /\
      (forall a, a ∉ self :: anc -> h' !! a = h !! a)
  else Double.change_prop fuel self p h = Some (Fails OverflowError, h).
Proof.
  intros Ho Hw Hanc Hv Hp x.
  pose proof (binary_normalize_ge_1 (data_size o) Hw) as Hn.
  fold (nearest (data_size o)) in Hn.
  pose proof (SFmul_at_least _ p Hn Hv Hp) as Hx. fold x in Hx.
  assert (Hle : SFleb (S754_zero false) p = true).
  { unfold SFltb in Hp. unfold SFleb.
    destruct (SFcompare (S754_zero false) p) as [[]|]; congruence. }
  assert (Habs : SFabs p = p).
  { destruct p as [sp|sp| |sp mp ep]; try discriminate;
      destruct sp; try discriminate; reflexivity. }
  destruct (finite x) eqn:Hfin.
  - pose proof (Qceiling_pos _ (float_value_pos _ _ Hx Hfin)) as Hd.
    destruct (change_prop_done fuel h self o anc p Ho Hanc) as (h' & Hrun & Hl).
    { rewrite Habs. exact Hfin. }
    { rewrite Hle, Habs. fold x. lia. }
    rewrite Hle, Habs in Hl. fold x in Hl.
    exists h', (Qceiling (float_value x)). repeat split; try assumption;
      apply Hl.
  - apply (change_prop_fails fuel h self o p Ho Hle).
    subst x. clear Hn.
    destruct (nearest (data_size o)) as [sw|sw| |sw mw ew]; try exact I.
    + destruct (SFmul Double.prec Double.emax (S754_zero sw) p)
        as [sx|sx| |sx mx ex]; try discriminate; try contradiction;
        destruct sx; try contradiction; reflexivity.
    + destruct (SFmul Double.prec Double.emax S754_nan p)
        as [sx|sx| |sx mx ex]; try discriminate; try contradiction;
        destruct sx; try contradiction; reflexivity.
    + destruct (SFmul Double.prec Double.emax (S754_finite sw mw ew) p)
        as [sx|sx| |sx mx ex]; try discriminate; try contradiction;
        destruct sx; try contradiction; reflexivity.
Qed.

Lemma change_prop_grows_or_overflows_witness :
  exists h' delta,
    Double.change_prop 5 1%nat (literal 1 1000) family = Some (Done tt, h') /\
    delta = Qceiling (float_value (SFmul Double.prec Double.emax (nearest 10)
                                     (literal 1 1000))) /\
    1 <= delta /\
    (forall a, a ∈ [1%nat; 3%nat] ->
       exists oa, family !! a = Some oa /\
         h' !! a = Some (Obj (_root oa) (_subtrees oa) (_parent_tree oa)
                           (data_size oa + delta) (colour oa))) /\
    (forall a, a ∉ [1%nat; 3%nat] -> h' !! a = family !! a).
Proof.
  apply (change_prop_grows_or_overflows 5 family 1%nat
           (Obj (Some "a"%string) [] (Some 3%nat) 10 grey) [3%nat]
           (literal 1 1000));
    [reflexivity | simpl; lia | reflexivity | reflexivity | reflexivity].
Defined.

(** X26: [change_prop] on doubles, on a node of size at least 1 whose parent
    chain reaches a root, for every double, NaN and the infinities included:
    either it raises [OverflowError] or [ValueError], from the conversion of
    the size, from the product or from [math.ceil], and then no object has
    changed; or it returns, the node's size is at least 1 afterwards, the
    node and each of its ancestors have got the same change of size and
    their other attributes as before, and no other object has changed. *)
Theorem change_prop_on_doubles (fuel : nat) (h : heap) (self : addr) (o : obj)
    (anc : list addr) (p : spec_float) :
  h !! self = Some o ->
  1 <= data_size o ->
  ancestors fuel h self = Some anc ->
  match Double.change_prop fuel self p h with
  | Some (Done _, h') =>
      exists d, 1 <= data_size o + d /\
        (forall a, a ∈ self :: anc ->
           exists oa, h !! a = Some oa /\
             h' !! a = Some (Obj (_root oa) (_subtrees oa) (_parent_tree oa)
                               (data_size oa + d) (colour oa))) /\
        (forall a, a ∉ self :: anc -> h' !! a = h !! a)
  | Some (Fails e, h') => h' = h /\ (e = OverflowError \/ e = ValueError)
  | None => False
  end.
Proof.
  intros Ho Hw Hanc. unfold Double.change_prop.
  rewrite (io_bind_done _ _ _ _ _ (call_load _ _ _ Ho)).
  set (r := if SFleb (S754_zero false) p then _ else _).
  assert (Hr : match r with
               | Done _ => True
               | Fails e => e = OverflowError \/ e = ValueError
               end).
  { unfold r, Double.int_mul_float, Double.float_of_int.
    destruct (SFleb (S754_zero false) p);
      destruct (binary_normalize Double.prec Double.emax (data_size o) 0 false);
      cbn [mbind outcome_bind]; auto;
      match goal with
      | |- context [Double.math_ceil ?x] => destruct x
      end; cbn [Double.math_ceil mbind outcome_bind]; auto. }
  destruct r as [sc|e].
  - set (d := if data_size o + sc <? 1 then data_size o - 1 else sc).
    destruct (update_size_fields _ _ _ d _ Hanc) as (h' & Hrun & Hin & Hout).
    change (match call (update_size fuel self d) h with
            | Some (Done _, h') =>
                exists d, 1 <= data_size o + d /\
                  (forall a, a ∈ self :: anc ->
                     exists oa, h !! a = Some oa /\
                       h' !! a = Some (Obj (_root oa) (_subtrees oa)
                                         (_parent_tree oa)
                                         (data_size oa + d) (colour oa))) /\
                  (forall a, a ∉ self :: anc -> h' !! a = h !! a)
            | Some (Fails e, h') =>
                h' = h /\ (e = OverflowError \/ e = ValueError)
            | None => False
            end).
    rewrite (call_return _ _ _ _ Hrun). exists d. split; [|split; assumption].
    unfold d. destruct (Z.ltb_spec (data_size o + sc) 1); lia.
  - split; [reflexivity|assumption].
Qed.

Lemma change_prop_on_doubles_witness :
  (exists h',
     Double.change_prop 5 1%nat (SFopp (literal 9 10)) three
     = Some (Done tt, h') /\
     size_at h' 1%nat = Some 5 /\ size_at h' 2%nat = Some 5) /\
  match Double.change_prop 5 1%nat (SFopp (literal 9 10)) three with
  | Some (Done _, h') =>
      exists d, 1 <= 3 + d /\
        (forall a, a ∈ [1%nat; 2%nat] ->
           exists oa, three !! a = Some oa /\
             h' !! a = Some (Obj (_root oa) (_subtrees oa) (_parent_tree oa)
                               (data_size oa + d) (colour oa))) /\
        (forall a, a ∉ [1%nat; 2%nat] -> h' !! a = three !! a)
  | Some (Fails e, h') => h' = three /\ (e = OverflowError \/ e = ValueError)
  | None => False
  end.
Proof.
  split; [eexists; vm_compute; repeat split; reflexivity|].
  apply (change_prop_on_doubles 5 three 1%nat
           (Obj (Some "leaf"%string) [] (Some 2%nat) 3 grey) [2%nat]
           (SFopp (literal 9 10)));
    [reflexivity | simpl; lia | reflexivity].
Defined.
